(** * openwork desktop utilities: logger and process tracker

    A shallow embedding of
    - [apps/desktop/src/main/utils/logger.ts] (safe serialization, the
      [Logger] class with buffering, rotation sampling and rotation, and
      the loggers kept by the module: default logger, cached loggers,
      [logEvent], [flushAllLoggers]), and
    - [main/utils/process-tracker] (the [ProcessTracker] class and its
      global instance),
    followed by the properties established about them.

    Conventions.  JavaScript numbers that the code uses as counters,
    sizes, indices and pids are integers and are modelled by [Z].  Strings
    are byte strings.  Objects live in a heap indexed by locations, so
    that reference cycles and object identity are represented.  Effects
    (console, file system, platform services, process signals) are made
    explicit: every operation is a function on a state that contains the
    mutable object and the world, and returns a completion (normal or
    thrown) together with the new state.

    The serialization is the one of [JSON.stringify] on data without
    [toJSON] methods, and its text is exact for integers below 1e21;
    paths are POSIX paths, joined without rewriting.  The statements
    that depend on this say so in their hypotheses ([toJSON_free],
    [plain_data], [normalized]). *)

From Stdlib Require Import Ascii String ZArith.
From stdpp Require Import gmap strings pretty list.

Local Open Scope string_scope.
Local Open Scope Z_scope.

(** ** Characters that cannot be written inside a literal *)

Definition dquote : ascii := ascii_of_nat 34.
Definition backslash : ascii := ascii_of_nat 92.
Definition newline : ascii := ascii_of_nat 10.
Definition nl : string := String newline EmptyString.

(** [join sep parts] is [Array.prototype.join]. *)
Fixpoint join (sep : string) (parts : list string) : string :=
  match parts with
  | [] => EmptyString
  | [p] => p
  | p :: rest => p +:+ sep +:+ join sep rest
  end.

(** [contains needle hay]: [needle] occurs in [hay] as a substring. *)
Definition contains (needle hay : string) : Prop :=
  ∃ pre post, hay = pre +:+ needle +:+ post.

Fixpoint spaces (n : nat) : string :=
  match n with
  | O => EmptyString
  | S n' => String " " (spaces n')
  end.

(** * JavaScript values, heap and JSON serialization *)

Module JS.

Definition loc := positive.

(** Primitive values are immediate; objects are referred to by location.
    Numbers are the integer-valued ones plus the non-finite ones (an
    integer is written with all its digits, as [JSON.stringify] does below
    1e21); a function is an opaque callable. *)
Inductive value :=
| VUndefined
| VNull
| VBool (b : bool)
| VNumber (z : Z)
| VNaN
| VInfinity (negative : bool)
| VString (s : string)
| VBigInt (z : Z)
| VSymbol (description : string)
| VFunction (name : string)
| VRef (l : loc).

(** Heap objects: their own enumerable string-keyed properties in
    property order.  An [Error] instance additionally answers the property
    reads [.name], [.message] and [.stack] (which are not enumerable, or
    inherited).  Objects with a [toJSON] method (a property of that name
    that holds a function), getters, proxies and boxed primitives are
    outside this model: see [toJSON_free] in the vocabulary.  The
    prototypes are the built-in ones. *)
Inductive object :=
| OPlain (props : list (string * value))
| OArray (elems : list value)
| OError (name message stack : value) (props : list (string * value)).

Abbreviation heap := (gmap loc object).

(** What a [throw] carries: an error object made by the runtime
    ([TypeError]), one made by the file system layer ([SysError], with its
    [code]), or any value thrown by a collaborator. *)
Inductive exn :=
| TypeError (msg : string)
| SysError (code : string) (syscall : string) (path : string)
| Thrown (v : value).

Inductive outcome (A : Type) :=
| Done (a : A)
| Raise (e : exn)
| OutOfFuel.
Arguments Done {A} a.
Arguments Raise {A} e.
Arguments OutOfFuel {A}.

(** [ToBoolean]. *)
Definition truthy (v : value) : bool :=
  match v with
  | VUndefined | VNull | VNaN => false
  | VBool b => b
  | VNumber z => negb (z =? 0)
  | VBigInt z => negb (z =? 0)
  | VString s => negb (bool_decide (s = EmptyString))
  | VInfinity _ | VSymbol _ | VFunction _ | VRef _ => true
  end.

(** *** QuoteJSONString *)

Definition hex_digit (n : N) : ascii :=
  match n with
  | 0 => "0" | 1 => "1" | 2 => "2" | 3 => "3" | 4 => "4" | 5 => "5"
  | 6 => "6" | 7 => "7" | 8 => "8" | 9 => "9" | 10 => "a" | 11 => "b"
  | 12 => "c" | 13 => "d" | 14 => "e" | _ => "f"
  end%N%char.

Definition quote_char (c : ascii) : string :=
  let n := N_of_ascii c in
  if (n =? 34)%N then String backslash (String dquote EmptyString)
  else if (n =? 92)%N then String backslash (String backslash EmptyString)
  else if (n =? 8)%N then String backslash "b"
  else if (n =? 9)%N then String backslash "t"
  else if (n =? 10)%N then String backslash "n"
  else if (n =? 12)%N then String backslash "f"
  else if (n =? 13)%N then String backslash "r"
  else if (n <? 32)%N then
    String backslash ("u00" +:+ String (hex_digit (n / 16)) (String (hex_digit (n mod 16)) EmptyString))
  else String c EmptyString.

Fixpoint quote_body (s : string) : string :=
  match s with
  | EmptyString => EmptyString
  | String c rest => quote_char c +:+ quote_body rest
  end.

Definition quote (s : string) : string :=
  String dquote (quote_body s) +:+ String dquote EmptyString.

(** *** The replacer of [safeStringify]

    [(_key, value) => { if (typeof value === 'object' && value !== null) {
    if (seen.has(value)) return '[Circular]'; seen.add(value); }
    if (value instanceof Error) return {name, message, stack}; return value; }]

    The object literal returned for an [Error] is fresh: it is described
    by its property list rather than by a heap location. *)
Inductive replaced :=
| RValue (v : value)
| RFresh (props : list (string * value)).

Definition replacer (h : heap) (seen : gset loc) (v : value) : replaced * gset loc :=
  match v with
  | VRef l =>
      match h !! l with
      | Some o =>
          if decide (l ∈ seen) then (RValue (VString "[Circular]"), seen)
          else
            let seen' := {[l]} ∪ seen in
            match o with
            | OError n m s _ => (RFresh [("name", n); ("message", m); ("stack", s)], seen')
            | _ => (RValue v, seen')
            end
      | None => (RValue v, seen)
      end
  | _ => (RValue v, seen)
  end.

(** *** SerializeJSONProperty / SerializeJSONObject / SerializeJSONArray *)

(** Serialize the items of an object or array from left to right,
    threading the [seen] set; stop at the first abrupt completion. *)
Definition outcome_map {A B : Type} (g : A → B) (r : outcome A * gset loc)
  : outcome B * gset loc :=
  (match fst r with
   | Done a => Done (g a)
   | Raise e => Raise e
   | OutOfFuel => OutOfFuel
   end, snd r).

Fixpoint serializeEach {K : Type}
    (f : gset loc → value → outcome (option string) * gset loc)
    (seen : gset loc) (items : list (K * value))
  : outcome (list (K * option string)) * gset loc :=
  match items with
  | [] => (Done [], seen)
  | (k, v) :: rest =>
      match f seen v with
      | (Done r, seen1) => outcome_map (cons (k, r)) (serializeEach f seen1 rest)
      | (Raise e, seen1) => (Raise e, seen1)
      | (OutOfFuel, seen1) => (OutOfFuel, seen1)
      end
  end.

Section Serialize.
Variable h : heap.
Variable gap : string.

Definition colon : string :=
  if bool_decide (gap = EmptyString) then ":" else ": ".

(** Members of an object: a property whose value serializes to
    [undefined] is left out. *)
Fixpoint members (rs : list (string * option string)) : list string :=
  match rs with
  | [] => []
  | (k, Some s) :: rest => (quote k +:+ colon +:+ s) :: members rest
  | (_, None) :: rest => members rest
  end.

(** Elements of an array: [undefined] is written [null]. *)
Definition elements (rs : list (unit * option string)) : list string :=
  map (λ r, match snd r with Some s => s | None => "null" end) rs.

Definition wrap (opening closing stepback indent : string) (partial : list string) : string :=
  match partial with
  | [] => opening +:+ closing
  | _ =>
      if bool_decide (gap = EmptyString) then opening +:+ join "," partial +:+ closing
      else opening +:+ nl +:+ indent +:+ join ("," +:+ nl +:+ indent) partial
             +:+ nl +:+ stepback +:+ closing
  end.

Definition cyclic : exn := TypeError "Converting circular structure to JSON".
Definition bigint : exn := TypeError "Do not know how to serialize a BigInt".

(** [stk] is the serializer's own stack of objects being written (its
    built-in cycle check raises on a repeat); [seen] is the replacer's
    [WeakSet].  The fresh object made for an [Error] is not on the stack:
    nothing can refer to it. *)
Fixpoint serializeJSONProperty (fuel : nat) (indent : string) (stk : list loc)
    (seen : gset loc) (v : value) {struct fuel} : outcome (option string) * gset loc :=
  match fuel with
  | O => (OutOfFuel, seen)
  | S fuel' =>
      let '(r, seen) := replacer h seen v in
      let serObject (stk' : list loc) (props : list (string * value)) :=
        let indent' := indent +:+ gap in
        outcome_map (λ rs, Some (wrap "{" "}" indent indent' (members rs)))
          (serializeEach (serializeJSONProperty fuel' indent' stk') seen props) in
      let serArray (stk' : list loc) (elems : list value) :=
        let indent' := indent +:+ gap in
        outcome_map (λ rs, Some (wrap "[" "]" indent indent' (elements rs)))
          (serializeEach (serializeJSONProperty fuel' indent' stk') seen
             (map (λ e, (tt, e)) elems)) in
      match r with
      | RFresh props => serObject stk props
      | RValue v' =>
          match v' with
          | VNull => (Done (Some "null"), seen)
          | VBool true => (Done (Some "true"), seen)
          | VBool false => (Done (Some "false"), seen)
          | VString s => (Done (Some (quote s)), seen)
          | VNumber z => (Done (Some (pretty z)), seen)
          | VNaN | VInfinity _ => (Done (Some "null"), seen)
          | VBigInt _ => (Raise bigint, seen)
          | VUndefined | VSymbol _ | VFunction _ => (Done None, seen)
          | VRef l =>
              match h !! l with
              | None => (Done None, seen)
              | Some o =>
                  if decide (l ∈ stk) then (Raise cyclic, seen)
                  else
                    match o with
                    | OPlain props => serObject (l :: stk) props
                    | OError _ _ _ props => serObject (l :: stk) props
                    | OArray elems => serArray (l :: stk) elems
                    end
              end
          end
      end
  end.

End Serialize.

(** The [space] argument of [JSON.stringify]: a number gives that many
    spaces, at most ten. *)
Definition gap_of (indent : nat) : string := spaces (Nat.min indent 10).

(** [safeStringify(obj, indent = 2)].  Every object is entered at most
    once, so the nesting depth is bounded by the number of objects. *)
Definition safeStringify (h : heap) (obj : value) (indent : nat) : outcome (option string) :=
  fst (serializeJSONProperty h (gap_of indent) (S (size h)) EmptyString [] ∅ obj).

End JS.

(** * Effectful code: state and exceptions *)

Module Eff.

Inductive completion (E A : Type) :=
| Normal (a : A)
| Throw (e : E).
Arguments Normal {E A} a.
Arguments Throw {E A} e.

(** A computation over a mutable state [S] that may throw an [E]. *)
Definition M (S E A : Type) : Type := S → completion E A * S.

Definition ret {S E A} (a : A) : M S E A := λ s, (Normal a, s).

Definition bind {S E A B} (m : M S E A) (f : A → M S E B) : M S E B :=
  λ s, match m s with
       | (Normal a, s') => f a s'
       | (Throw e, s') => (Throw e, s')
       end.

Definition throw {S E A} (e : E) : M S E A := λ s, (Throw e, s).

(** [try { body } catch (e) { handler e }] *)
Definition try_catch {S E A} (body : M S E A) (handler : E → M S E A) : M S E A :=
  λ s, match body s with
       | (Normal a, s') => (Normal a, s')
       | (Throw e, s') => handler e s'
       end.

Definition gets {S E A} (f : S → A) : M S E A := λ s, (Normal (f s), s).
Definition modify {S E} (f : S → S) : M S E unit := λ s, (Normal tt, f s).

(** Run a computation on the second component of a pair state. *)
Definition lift {S1 S2 E A} (m : M S2 E A) : M (S1 * S2) E A :=
  λ s, let '(r, s2) := m (snd s) in (r, (fst s, s2)).

Global Instance M_ret {S E} : MRet (M S E) := λ A, ret.
Global Instance M_bind {S E} : MBind (M S E) := λ A B f m, bind m f.

End Eff.

(** * The collaborators: console, file system, platform services *)

Module Platform.
Import JS Eff.

(** A file system as a flat map from normalized paths to nodes. *)
Inductive node :=
| File (content : string)
| Dir.

Inductive channel := ConsoleDebug | ConsoleLog | ConsoleWarn | ConsoleError.

(** An argument of a console call: a value, or a caught error. *)
Inductive carg :=
| AVal (v : value)
| AExn (e : exn).

(** Calls made to the collaborators, in order.  [EnterRotateIfNeeded]
    marks each invocation of the logger's rotation check. *)
Inductive event :=
| Console (ch : channel) (args : list carg)
| GetPath (name : string)
| ExistsSync (path : string)
| MkdirSync (path : string)
| StatSync (path : string)
| AppendFileSync (path content : string)
| RenameSync (oldPath newPath : string)
| UnlinkSync (path : string)
| EnterRotateIfNeeded.

(** The world the logger runs in.  [w_faults] scripts failures of the
    file system that do not depend on its contents (permissions, full
    disk, ...): each fallible call consumes one entry, and [Some e] makes
    that call throw [e].  [w_getPath] is the platform path service and
    [w_now] the reading of the clock as [toISOString] prints it. *)
Record World := mkWorld {
  w_heap : heap;
  w_fs : gmap string node;
  w_faults : list (option exn);
  w_getPath : string → string + exn;
  w_now : string;
  w_trace : list event
}.

Definition set_heap (h : heap) (w : World) : World :=
  mkWorld h (w_fs w) (w_faults w) (w_getPath w) (w_now w) (w_trace w).
Definition set_fs (fs : gmap string node) (w : World) : World :=
  mkWorld (w_heap w) fs (w_faults w) (w_getPath w) (w_now w) (w_trace w).
Definition set_faults (fl : list (option exn)) (w : World) : World :=
  mkWorld (w_heap w) (w_fs w) fl (w_getPath w) (w_now w) (w_trace w).
Definition set_now (t : string) (w : World) : World :=
  mkWorld (w_heap w) (w_fs w) (w_faults w) (w_getPath w) t (w_trace w).
Definition set_trace (tr : list event) (w : World) : World :=
  mkWorld (w_heap w) (w_fs w) (w_faults w) (w_getPath w) (w_now w) tr.

Definition emit (ev : event) : M World exn unit :=
  modify (λ w, set_trace (w_trace w ++ [ev])%list w).

Definition fault : M World exn unit :=
  λ w, match w_faults w with
       | [] => (Normal tt, w)
       | None :: rest => (Normal tt, set_faults rest w)
       | Some e :: rest => (Throw e, set_faults rest w)
       end.

Definition console (ch : channel) (args : list carg) : M World exn unit :=
  emit (Console ch args).

(** [app.getPath(name)] *)
Definition getPath (name : string) : M World exn string :=
  emit (GetPath name);;
  f ← gets w_getPath;
  match f name with
  | inl p => mret p
  | inr e => throw e
  end.

(** [new Date().toISOString()] *)
Definition formatTimestamp : M World exn string := gets w_now.

(** [path.join(dir, name)], with the separator of POSIX, for a plain
    file name and a directory path that needs no rewriting (see
    [normalized] in the vocabulary). *)
Definition path_join (dir name : string) : string := dir +:+ "/" +:+ name.

(** [fs.existsSync]: never throws. *)
Definition existsSync (p : string) : M World exn bool :=
  emit (ExistsSync p);;
  fs ← gets w_fs;
  mret (match fs !! p with Some _ => true | None => false end).

(** [fs.mkdirSync(p, { recursive: true })].  The directories above [p],
    which the call makes where they are missing, are not entries of the
    map. *)
Definition mkdirSync (p : string) : M World exn unit :=
  emit (MkdirSync p);;
  fault;;
  fs ← gets w_fs;
  match fs !! p with
  | Some (File _) => throw (SysError "EEXIST" "mkdir" p)
  | Some Dir => mret tt
  | None => modify (set_fs (<[p := Dir]> fs))
  end.

(** [fs.statSync(p).size]; the size of a directory, which depends on
    the platform, is taken to be 0. *)
Definition statSync (p : string) : M World exn Z :=
  emit (StatSync p);;
  fault;;
  fs ← gets w_fs;
  match fs !! p with
  | Some (File c) => mret (Z.of_nat (String.length c))
  | Some Dir => mret 0
  | None => throw (SysError "ENOENT" "stat" p)
  end.

(** [fs.appendFileSync(p, content, 'utf8')]: creates the file if needed. *)
Definition appendFileSync (p content : string) : M World exn unit :=
  emit (AppendFileSync p content);;
  fault;;
  fs ← gets w_fs;
  match fs !! p with
  | Some (File c) => modify (set_fs (<[p := File (c +:+ content)]> fs))
  | Some Dir => throw (SysError "EISDIR" "open" p)
  | None => modify (set_fs (<[p := File content]> fs))
  end.

(** [fs.renameSync(oldPath, newPath)]: replaces an existing target. *)
Definition renameSync (oldPath newPath : string) : M World exn unit :=
  emit (RenameSync oldPath newPath);;
  fault;;
  fs ← gets w_fs;
  match fs !! oldPath with
  | None => throw (SysError "ENOENT" "rename" oldPath)
  | Some n =>
      match n, fs !! newPath with
      | File _, Some Dir => throw (SysError "EISDIR" "rename" oldPath)
      | Dir, Some (File _) => throw (SysError "ENOTDIR" "rename" oldPath)
      | _, _ => modify (set_fs (<[newPath := n]> (delete oldPath fs)))
      end
  end.

(** [fs.unlinkSync(p)] *)
Definition unlinkSync (p : string) : M World exn unit :=
  emit (UnlinkSync p);;
  fault;;
  fs ← gets w_fs;
  match fs !! p with
  | None => throw (SysError "ENOENT" "unlink" p)
  | Some Dir => throw (SysError "EPERM" "unlink" p)
  | Some (File _) => modify (set_fs (delete p fs))
  end.

(** Allocation of a fresh object (an object literal). *)
Definition alloc (o : object) : M World exn loc :=
  h ← gets w_heap;
  let l := fresh (dom h) in
  modify (set_heap (<[l := o]> h));;
  mret l.

End Platform.

(** * logger.ts *)

Module Logger.
Import JS Eff Platform.

Inductive LogLevel := DEBUG | INFO | WARN | ERROR.

(** The numeric value of the enum. *)
Definition level_value (l : LogLevel) : Z :=
  match l with DEBUG => 0 | INFO => 1 | WARN => 2 | ERROR => 3 end.

Definition LOG_LEVEL_NAMES (l : LogLevel) : string :=
  match l with DEBUG => "DEBUG" | INFO => "INFO" | WARN => "WARN" | ERROR => "ERROR" end.

(** [LoggerOptions]: every key is optional ([None]: key absent). *)
Record LoggerOptions := mkLoggerOptions {
  opt_level : option LogLevel;
  opt_fileLogging : option bool;
  opt_maxFileSize : option Z;
  opt_maxBackups : option Z;
  opt_deferInit : option bool;
  opt_rotationCheckInterval : option Z;
  opt_bufferSize : option Z
}.

Definition no_options : LoggerOptions :=
  mkLoggerOptions None None None None None None None.

(** [Required<LoggerOptions>] *)
Record Options := mkOptions {
  level : LogLevel;
  fileLogging : bool;
  maxFileSize : Z;
  maxBackups : Z;
  deferInit : bool;
  rotationCheckInterval : Z;
  bufferSize : Z
}.

Definition DEFAULT_OPTIONS : Options :=
  {| level := INFO;
     fileLogging := false;
     maxFileSize := 10 * 1024 * 1024;
     maxBackups := 5;
     deferInit := false;
     rotationCheckInterval := 100;
     bufferSize := 0 |}.

(** [{ ...DEFAULT_OPTIONS, ...options }] *)
Definition merge_options (d : Options) (o : LoggerOptions) : Options :=
  {| level := default (level d) (opt_level o);
     fileLogging := default (fileLogging d) (opt_fileLogging o);
     maxFileSize := default (maxFileSize d) (opt_maxFileSize o);
     maxBackups := default (maxBackups d) (opt_maxBackups o);
     deferInit := default (deferInit d) (opt_deferInit o);
     rotationCheckInterval := default (rotationCheckInterval d) (opt_rotationCheckInterval o);
     bufferSize := default (bufferSize d) (opt_bufferSize o) |}.

(** The fields of a [Logger] instance. *)
Record Logger := mkLogger {
  moduleName : string;
  options : Options;
  logFilePath : option string;
  logsDir : option string;
  fileLoggingInitialized : bool;
  logWriteCount : Z;
  logBuffer : list string
}.

Definition set_options (o : Options) (l : Logger) : Logger :=
  mkLogger (moduleName l) o (logFilePath l) (logsDir l)
    (fileLoggingInitialized l) (logWriteCount l) (logBuffer l).
Definition set_level (v : LogLevel) (o : Options) : Options :=
  mkOptions v (fileLogging o) (maxFileSize o) (maxBackups o) (deferInit o)
    (rotationCheckInterval o) (bufferSize o).
Definition set_fileLogging (b : bool) (o : Options) : Options :=
  mkOptions (level o) b (maxFileSize o) (maxBackups o) (deferInit o)
    (rotationCheckInterval o) (bufferSize o).
Definition set_logFilePath (p : option string) (l : Logger) : Logger :=
  mkLogger (moduleName l) (options l) p (logsDir l)
    (fileLoggingInitialized l) (logWriteCount l) (logBuffer l).
Definition set_logsDir (p : option string) (l : Logger) : Logger :=
  mkLogger (moduleName l) (options l) (logFilePath l) p
    (fileLoggingInitialized l) (logWriteCount l) (logBuffer l).
Definition set_fileLoggingInitialized (b : bool) (l : Logger) : Logger :=
  mkLogger (moduleName l) (options l) (logFilePath l) (logsDir l)
    b (logWriteCount l) (logBuffer l).
Definition set_logWriteCount (n : Z) (l : Logger) : Logger :=
  mkLogger (moduleName l) (options l) (logFilePath l) (logsDir l)
    (fileLoggingInitialized l) n (logBuffer l).
Definition set_logBuffer (b : list string) (l : Logger) : Logger :=
  mkLogger (moduleName l) (options l) (logFilePath l) (logsDir l)
    (fileLoggingInitialized l) (logWriteCount l) b.

(** The state of a method call: [this] and the world. *)
Definition State : Type := Logger * World.

Definition this {A} (f : Logger → A) : M State exn A := gets (λ s, f (fst s)).
Definition update (f : Logger → Logger) : M State exn unit :=
  modify (λ s, (f (fst s), snd s)).

(** Truthiness of a [string | null] field: [null] and the empty string
    are falsy. *)
Definition path_of (p : option string) : option string :=
  match p with
  | Some s => if bool_decide (s = EmptyString) then None else Some s
  | None => None
  end.

(** [safeStringify(context)] spliced into a template string. *)
Definition safeStringifyText (context : value) : M State exn string :=
  h ← gets (λ s, w_heap (snd s));
  match safeStringify h context 2 with
  | Done (Some s) => mret s
  | Done None => mret "undefined"
  | Raise e => throw e
  | OutOfFuel => throw (TypeError "unreachable")
  end.

(** The backup shift of [rotateIfNeeded]:
    [for (let i = maxBackups - 1; i >= 1; i--) { ... }], entered with
    [n = maxBackups - 1]. *)
Fixpoint rotateBackups (dir : string) (maxBackups : Z) (n : nat) : M State exn unit :=
  match n with
  | O => mret tt
  | S n' =>
      let i := Z.of_nat n in
      let oldPath := path_join dir ("app.log." +:+ pretty i) in
      let newPath := path_join dir ("app.log." +:+ pretty (i + 1)) in
      ex ← lift (existsSync oldPath);
      (if ex : bool then
         if bool_decide (i = maxBackups - 1) then lift (unlinkSync oldPath)
         else lift (renameSync oldPath newPath)
       else mret tt);;
      rotateBackups dir maxBackups n'
  end.

Definition rotateIfNeeded : M State exn unit :=
  lift (emit EnterRotateIfNeeded);;
  p ← this logFilePath;
  d ← this logsDir;
  match path_of p, path_of d with
  | Some logFile, Some dir =>
      try_catch
        (ex ← lift (existsSync logFile);
         if negb ex then mret tt
         else
           size ← lift (statSync logFile);
           max ← this (maxFileSize ∘ options);
           if size <? max then mret tt
           else
             backups ← this (maxBackups ∘ options);
             rotateBackups dir backups (Z.to_nat (backups - 1));;
             lift (renameSync logFile (path_join dir "app.log.1")))
        (λ error,
           lift (console ConsoleError
                   [AVal (VString "[Logger] Log rotation failed:"); AExn error]))
  | _, _ => mret tt
  end.

Definition writeToFile (content : string) : M State exn unit :=
  p ← this logFilePath;
  d ← this logsDir;
  match path_of p, path_of d with
  | Some logFile, Some _ =>
      try_catch
        (update (λ l, set_logWriteCount (logWriteCount l + 1) l);;
         count ← this logWriteCount;
         interval ← this (rotationCheckInterval ∘ options);
         (if interval <=? count then
            rotateIfNeeded;;
            update (set_logWriteCount 0)
          else mret tt);;
         lift (appendFileSync logFile content))
        (λ error,
           lift (console ConsoleError
                   [AVal (VString "[Logger] Failed to write to log file:"); AExn error]))
  | _, _ => mret tt
  end.

Definition flushBuffer : M State exn unit :=
  buf ← this logBuffer;
  match buf with
  | [] => mret tt
  | _ =>
      let content := join EmptyString buf in
      update (set_logBuffer []);;
      writeToFile content
  end.

Definition flush : M State exn unit := flushBuffer.

Definition fileLog (prefix message : string) (context : value) : M State exn unit :=
  p ← this logFilePath;
  d ← this logsDir;
  match path_of p, path_of d with
  | Some _, Some _ =>
      contextStr ← (if truthy context
                    then s ← safeStringifyText context; mret (" " +:+ s)
                    else mret EmptyString);
      let logEntry := prefix +:+ " " +:+ message +:+ contextStr +:+ nl in
      size ← this (bufferSize ∘ options);
      if 0 <? size then
        update (λ l, set_logBuffer (logBuffer l ++ [logEntry])%list l);;
        buf ← this logBuffer;
        if size <=? Z.of_nat (length buf) then flushBuffer else mret tt
      else writeToFile logEntry
  | _, _ => mret tt
  end.

Definition consoleLog (lvl : LogLevel) (prefix message : string) (context : value)
  : M State exn unit :=
  let args := ([AVal (VString (prefix +:+ " " +:+ message))]
               ++ (if truthy context then [AVal context] else []))%list in
  match lvl with
  | DEBUG => lift (console ConsoleDebug args)
  | INFO => lift (console ConsoleLog args)
  | WARN => lift (console ConsoleWarn args)
  | ERROR => lift (console ConsoleError args)
  end.

Definition initFileLogging : M State exn unit :=
  inited ← this fileLoggingInitialized;
  if inited : bool then mret tt
  else
    try_catch
      (base ← lift (getPath "userData");
       update (set_logsDir (Some (path_join base "logs")));;
       d ← this logsDir;
       let dir := default EmptyString d in
       ex ← lift (existsSync dir);
       (if negb ex then lift (mkdirSync dir) else mret tt);;
       update (set_logFilePath (Some (path_join dir "app.log")));;
       update (set_fileLoggingInitialized true))
      (λ error,
         lift (console ConsoleError
                 [AVal (VString "[Logger] Failed to initialize file logging:"); AExn error]);;
         update (λ l, set_options (set_fileLogging false (options l)) l)).

Definition ensureFileLoggingInitialized : M State exn unit :=
  enabled ← this (fileLogging ∘ options);
  inited ← this fileLoggingInitialized;
  if enabled && negb inited then initFileLogging else mret tt.

(** The core logging method. *)
Definition log (lvl : LogLevel) (message : string) (context : value) : M State exn unit :=
  min ← this (level ∘ options);
  if level_value lvl <? level_value min then mret tt
  else
    timestamp ← lift formatTimestamp;
    let levelName := LOG_LEVEL_NAMES lvl in
    name ← this moduleName;
    let prefix := "[" +:+ timestamp +:+ "] [" +:+ levelName +:+ "] [" +:+ name +:+ "]" in
    consoleLog lvl prefix message context;;
    enabled ← this (fileLogging ∘ options);
    if enabled : bool then
      ensureFileLoggingInitialized;;
      p ← this logFilePath;
      match path_of p with
      | Some _ => fileLog prefix message context
      | None => mret tt
      end
    else mret tt.

Definition debug (message : string) (context : value) : M State exn unit :=
  log DEBUG message context.
Definition info (message : string) (context : value) : M State exn unit :=
  log INFO message context.
Definition warn (message : string) (context : value) : M State exn unit :=
  log WARN message context.

(** [error(message, error?: Error | Record<string, unknown>)]: a native
    error is copied into the object literal
    [{ error: { name, message, stack } }]. *)
Definition error (message : string) (err : value) : M State exn unit :=
  h ← gets (λ s, w_heap (snd s));
  context ← match err with
            | VRef l =>
                match h !! l with
                | Some (OError n m s _) =>
                    inner ← lift (alloc (OPlain [("name", n); ("message", m); ("stack", s)]));
                    outer ← lift (alloc (OPlain [("error", VRef inner)]));
                    mret (VRef outer)
                | _ => mret err
                end
            | _ => mret err
            end;
  log ERROR message context.

(** The leveled method for a severity. *)
Definition method (lvl : LogLevel) : string → value → M State exn unit :=
  match lvl with DEBUG => debug | INFO => info | WARN => warn | ERROR => error end.

Definition getModuleName : M State exn string := this moduleName.
Definition getLevel : M State exn LogLevel := this (level ∘ options).
Definition setLevel (lvl : LogLevel) : M State exn unit :=
  update (λ l, set_options (set_level lvl (options l)) l).
Definition isFileLoggingEnabled : M State exn bool := this (fileLogging ∘ options).

(** [constructor(moduleName, options = {})], run on the fresh instance. *)
Definition fresh_logger (name : string) (o : LoggerOptions) : Logger :=
  {| moduleName := name;
     options := merge_options DEFAULT_OPTIONS o;
     logFilePath := None;
     logsDir := None;
     fileLoggingInitialized := false;
     logWriteCount := 0;
     logBuffer := [] |}.

Definition constructor : M State exn unit :=
  enabled ← this (fileLogging ∘ options);
  deferred ← this (deferInit ∘ options);
  if enabled && negb deferred then initFileLogging else mret tt.

(** [new Logger(moduleName, options)] *)
Definition new_Logger (name : string) (o : LoggerOptions) (w : World)
  : completion exn unit * State :=
  constructor (fresh_logger name o, w).

Definition createLogger := new_Logger.

(** A call made by a client of the logger, at a given reading of the
    clock. *)
Inductive call :=
| CallLog (now : string) (lvl : LogLevel) (message : string) (context : value)
| CallFlush.

Definition run_call (c : call) : M State exn unit :=
  match c with
  | CallLog now lvl message context =>
      modify (λ s, (fst s, set_now now (snd s)));;
      method lvl message context
  | CallFlush => flush
  end.

(** A sequence of calls; a call that throws does not stop the client. *)
Fixpoint run_calls (cs : list call) (s : State) : State :=
  match cs with
  | [] => s
  | c :: rest => run_calls rest (snd (run_call c s))
  end.

(** The core routine called at a given reading of the clock, and a
    sequence of such calls. *)
Definition log_at (now : string) (lvl : LogLevel) (message : string) (context : value)
  : M State exn unit :=
  modify (λ s, (fst s, set_now now (snd s)));;
  log lvl message context.

Definition entry : Type := string * LogLevel * string * value.


(** A sequence of disk writes. *)
Fixpoint write_all (contents : list string) (s : State) : State :=
  match contents with
  | [] => s
  | c :: rest => write_all rest (snd (writeToFile c s))
  end.

End Logger.

(** * process-tracker *)

Module ProcessTracker.
Import Eff.

Inductive KillSignal := SIGTERM | SIGKILL | SIGINT.

Definition signal_name (s : KillSignal) : string :=
  match s with SIGTERM => "SIGTERM" | SIGKILL => "SIGKILL" | SIGINT => "SIGINT" end.

Record ProcessInfo := mkProcessInfo {
  pid : Z;
  name : string;
  startTime : string
}.

(** What [process.kill] throws: [code] is absent on a plain [Error]. *)
Record ErrnoException := mkErrno {
  code : option string;
  message : string
}.

(** [Map<number, ProcessInfo>]: entries in insertion order, keys unique. *)
Definition tracked_map : Type := list (Z * ProcessInfo).

Definition map_get (k : Z) (m : tracked_map) : option ProcessInfo :=
  snd <$> List.find (λ e, bool_decide (fst e = k)) m.

Definition map_has (k : Z) (m : tracked_map) : bool :=
  match map_get k m with Some _ => true | None => false end.

(** [set] keeps the position of an existing key and appends a new one. *)
Fixpoint map_set (k : Z) (v : ProcessInfo) (m : tracked_map) : tracked_map :=
  match m with
  | [] => [(k, v)]
  | (k', v') :: rest =>
      if bool_decide (k' = k) then (k, v) :: rest else (k', v') :: map_set k v rest
  end.

Definition map_delete (k : Z) (m : tracked_map) : tracked_map :=
  List.filter (λ e, negb (bool_decide (fst e = k))) m.

Definition map_size (m : tracked_map) : Z := Z.of_nat (length m).

Inductive event :=
| ConsoleLog (msg : string)
| ConsoleError (msg : string) (error : ErrnoException)
| Kill (target : Z) (signal : KillSignal).

(** The operating system answers a signal either normally ([None]) or by
    throwing; [w_now] is the reading of the clock. *)
Record World := mkWorld {
  w_kill : Z → KillSignal → option ErrnoException;
  w_now : string;
  w_trace : list event
}.

Definition State : Type := tracked_map * World.

Definition this {A} (f : tracked_map → A) : M State ErrnoException A :=
  gets (λ s, f (fst s)).
Definition update (f : tracked_map → tracked_map) : M State ErrnoException unit :=
  modify (λ s, (f (fst s), snd s)).
Definition emit (ev : event) : M State ErrnoException unit :=
  modify (λ s, (fst s, mkWorld (w_kill (snd s)) (w_now (snd s)) (w_trace (snd s) ++ [ev])%list)).

(** [process.kill(pid, signal)] *)
Definition process_kill (p : Z) (signal : KillSignal) : M State ErrnoException unit :=
  emit (Kill p signal);;
  k ← gets (λ s, w_kill (snd s));
  match k p signal with
  | None => mret tt
  | Some e => throw e
  end.

Definition trackProcess (p : Z) (nm : string) : M State ErrnoException unit :=
  has ← this (map_has p);
  (if has : bool then
     emit (ConsoleLog ("[ProcessTracker] Process " +:+ pretty p +:+ " (" +:+ nm
                       +:+ ") already tracked, updating"))
   else mret tt);;
  now ← gets (λ s, w_now (snd s));
  update (map_set p (mkProcessInfo p nm now));;
  size ← this map_size;
  emit (ConsoleLog ("[ProcessTracker] Now tracking process " +:+ pretty p +:+ " (" +:+ nm
                    +:+ "). Total: " +:+ pretty size)).

Definition untrackProcess (p : Z) : M State ErrnoException unit :=
  info ← this (map_get p);
  match info with
  | Some i =>
      update (map_delete p);;
      size ← this map_size;
      emit (ConsoleLog ("[ProcessTracker] Untracked process " +:+ pretty p +:+ " ("
                        +:+ name i +:+ "). Remaining: " +:+ pretty size))
  | None => mret tt
  end.

Definition isTracked (p : Z) : M State ErrnoException bool := this (map_has p).
Definition getTrackedCount : M State ErrnoException Z := this map_size.
Definition getTrackedPids : M State ErrnoException (list Z) := this (map fst).
Definition getProcessInfo (p : Z) : M State ErrnoException (option ProcessInfo) :=
  this (map_get p).

(** The [try { process.kill } catch] block shared by both kill methods. *)
Definition attempt_kill (p : Z) (info : ProcessInfo) (signal : KillSignal)
  : M State ErrnoException unit :=
  try_catch
    (process_kill p signal;;
     emit (ConsoleLog ("[ProcessTracker] Sent " +:+ signal_name signal +:+ " to process "
                       +:+ pretty p +:+ " (" +:+ name info +:+ ")")))
    (λ err,
       if bool_decide (code err = Some "ESRCH") then
         emit (ConsoleLog ("[ProcessTracker] Process " +:+ pretty p +:+ " (" +:+ name info
                           +:+ ") already exited"))
       else
         emit (ConsoleError ("[ProcessTracker] Failed to kill process " +:+ pretty p +:+ ":")
                 err)).

Definition killProcess (p : Z) (signal : KillSignal) : M State ErrnoException bool :=
  info ← this (map_get p);
  match info with
  | None => mret false
  | Some i =>
      attempt_kill p i signal;;
      update (map_delete p);;
      mret true
  end.

Fixpoint kill_entries (entries : list (Z * ProcessInfo)) (signal : KillSignal)
  : M State ErrnoException unit :=
  match entries with
  | [] => mret tt
  | (p, info) :: rest => attempt_kill p info signal;; kill_entries rest signal
  end.

Definition killAllTrackedProcesses (signal : KillSignal) : M State ErrnoException unit :=
  count ← this map_size;
  if count =? 0 then emit (ConsoleLog "[ProcessTracker] No tracked processes to kill")
  else
    emit (ConsoleLog ("[ProcessTracker] Killing " +:+ pretty count
                      +:+ " tracked processes with " +:+ signal_name signal));;
    entries ← this id;
    kill_entries entries signal;;
    update (λ _, []);;
    emit (ConsoleLog "[ProcessTracker] All tracked processes cleared").

Definition forceKillAll : M State ErrnoException unit := killAllTrackedProcesses SIGKILL.

(** The signals sent during a run, in order. *)
Definition kills (tr : list event) : list (Z * KillSignal) :=
  omap (λ ev, match ev with Kill p s => Some (p, s) | _ => None end) tr.

End ProcessTracker.

(** * logger.ts: the loggers kept by the module *)

Module LoggerRegistry.
Import JS Eff Platform Logger.

(** [LogEntry], as it arrives over IPC: [level] is whatever string was
    sent, an absent [context] is [undefined], an absent [timestamp] or
    [module] is [None]. *)
Record LogEntry := mkLogEntry {
  entry_level : string;
  entry_message : string;
  entry_context : value;
  entry_timestamp : option string;
  entry_module : option string
}.

(** [Map<string, Logger>]: entries in insertion order; [set] keeps the
    position of an existing key and appends a new one. *)
Definition cache_get (k : string) (c : list (string * Logger)) : option Logger :=
  snd <$> List.find (λ e, bool_decide (fst e = k)) c.

Fixpoint cache_set (k : string) (l : Logger) (c : list (string * Logger))
  : list (string * Logger) :=
  match c with
  | [] => [(k, l)]
  | (k', l') :: rest =>
      if bool_decide (k' = k) then (k, l) :: rest else (k', l') :: cache_set k l rest
  end.

(** The variables of the module, [defaultLogger] and [moduleLoggerCache],
    with [app.isPackaged], which is fixed for the life of the process.
    A stored [Logger] is the instance itself: it is read and written in
    place by the calls made through its reference. *)
Record Registry := mkRegistry {
  isPackaged : bool;
  defaultLogger : option Logger;
  moduleLoggerCache : list (string * Logger)
}.

Definition set_defaultLogger (d : option Logger) (g : Registry) : Registry :=
  mkRegistry (isPackaged g) d (moduleLoggerCache g).
Definition set_moduleLoggerCache (c : list (string * Logger)) (g : Registry) : Registry :=
  mkRegistry (isPackaged g) (defaultLogger g) c.

(** The state at module load. *)
Definition at_load (packaged : bool) : Registry := mkRegistry packaged None [].

Definition RState : Type := Registry * World.

(** A reference to one of the loggers of the module. *)
Inductive ref :=
| DefaultLogger
| CachedLogger (moduleName : string).

Definition deref (r : ref) (g : Registry) : option Logger :=
  match r with
  | DefaultLogger => defaultLogger g
  | CachedLogger k => cache_get k (moduleLoggerCache g)
  end.

Definition assign (r : ref) (l : Logger) (g : Registry) : Registry :=
  match r with
  | DefaultLogger => set_defaultLogger (Some l) g
  | CachedLogger k => set_moduleLoggerCache (cache_set k l (moduleLoggerCache g)) g
  end.

(** A method call through a reference: the method runs on the stored
    instance, whose new state is stored back, also when it throws. *)
Definition on {A} (r : ref) (m : M Logger.State exn A) : M RState exn A :=
  λ s, match deref r (fst s) with
       | Some l => let '(res, (l', w')) := m (l, snd s) in (res, (assign r l' (fst s), w'))
       | None => (Throw (TypeError "Cannot read properties of null"), s)
       end.

(** [new Logger(moduleName, options)] as an expression. *)
Definition construct (name : string) (o : LoggerOptions) : M RState exn Logger :=
  λ s, let '(res, (l, w')) := new_Logger name o (snd s) in
       (match res with Normal _ => Normal l | Throw e => Throw e end, (fst s, w')).

Definition getDefaultLogger : M RState exn ref :=
  d ← gets (λ s, defaultLogger (fst s));
  match d with
  | Some _ => mret DefaultLogger
  | None =>
      packaged ← gets (λ s, isPackaged (fst s));
      l ← construct "app"
             (mkLoggerOptions (Some (if packaged : bool then INFO else DEBUG))
                (Some packaged) None None (Some true) None None);
      modify (λ s, (set_defaultLogger (Some l) (fst s), snd s));;
      mret DefaultLogger
  end.

Definition getCachedLogger (moduleName : string) : M RState exn ref :=
  c ← gets (λ s, moduleLoggerCache (fst s));
  match cache_get moduleName c with
  | Some _ => mret (CachedLogger moduleName)
  | None =>
      l ← construct moduleName
             (mkLoggerOptions None (Some true) None None (Some true) None None);
      modify (λ s, (set_moduleLoggerCache (cache_set moduleName l (moduleLoggerCache (fst s)))
                      (fst s), snd s));;
      mret (CachedLogger moduleName)
  end.

(** [entry.module || 'renderer'] *)
Definition module_or_renderer (entry : LogEntry) : string :=
  match entry_module entry with
  | Some m => if bool_decide (m = EmptyString) then "renderer" else m
  | None => "renderer"
  end.

Definition logEvent (entry : LogEntry) : M RState exn unit :=
  logger ← getCachedLogger (module_or_renderer entry);
  let lvl := entry_level entry in
  if bool_decide (lvl = "debug") then
    on logger (debug (entry_message entry) (entry_context entry))
  else if bool_decide (lvl = "info") then
    on logger (info (entry_message entry) (entry_context entry))
  else if bool_decide (lvl = "warn") then
    on logger (warn (entry_message entry) (entry_context entry))
  else if bool_decide (lvl = "error") then
    on logger (error (entry_message entry) (entry_context entry))
  else
    on logger (info (entry_message entry) (entry_context entry)).

(** [for (const logger of moduleLoggerCache.values()) logger.flush()] *)
Fixpoint flush_each (names : list string) : M RState exn unit :=
  match names with
  | [] => mret tt
  | k :: rest => on (CachedLogger k) flush;; flush_each rest
  end.

Definition flushAllLoggers : M RState exn unit :=
  d ← gets (λ s, defaultLogger (fst s));
  (match d with
   | Some _ => on DefaultLogger flush
   | None => mret tt
   end);;
  c ← gets (λ s, moduleLoggerCache (fst s));
  flush_each (map fst c).

(** What a client of the module does, at a given reading of the clock:
    an event received over IPC, a call on the default logger
    ([getDefaultLogger().info(...)], [getDefaultLogger().setLevel(...)]
    and the like), or a flush of all. *)
Inductive request :=
| ReqLogEvent (now : string) (entry : LogEntry)
| ReqDefault (c : call)
| ReqSetLevel (lvl : LogLevel)
| ReqFlushAll.

Definition run_request (r : request) : M RState exn unit :=
  match r with
  | ReqLogEvent now entry =>
      modify (λ s, (fst s, set_now now (snd s)));;
      logEvent entry
  | ReqDefault c =>
      logger ← getDefaultLogger;
      on logger (run_call c)
  | ReqSetLevel lvl =>
      logger ← getDefaultLogger;
      on logger (setLevel lvl)
  | ReqFlushAll => flushAllLoggers
  end.

(** A sequence of requests; a request that throws does not stop the
    client. *)
Fixpoint run_requests (rs : list request) (s : RState) : RState :=
  match rs with
  | [] => s
  | r :: rest => run_requests rest (snd (run_request r s))
  end.

End LoggerRegistry.

(** * process-tracker: the global instance *)

Module TrackerSingleton.
Import Eff ProcessTracker.

(** The [ProcessTracker] objects made so far, by reference, and the
    module variable [processTrackerInstance]. *)
Record Singleton := mkSingleton {
  trackers : gmap positive tracked_map;
  processTrackerInstance : option positive
}.

Definition SState : Type := Singleton * World.

(** A method call through a reference to a tracker. *)
Definition on {A} (r : positive) (m : M State ErrnoException A)
  : M SState ErrnoException A :=
  λ s, match trackers (fst s) !! r with
       | Some t =>
           let '(res, (t', w')) := m (t, snd s) in
           (res, (mkSingleton (<[r := t']> (trackers (fst s)))
                    (processTrackerInstance (fst s)), w'))
       | None => (Throw (mkErrno None "Cannot read properties of undefined"), s)
       end.

Definition getProcessTracker : M SState ErrnoException positive :=
  i ← gets (λ s, processTrackerInstance (fst s));
  match i with
  | Some r => mret r
  | None =>
      ts ← gets (λ s, trackers (fst s));
      let r := fresh (dom ts) in
      modify (λ s, (mkSingleton (<[r := []]> ts) (Some r), snd s));;
      mret r
  end.

Definition disposeProcessTracker : M SState ErrnoException unit :=
  i ← gets (λ s, processTrackerInstance (fst s));
  match i with
  | Some r =>
      on r (killAllTrackedProcesses SIGTERM);;
      modify (λ s, (mkSingleton (trackers (fst s)) None, snd s));;
      modify (λ s, (fst s, mkWorld (w_kill (snd s)) (w_now (snd s))
                             (w_trace (snd s) ++ [ConsoleLog "[ProcessTracker] Disposed"])%list))
  | None => mret tt
  end.

End TrackerSingleton.

(** * Vocabulary of the statements *)

Section Vocabulary.
Import JS.

(** Boolean counterpart of [contains]. *)
Fixpoint prefixb (needle hay : string) : bool :=
  match needle, hay with
  | EmptyString, _ => true
  | String a n, String b h => bool_decide (a = b) && prefixb n h
  | String _ _, EmptyString => false
  end.

Fixpoint containsb (needle hay : string) : bool :=
  prefixb needle hay
  || match hay with
     | EmptyString => false
     | String _ h => containsb needle h
     end.

(** The objects not yet entered by the replacer. *)
Definition unseen (h : heap) (seen : gset loc) : nat := size (dom h ∖ seen).

(** Any value but a [BigInt]. *)
Definition bigint_free (v : value) : bool :=
  match v with VBigInt _ => false | _ => true end.

(** The values that the serializer reads from an object: the values of
    its properties, its elements, and for an [Error] the three fields of
    the object that the replacer puts in its place. *)
Definition written_values (o : object) : list value :=
  match o with
  | OPlain props => map snd props
  | OArray elems => elems
  | OError n m s _ => [n; m; s]
  end.

(** [visits h v v']: the serialization of [v] can come to [v'], through
    any number of objects. *)
Inductive visits (h : heap) : value → value → Prop :=
| visits_here v : visits h v v
| visits_step l o v v' :
    h !! l = Some o → v ∈ written_values o → visits h v v' → visits h (VRef l) v'.

(** No [BigInt] is met by the serialization of [v]. *)
Definition bigint_free_under (h : heap) (v : value) : Prop :=
  ∀ v', visits h v v' → bigint_free v' = true.

(** [JSON.stringify] calls the [toJSON] method of a value that has one
    and goes on with what the method returns; [serializeJSONProperty] does
    not.  [toJSON_free h v]: nothing that the serialization of [v] can
    come to has such a method. *)
Definition is_function (v : value) : bool :=
  match v with VFunction _ => true | _ => false end.

Definition has_toJSON (o : object) : bool :=
  match o with
  | OPlain props | OError _ _ _ props =>
      existsb (λ kv, bool_decide (fst kv = "toJSON") && is_function (snd kv)) props
  | OArray _ => false
  end.

Definition no_toJSON (h : heap) (v : value) : bool :=
  match v with
  | VRef l =>
      match h !! l with
      | Some o => negb (has_toJSON o)
      | None => true
      end
  | _ => true
  end.

Definition toJSON_free (h : heap) (v : value) : Prop :=
  ∀ v', visits h v v' → no_toJSON h v' = true.




(** The plain object with the three members that the replacer returns
    for an [Error]. *)
Definition error_fields (n m s : value) : object :=
  OPlain [("name", n); ("message", m); ("stack", s)].

Definition is_error (o : object) : bool :=
  match o with OError _ _ _ _ => true | _ => false end.

(** A property or an element of the object is the object itself. *)
Definition self_referencing (l : loc) (o : object) : Prop :=
  match o with
  | OPlain props => ∃ k, (k, VRef l) ∈ props
  | OArray elems => VRef l ∈ elems
  | OError _ _ _ props => ∃ k, (k, VRef l) ∈ props
  end.

(** The text written for an [Error] whose three fields are strings. *)
Definition error_json (n m st : string) : string :=
  "{" +:+ nl +:+ "  "
  +:+ join ("," +:+ nl +:+ "  ")
        [quote "name" +:+ ": " +:+ quote n;
         quote "message" +:+ ": " +:+ quote m;
         quote "stack" +:+ ": " +:+ quote st]
  +:+ nl +:+ "}".

End Vocabulary.

Section LoggerVocabulary.
Import JS Eff Platform Logger.

(** The [appendFileSync] calls of a trace: path and content, in order. *)
Definition appends (tr : list event) : list (string * string) :=
  omap (λ ev, match ev with AppendFileSync p c => Some (p, c) | _ => None end) tr.

(** The number of rotation checks of a trace. *)
Definition rotation_checks (tr : list event) : nat :=
  length (omap (λ ev, match ev with EnterRotateIfNeeded => Some tt | _ => None end) tr).

(** The calls to the file system in a trace. *)
Definition is_fs_call (ev : event) : bool :=
  match ev with
  | ExistsSync _ | MkdirSync _ | StatSync _ | AppendFileSync _ _
  | RenameSync _ _ | UnlinkSync _ => true
  | Console _ _ | GetPath _ | EnterRotateIfNeeded => false
  end.

(** File logging has been set up: both paths are known. *)
Definition file_logging_ready (l : Logger) (logFile : string) : Prop :=
  path_of (logFilePath l) = Some logFile
  ∧ is_Some (path_of (logsDir l))
  ∧ fileLogging (options l) = true
  ∧ fileLoggingInitialized l = true.

(** Severity passes the threshold of the logger. *)
Definition passes (l : Logger) (lvl : LogLevel) : Prop :=
  level_value (level (options l)) <= level_value lvl.

(** The line written for an entry:
    [prefix + " " + message + optional(" " + serializedContext) + newline];
    undefined when the serialization of the context raises. *)
Definition entry_line (l : Logger) (h : heap) (e : entry) : option string :=
  let '(now, lvl, message, context) := e in
  let prefix := "[" +:+ now +:+ "] [" +:+ LOG_LEVEL_NAMES lvl +:+ "] [" +:+ moduleName l +:+ "]" in
  contextStr ←
    (if truthy context then
       match safeStringify h context 2 with
       | Done (Some s) => Some (" " +:+ s)
       | Done None => Some (" " +:+ "undefined")
       | _ => None
       end
     else Some EmptyString);
  Some (prefix +:+ " " +:+ message +:+ contextStr +:+ nl).


(** The console channel of a severity, and the arguments of the call. *)
Definition channel_of (lvl : LogLevel) : channel :=
  match lvl with
  | DEBUG => ConsoleDebug
  | INFO => ConsoleLog
  | WARN => ConsoleWarn
  | ERROR => ConsoleError
  end.

Definition console_args (prefix message : string) (context : value) : list carg :=
  ([AVal (VString (prefix +:+ " " +:+ message))]
   ++ (if truthy context then [AVal context] else []))%list.

Definition prefix_of (l : Logger) (now : string) (lvl : LogLevel) : string :=
  "[" +:+ now +:+ "] [" +:+ LOG_LEVEL_NAMES lvl +:+ "] [" +:+ moduleName l +:+ "]".

(** The segments of a path, between its separators. *)
Fixpoint segments (p : string) : list string :=
  match p with
  | EmptyString => [EmptyString]
  | String c rest =>
      if bool_decide (c = "/"%char) then EmptyString :: segments rest
      else match segments rest with
           | s :: ss => String c s :: ss
           | [] => [String c EmptyString]
           end
  end.

Definition plain_segment (s : string) : bool :=
  negb (bool_decide (s = EmptyString))
  && negb (bool_decide (s = "."))
  && negb (bool_decide (s = "..")).

(** A directory path that [path.join] extends by a file name without
    rewriting it: not empty, no separator at its end, no empty segment
    after the first, no segment [.] or [..].  On these paths
    [path.join(dir, name)] is [path_join dir name]. *)
Definition normalized (p : string) : bool :=
  match segments p with
  | first :: rest =>
      (plain_segment first
       || (bool_decide (first = EmptyString) && negb (bool_decide (rest = []))))
      && forallb plain_segment rest
  | [] => false
  end.


(** The backup file of index [i] in directory [dir], and the live file. *)
Definition backup (dir : string) (i : Z) : string :=
  path_join dir ("app.log." +:+ pretty i).
Definition live (dir : string) : string := path_join dir "app.log".

(** Events that are neither an append nor a rotation check. *)
Definition silent (ev : event) : bool :=
  match ev with
  | AppendFileSync _ _ | EnterRotateIfNeeded => false
  | _ => true
  end.

(** From [w0] to [w], heap and path service are unchanged and the trace
    grew by events accepted by [ok]. *)
Definition world_grows (ok : event → bool) (w0 w : World) : Prop :=
  w_heap w = w_heap w0
  ∧ w_getPath w = w_getPath w0
  ∧ ∃ evs, w_trace w = (w_trace w0 ++ evs)%list ∧ forallb ok evs = true.

(** The same, with the logger instance unchanged. *)
Definition grows (ok : event → bool) (s0 s : State) : Prop :=
  fst s = fst s0 ∧ world_grows ok (snd s0) (snd s).

Definition any_event (ev : event) : bool := true.

(** From [w0] on, whatever happened to the logger instance. *)
Definition world_grows_in (ok : event → bool) (w0 : World) (s : State) : Prop :=
  world_grows ok w0 (snd s).

(** File logging is switched off for good: nothing is buffered, the
    file system is as it was, and no call to it was made since. *)
Definition file_logging_off (fs0 : gmap string node) (tr0 : list event) (s : State) : Prop :=
  fileLogging (options (fst s)) = false
  ∧ logBuffer (fst s) = []
  ∧ w_fs (snd s) = fs0
  ∧ ∃ evs, w_trace (snd s) = (tr0 ++ evs)%list
           ∧ forallb (λ ev, negb (is_fs_call ev)) evs = true.

(** The path service answers [base] and the file at [target] is [x]. *)
Definition world_keeps (base target : string) (x : option node) (w : World) : Prop :=
  w_getPath w "userData" = inl base ∧ w_fs w !! target = x.

(** The logger keeps [M] backups and knows no other paths than the ones
    under [base]; the world is as in [world_keeps]. *)
Definition keeps (base : string) (M : Z) (target : string) (x : option node) (s : State)
  : Prop :=
  let dir := path_join base "logs" in
  maxBackups (options (fst s)) = M
  ∧ (logsDir (fst s) = None ∨ logsDir (fst s) = Some dir)
  ∧ (logFilePath (fst s) = None ∨ logFilePath (fst s) = Some (live dir))
  ∧ world_keeps base target x (snd s).

End LoggerVocabulary.

Section InvariantVocabulary.
Import Eff.

(** [inv J m φ]: running [m] from a state in [J] ends in a state in [J],
    whether it returns or throws, and a returned value satisfies [φ]. *)
Definition inv {S E A : Type} (J : S → Prop) (m : M S E A) (φ : A → Prop) : Prop :=
  ∀ s, J s → J (snd (m s)) ∧ ∀ a, fst (m s) = Normal a → φ a.

End InvariantVocabulary.

(** * Concrete scenarios *)

Module Scenario.
Import JS.

(** [const context = { key: 'value' }; context.self = context;] *)
Definition cyclic_heap : heap :=
  <[1%positive := OPlain [("key", VString "value"); ("self", VRef 1%positive)]]> ∅.

(** [{ id: 10n }] *)
Definition bigint_heap : heap :=
  <[1%positive := OPlain [("id", VBigInt 10)]]> ∅.

(** [const e = new Error('boom'); e.self = e;] *)
Definition error_self : object :=
  OError (VString "Error") (VString "boom") (VString "Error: boom") [("self", VRef 1%positive)].

Definition error_self_heap : heap := <[1%positive := error_self]> ∅.

Import Eff Platform Logger.

(** A platform whose path service answers [/home/u] and whose log
    directory exists and is empty. *)
Definition ready_world : World :=
  {| w_heap := ∅;
     w_fs := <["/home/u/logs" := Dir]> ∅;
     w_faults := [];
     w_getPath := λ _, inl "/home/u";
     w_now := "2026-01-01T00:00:00.000Z";
     w_trace := [] |}.

(** The same platform where the first fallible call to the file system
    fails (here: the [statSync] of a rotation check). *)
Definition failing_world : World :=
  set_faults [Some (SysError "EACCES" "stat" "/home/u/logs/app.log")] ready_world.

(** A platform that is not ready: the path service throws. *)
Definition not_ready : exn := Thrown (VString "app not ready").

Definition unready_world : World :=
  {| w_heap := ∅;
     w_fs := ∅;
     w_faults := [];
     w_getPath := λ _, inr not_ready;
     w_now := "2026-01-01T00:00:00.000Z";
     w_trace := [] |}.

(** A logger after a successful [initFileLogging]. *)
Definition ready_logger (o : Options) : Logger :=
  {| moduleName := "net";
     options := o;
     logFilePath := Some "/home/u/logs/app.log";
     logsDir := Some "/home/u/logs";
     fileLoggingInitialized := true;
     logWriteCount := 0;
     logBuffer := [] |}.

Definition file_options (interval size backups limit : Z) : Options :=
  {| level := INFO;
     fileLogging := true;
     maxFileSize := limit;
     maxBackups := backups;
     deferInit := false;
     rotationCheckInterval := interval;
     bufferSize := size |}.

(** [{ fileLogging: true, deferInit: true }] *)
Definition deferred_file_options : LoggerOptions :=
  mkLoggerOptions None (Some true) None None (Some true) None None.

(** [{ level: LogLevel.ERROR }] *)
Definition error_level_options : LoggerOptions :=
  mkLoggerOptions (Some ERROR) None None None None None None.

(** A heap holding [new Error('boom')], and a world with it. *)
Definition boom : object :=
  OError (VString "Error") (VString "boom") (VString "Error: boom") [].

Definition boom_world : World := set_heap (<[1%positive := boom]> ∅) ready_world.

(** [const report = { cause: new Error('boom') }; report.self = report;] *)
Definition report_heap : heap :=
  <[1%positive := OPlain [("cause", VRef 2%positive); ("self", VRef 1%positive)]]>
    (<[2%positive := boom]> ∅).

(** A logger that buffers two entries, and two entries to log. *)
Definition buffering_logger : Logger := ready_logger (file_options 100 2 5 1000).


Definition first_line : string := "[2026-01-01T00:00:01.000Z] [INFO] [net] ping" +:+ nl.




(** A log directory with a full live file, the backup of index 1 and a
    file at index 2, for a logger that keeps [maxBackups = 2] (and rotates
    at 10 bytes, checking at every write). *)
Definition full_world : World :=
  set_fs (<["/home/u/logs/app.log" := File "0123456789"]>
          (<["/home/u/logs/app.log.1" := File "older"]>
           (<["/home/u/logs/app.log.2" := File "oldest"]>
            (<["/home/u/logs" := Dir]> ∅)))) ready_world.

Definition two_backups_logger : Logger := ready_logger (file_options 1 0 2 10).

(** [{ fileLogging: true, maxFileSize: 10, maxBackups: 2,
       rotationCheckInterval: 1 }], and five entries logged with it. *)
Definition rotating_options : LoggerOptions :=
  mkLoggerOptions None (Some true) (Some 10) (Some 2) None (Some 1) None.

Definition five_calls : list call :=
  [CallLog "t1" INFO "one" VUndefined; CallLog "t2" INFO "two" VUndefined;
   CallLog "t3" INFO "three" VUndefined; CallLog "t4" INFO "four" VUndefined;
   CallLog "t5" INFO "five" VUndefined].

End Scenario.

Module TrackerScenario.
Import Eff ProcessTracker.

(** A tracker holding three processes, in the order they were tracked. *)
Definition three_tracked : tracked_map :=
  [(101, mkProcessInfo 101 "a" "t0"); (102, mkProcessInfo 102 "b" "t1");
   (103, mkProcessInfo 103 "c" "t2")].

(** Process 102 has already exited: signalling it throws ESRCH. *)
Definition esrch_for_102 : World :=
  mkWorld (λ p _, if bool_decide (p = 102) then Some (mkErrno (Some "ESRCH") "kill ESRCH")
                  else None)
    "t3" [].

(** Every signal is refused. *)
Definition always_fails : World :=
  mkWorld (λ _ _, Some (mkErrno (Some "EPERM") "kill EPERM")) "t3" [].

End TrackerScenario.

(** * Clients of the process tracker *)

Module TrackerClient.
Import Eff ProcessTracker.

(** A call made by a client of a tracker. *)
Inductive op :=
| Track (p : Z) (name : string)
| Untrack (p : Z)
| KillOne (p : Z) (signal : KillSignal)
| KillAll (signal : KillSignal)
| ForceKillAll.

Definition run_op (o : op) : M State ErrnoException unit :=
  match o with
  | Track p nm => trackProcess p nm
  | Untrack p => untrackProcess p
  | KillOne p signal => killProcess p signal;; mret tt
  | KillAll signal => killAllTrackedProcesses signal
  | ForceKillAll => forceKillAll
  end.

Fixpoint run_ops (os : list op) (s : State) : State :=
  match os with
  | [] => s
  | o :: rest => run_ops rest (snd (run_op o s))
  end.

(** The map of a tracker is well formed: keys are pairwise distinct and
    every entry is filed under its own pid. *)
Definition tracker_wf (t : tracked_map) : Prop :=
  NoDup (map fst t) ∧ Forall (λ e, pid (snd e) = fst e) t.

(** A tracker that holds one process, and an operating system that
    accepts every signal. *)
Definition one_tracked : tracked_map := [(7, mkProcessInfo 7 "worker" "t0")].

Definition calm : World := mkWorld (λ _ _, None) "t1" [].

End TrackerClient.

(** * More vocabulary for the logger *)

Section LoggerVocabularyMore.
Import JS Eff Platform Logger.

(** The content of the file at [p]; empty when there is none. *)
Definition file_content (fs : gmap string node) (p : string) : string :=
  match fs !! p with
  | Some (File c) => c
  | _ => EmptyString
  end.

(** The report that a caught error leaves on the error channel. *)
Definition report (what : string) (e : exn) : event :=
  Console ConsoleError [AVal (VString what); AExn e].

(** The number of calls to the path service in a trace. *)
Definition getPath_calls (tr : list event) : nat :=
  length (omap (λ ev, match ev with GetPath name => Some name | _ => None end) tr).

Definition no_getPath (ev : event) : bool :=
  match ev with GetPath _ => false | _ => true end.

(** An operation on the world that does not call the path service. *)
Definition quiet {A} (m : M World exn A) : Prop :=
  ∀ w, getPath_calls (w_trace (snd (m w))) = getPath_calls (w_trace w).

(** Since the trace counted [n] calls to the path service, the logger
    has asked at most once more, and if it has, its file logging is
    either set up or switched off. *)
Definition asked_at_most_once (n : nat) (s : State) : Prop :=
  getPath_calls (w_trace (snd s)) = n
  ∨ (getPath_calls (w_trace (snd s)) = S n
     ∧ (fileLoggingInitialized (fst s) = true ∨ fileLogging (options (fst s)) = false)).

(** A logger named [k] with threshold [lv] that does not buffer. *)
Definition unbuffered (k : string) (lv : LogLevel) (l : Logger) : Prop :=
  moduleName l = k
  ∧ level (options l) = lv
  ∧ bufferSize (options l) = 0
  ∧ logBuffer l = [].

End LoggerVocabularyMore.

(** * Vocabulary for the loggers of the module *)

Section RegistryVocabulary.
Import JS Eff Platform Logger LoggerRegistry.

(** Every logger kept by the module is unbuffered; the cached ones are
    filed under their own name and have the threshold INFO. *)
Definition registry_ok (g : Registry) : Prop :=
  (∀ l, defaultLogger g = Some l → ∃ lv, unbuffered "app" lv l)
  ∧ (∀ k l, cache_get k (moduleLoggerCache g) = Some l → unbuffered k INFO l).

(** [{ level: 'debug', message: 'render tick', module: 'ui' }] and an
    entry without a module. *)
Definition debug_entry : LogEntry :=
  mkLogEntry "debug" "render tick" VUndefined None (Some "ui").

Definition anonymous_entry : LogEntry :=
  mkLogEntry "warn" "slow frame" VUndefined None None.

End RegistryVocabulary.

(** * More vocabulary for the serialization *)

Section SerializationVocabularyMore.
Import JS.

(** The items refer to the object [m] in two places. *)
Definition twice {K} (m : loc) (items : list (K * value)) : Prop :=
  ∃ pre k1 mid k2 post,
    items = (pre ++ (k1, VRef m) :: mid ++ (k2, VRef m) :: post)%list.

(** A plain object or an array that refers to [m] in two of its
    properties or elements. *)
Definition refers_twice (m : loc) (o : object) : Prop :=
  match o with
  | OPlain props => twice m props
  | OArray elems => twice m (map (λ e, (tt, e)) elems)
  | OError _ _ _ _ => False
  end.

End SerializationVocabularyMore.

Module MoreScenarios.
Import JS Eff Platform Logger.

(** [const shared = { x: 1 }; const obj = { a: shared, b: shared };]:
    no cycle, one object referred to twice. *)
Definition shared_heap : heap :=
  <[1%positive := OPlain [("a", VRef 2%positive); ("b", VRef 2%positive)]]>
    (<[2%positive := OPlain [("x", VNumber 1)]]> ∅).

(** A platform whose path service answers [/home/u] and whose file
    system is empty: the log directory does not exist yet. *)
Definition unready_fs_world : World :=
  {| w_heap := ∅;
     w_fs := ∅;
     w_faults := [];
     w_getPath := λ _, inl "/home/u";
     w_now := "2026-01-01T00:00:00.000Z";
     w_trace := [] |}.

(** The same platform once the directory [/home/u] exists. *)
Definition home_world : World :=
  set_fs (<["/home/u" := Dir]> ∅) unready_fs_world.

End MoreScenarios.

(** * Properties of the safe serialization *)

Section StringFacts.

Lemma append_cons (x : ascii) (a b : string) : String x a +:+ b = String x (a +:+ b).
Proof. reflexivity. Qed.

Lemma append_assoc (a b c : string) : (a +:+ b) +:+ c = a +:+ (b +:+ c).
Proof. induction a as [|x a IH]; [done|]. by rewrite !append_cons, IH. Qed.

Lemma append_nil_r (a : string) : a +:+ EmptyString = a.
Proof. induction a as [|x a IH]; [done|]. by rewrite append_cons, IH. Qed.

Lemma contains_here (needle pre post : string) : contains needle (pre +:+ needle +:+ post).
Proof. by exists pre, post. Qed.

Lemma contains_context (needle hay pre post : string) :
  contains needle hay → contains needle (pre +:+ hay +:+ post).
Proof.
  intros (a & b & ->). exists (pre +:+ a), (b +:+ post).
  by rewrite !append_assoc.
Qed.

Lemma contains_prefix (needle hay pre : string) :
  contains needle hay → contains needle (pre +:+ hay).
Proof.
  intros H. rewrite <- (append_nil_r hay). by apply contains_context.
Qed.

Lemma contains_suffix (needle hay post : string) :
  contains needle hay → contains needle (hay +:+ post).
Proof.
  intros H. change (hay +:+ post) with (EmptyString +:+ hay +:+ post).
  by apply contains_context.
Qed.

Lemma contains_join (needle sep part : string) (parts : list string) :
  part ∈ parts → contains needle part → contains needle (join sep parts).
Proof.
  intros Hin Hc. induction parts as [|p rest IH]; [by apply elem_of_nil in Hin|].
  apply elem_of_cons in Hin as [->|Hin].
  - destruct rest; simpl; [done|]. by apply contains_suffix.
  - destruct rest as [|q rest]; [by apply elem_of_nil in Hin|].
    change (join sep (p :: q :: rest)) with (p +:+ sep +:+ join sep (q :: rest)).
    apply contains_prefix, contains_prefix. by apply IH.
Qed.

End StringFacts.

Section SafeStringifyFacts.
Import JS.
Local Open Scope nat_scope.

Lemma outcome_map_snd {A B} (g : A → B) r : snd (outcome_map g r) = snd r.
Proof. done. Qed.

Lemma outcome_map_fuel {A B} (g : A → B) r :
  fst r ≠ OutOfFuel → fst (outcome_map g r) ≠ OutOfFuel.
Proof. destruct r as [[a|e|] s]; simpl; congruence. Qed.

Lemma outcome_map_done {A B} (g : A → B) r a :
  fst r = Done a → fst (outcome_map g r) = Done (g a).
Proof. destruct r as [[a'|e|] s]; simpl; congruence. Qed.

Lemma outcome_map_done_inv {A B} (g : A → B) r b :
  fst (outcome_map g r) = Done b → ∃ a, fst r = Done a ∧ b = g a.
Proof. destruct r as [[a'|e|] s]; simpl; intros; simplify_eq; eauto. Qed.

Lemma replacer_mono h seen v : seen ⊆ snd (replacer h seen v).
Proof.
  unfold replacer. destruct v; simpl; try done.
  destruct (h !! l) as [o|]; [|done].
  destruct (decide (l ∈ seen)); [done|].
  destruct o; simpl; set_solver.
Qed.

Lemma serializeEach_mono {K} f (items : list (K * value)) seen :
  (∀ s v, s ⊆ snd (f s v)) → seen ⊆ snd (serializeEach f seen items).
Proof.
  intros Hf. revert seen. induction items as [|[k v] rest IH]; intros seen; simpl; [done|].
  pose proof (Hf seen v) as H1.
  destruct (f seen v) as [[r|e|] s1]; simpl in *; try done.
  etrans; [exact H1|]. apply IH.
Qed.

Lemma serialize_mono h gap fuel indent stk seen v :
  seen ⊆ snd (serializeJSONProperty h gap fuel indent stk seen v).
Proof.
  revert indent stk seen v. induction fuel as [|fuel IH]; intros; simpl; [done|].
  pose proof (replacer_mono h seen v) as Hr.
  destruct (replacer h seen v) as [r seen1]; simpl in Hr.
  assert (∀ K stk' ind (items : list (K * value)),
            seen ⊆ snd (serializeEach (serializeJSONProperty h gap fuel ind stk') seen1 items))
    as Heach.
  { intros. etrans; [exact Hr|]. apply serializeEach_mono. intros. apply IH. }
  destruct r as [v'|props]; [|apply Heach].
  destruct v' as [| |[]| | | | | | | |l]; simpl; try done.
  destruct (h !! l) as [o|]; [|done].
  destruct (decide (l ∈ stk)); [done|].
  destruct o; apply Heach.
Qed.

Lemma unseen_mono h (s s' : gset loc) : s ⊆ s' → unseen h s' ≤ unseen h s.
Proof. intros Hs. apply subseteq_size. intros x. rewrite !elem_of_difference. intros [? ?]. split; auto. Qed.

Lemma unseen_enter h (s : gset loc) l :
  is_Some (h !! l) → l ∉ s → unseen h ({[l]} ∪ s) < unseen h s.
Proof.
  intros Hl Hs. apply subset_size. apply elem_of_dom in Hl.
  split.
  - intros x. rewrite !elem_of_difference, elem_of_union. intros [? ?]. split; auto.
  - intros Hsub. specialize (Hsub l). rewrite !elem_of_difference, elem_of_union in Hsub.
    destruct Hsub as [_ Hsub]; [done|]. apply Hsub. left. by apply elem_of_singleton.
Qed.

(** What the replacer hands over to the serializer. *)
Lemma replacer_cases h seen v r seen1 :
  replacer h seen v = (r, seen1) →
  (r = RValue v ∧ seen1 = seen ∧ (∀ l, v = VRef l → h !! l = None))
  ∨ (∃ l, v = VRef l ∧ is_Some (h !! l) ∧ l ∈ seen
          ∧ r = RValue (VString "[Circular]") ∧ seen1 = seen)
  ∨ (∃ l o, v = VRef l ∧ h !! l = Some o ∧ (l ∉ seen) ∧ seen1 = {[l]} ∪ seen
            ∧ match o with
              | OError n m s _ => r = RFresh [("name", n); ("message", m); ("stack", s)]
              | _ => r = RValue v
              end).
Proof.
  unfold replacer. intros Hr.
  destruct v; try (left; by simplify_eq).
  destruct (h !! l) as [o|] eqn:Hl.
  - destruct (decide (l ∈ seen)).
    + right; left. exists l. by simplify_eq.
    + right; right. exists l, o. destruct o; by simplify_eq.
  - left. simplify_eq. repeat split; try done. intros ? [= <-]. done.
Qed.

(** *** Termination *)

Lemma serializeEach_fuel {K} f (bound : nat) (items : list (K * value)) h seen :
  (∀ s v, s ⊆ snd (f s v)) →
  (∀ s v, unseen h s < bound → fst (f s v) ≠ OutOfFuel) →
  unseen h seen < bound →
  fst (serializeEach f seen items) ≠ OutOfFuel.
Proof.
  intros Hmono Hf. revert seen.
  induction items as [|[k v] rest IH]; intros seen Hb; simpl; [done|].
  pose proof (Hf seen v Hb) as H1. pose proof (Hmono seen v) as H2.
  destruct (f seen v) as [[r|e|] s1]; simpl in *; try done.
  apply outcome_map_fuel, IH.
  eapply Nat.le_lt_trans; [by apply unseen_mono|done].
Qed.

Lemma serialize_fuel h gap fuel indent stk seen v :
  unseen h seen < fuel →
  fst (serializeJSONProperty h gap fuel indent stk seen v) ≠ OutOfFuel.
Proof.
  revert indent stk seen v. induction fuel as [|fuel IH]; intros indent stk seen v Hb; [lia|].
  simpl.
  destruct (replacer h seen v) as [r seen1] eqn:Hr.
  apply replacer_cases in Hr.
  assert (∀ K stk' ind (items : list (K * value)),
            unseen h seen1 < fuel →
            fst (serializeEach (serializeJSONProperty h gap fuel ind stk') seen1 items)
              ≠ OutOfFuel) as Heach.
  { intros. eapply serializeEach_fuel; [|by intros; apply IH|done].
    intros. apply serialize_mono. }
  destruct Hr as [(-> & -> & Hdang)|[(l & -> & Hl & Hin & -> & ->)|
                  (l & o & -> & Hl & Hnin & -> & Ho)]].
  - destruct v as [| |[]| | | | | | | |l]; simpl; try done.
    by rewrite (Hdang l eq_refl).
  - done.
  - assert (unseen h ({[l]} ∪ seen) < fuel) as Hlt.
    { pose proof (unseen_enter h seen l (mk_is_Some _ _ Hl) Hnin). lia. }
    destruct o; subst r; cbv beta iota zeta; rewrite ?Hl;
      try (destruct (decide (l ∈ stk)); [done|]);
      by apply outcome_map_fuel, Heach.
Qed.

Lemma unseen_empty (h : heap) : unseen h ∅ = size h.
Proof. unfold unseen. rewrite difference_empty_L. apply size_dom. Qed.

Lemma safeStringify_terminates h obj indent : safeStringify h obj indent ≠ OutOfFuel.
Proof.
  unfold safeStringify. apply serialize_fuel. rewrite unseen_empty. lia.
Qed.

(** *** The result does not depend on the fuel *)

Lemma outcome_map_fuel_inv {A B} (g : A → B) r :
  fst (outcome_map g r) ≠ OutOfFuel → fst r ≠ OutOfFuel.
Proof. destruct r as [[a|e|] s]; simpl; congruence. Qed.

Lemma serializeEach_ext {K} f f' (items : list (K * value)) seen :
  (∀ s v, fst (f s v) ≠ OutOfFuel → f' s v = f s v) →
  fst (serializeEach f seen items) ≠ OutOfFuel →
  serializeEach f' seen items = serializeEach f seen items.
Proof.
  intros Hext. revert seen.
  induction items as [|[k v] rest IH]; intros seen Hrun; [done|].
  cbn [serializeEach] in *.
  destruct (f seen v) as [[r|e|] s1] eqn:Hf.
  - rewrite Hext by (rewrite Hf; done). rewrite Hf.
    apply outcome_map_fuel_inv in Hrun. by rewrite IH.
  - rewrite Hext by (rewrite Hf; done). by rewrite Hf.
  - done.
Qed.

Lemma serialize_more_fuel h gap fuel indent stk seen v :
  fst (serializeJSONProperty h gap fuel indent stk seen v) ≠ OutOfFuel →
  serializeJSONProperty h gap (S fuel) indent stk seen v
  = serializeJSONProperty h gap fuel indent stk seen v.
Proof.
  revert indent stk seen v. induction fuel as [|fuel IH]; intros indent stk seen v Hrun;
    [done|].
  revert Hrun.
  set (more := serializeJSONProperty h gap (S (S fuel))).
  cbn [serializeJSONProperty].
  subst more. remember (S fuel) as n eqn:Hn. cbn [serializeJSONProperty]. subst n.
  destruct (replacer h seen v) as [r seen1].
  assert (∀ K stk' ind (items : list (K * value)) B (g : _ → B),
            fst (outcome_map g (serializeEach (serializeJSONProperty h gap fuel ind stk')
                                  seen1 items)) ≠ OutOfFuel →
            serializeEach (serializeJSONProperty h gap (S fuel) ind stk') seen1 items
            = serializeEach (serializeJSONProperty h gap fuel ind stk') seen1 items) as Heach.
  { intros K stk' ind items B g Hrun%outcome_map_fuel_inv.
    apply serializeEach_ext; [|done]. intros. by apply IH. }
  destruct r as [v'|props]; cbv beta iota zeta.
  - destruct v' as [| |[]| | | | | | | |l]; try done.
    destruct (h !! l) as [o|]; [|done].
    destruct (decide (l ∈ stk)); [done|].
    destruct o; intros Hrun; erewrite Heach; done.
  - intros Hrun. erewrite Heach; done.
Qed.

Lemma serialize_any_fuel h gap fuel extra indent stk seen v :
  unseen h seen < fuel →
  serializeJSONProperty h gap (fuel + extra) indent stk seen v
  = serializeJSONProperty h gap fuel indent stk seen v.
Proof.
  intros Hb. induction extra as [|extra IH]; [by rewrite Nat.add_0_r|].
  rewrite Nat.add_succ_r, serialize_more_fuel; [done|].
  rewrite IH. by apply serialize_fuel.
Qed.

(** *** What the serialization comes to *)

Lemma visits_stored h v v' :
  visits h v v' → v' = v ∨ ∃ l o, h !! l = Some o ∧ v' ∈ written_values o.
Proof.
  induction 1 as [v|l o v v' Hl Hin Hv IH]; [by left|].
  right. destruct IH as [->|IH]; [by exists l, o|done].
Qed.


(** A heap in which no stored value has a [toJSON] method. *)
Lemma toJSON_free_stored h v :
  no_toJSON h v = true →
  map_Forall (λ _ o, forallb (no_toJSON h) (written_values o) = true) h →
  toJSON_free h v.
Proof.
  intros Hv Hh v' [->|(l & o & Hl & Hin)]%visits_stored; [done|].
  specialize (Hh l o Hl). simpl in Hh. rewrite forallb_forall in Hh.
  apply Hh. by apply list_elem_of_In.
Qed.

Lemma bigint_free_stored h v :
  bigint_free v = true →
  map_Forall (λ _ o, forallb bigint_free (written_values o) = true) h →
  bigint_free_under h v.
Proof.
  intros Hv Hh v' [->|(l & o & Hl & Hin)]%visits_stored; [done|].
  specialize (Hh l o Hl). simpl in Hh. rewrite forallb_forall in Hh.
  apply Hh. by apply list_elem_of_In.
Qed.



(** *** No exception without a BigInt *)

Lemma serializeEach_done {K} f (Inv : gset loc → Prop) (P : value → Prop)
    (items : list (K * value)) seen :
  (∀ s v, Inv s → P v → (∃ r, fst (f s v) = Done r) ∧ Inv (snd (f s v))) →
  Forall P (map snd items) →
  Inv seen →
  ∃ rs, fst (serializeEach f seen items) = Done rs.
Proof.
  intros Hf. revert seen.
  induction items as [|[k v] rest IH]; intros seen Hvs Hinv; simpl; [by eexists|].
  simpl in Hvs. apply Forall_cons in Hvs as [Hv Hvs].
  destruct (Hf seen v Hinv Hv) as [[r Hr] Hinv'].
  destruct (f seen v) as [[r'|e|] s1]; simpl in *; try done.
  destruct (IH s1 Hvs Hinv') as [rs Hrs].
  eexists. by apply outcome_map_done.
Qed.

Lemma bigint_free_under_written h l o :
  h !! l = Some o → bigint_free_under h (VRef l) →
  Forall (bigint_free_under h) (written_values o).
Proof.
  intros Hl Hfree. apply Forall_forall. intros v Hin v' Hv.
  apply Hfree. by apply visits_step with (o := o) (v := v).
Qed.

Lemma serialize_done h gap fuel indent stk seen v :
  bigint_free_under h v →
  (∀ l, l ∈ stk → l ∈ seen) →
  unseen h seen < fuel →
  ∃ r, fst (serializeJSONProperty h gap fuel indent stk seen v) = Done r.
Proof.
  revert indent stk seen v.
  induction fuel as [|fuel IH]; intros indent stk seen v Hv Hstk Hb; [lia|].
  simpl.
  destruct (replacer h seen v) as [r seen1] eqn:Hr.
  apply replacer_cases in Hr.
  assert (∀ K stk' ind (items : list (K * value)),
            Forall (bigint_free_under h) (map snd items) →
            (∀ l, l ∈ stk' → l ∈ seen1) →
            unseen h seen1 < fuel →
            ∃ rs, fst (serializeEach (serializeJSONProperty h gap fuel ind stk') seen1 items)
                  = Done rs) as Heach.
  { intros K stk' ind items Hitems Hstk' Hlt.
    apply (serializeEach_done _ (λ s, (∀ l, l ∈ stk' → l ∈ s) ∧ unseen h s < fuel)
             (bigint_free_under h)); [|done|done].
    intros s v0 [Hs1 Hs2] Hv0.
    pose proof (serialize_mono h gap fuel ind stk' s v0) as Hm.
    split; [by apply IH|]. split.
    - intros l Hl. apply Hm, Hs1, Hl.
    - eapply Nat.le_lt_trans; [by apply unseen_mono|done]. }
  pose proof (Hv v (visits_here h v)) as Hv0.
  destruct Hr as [(-> & -> & Hdang)|[(l & -> & Hl & Hin & -> & ->)|
                  (l & o & -> & Hl & Hnin & -> & Ho)]].
  - destruct v as [| |[]| | | | | | | |l]; simpl; try (by simpl in Hv0); try by eexists.
    rewrite (Hdang l eq_refl). by eexists.
  - by eexists.
  - assert (unseen h ({[l]} ∪ seen) < fuel) as Hlt.
    { pose proof (unseen_enter h seen l (mk_is_Some _ _ Hl) Hnin). lia. }
    assert (l ∉ stk) as Hnstk by (intros Hc; by apply Hnin, Hstk).
    pose proof (bigint_free_under_written h l o Hl Hv) as Hvals.
    assert (∀ l', l' ∈ l :: stk → l' ∈ ({[l]} ∪ seen : gset loc)) as Hstk'.
    { intros l' [->|Hl']%elem_of_cons; [set_solver|]. apply elem_of_union_r, Hstk, Hl'. }
    destruct o as [props|elems|n m s props]; subst r; cbv beta iota zeta; rewrite ?Hl.
    + destruct (decide (l ∈ stk)); [done|].
      destruct (Heach _ (l :: stk) (indent +:+ gap) props Hvals Hstk' Hlt) as [rs Hrs].
      eexists. by apply outcome_map_done.
    + destruct (decide (l ∈ stk)); [done|].
      destruct (Heach _ (l :: stk) (indent +:+ gap) (map (λ e, (tt, e)) elems)) as [rs Hrs];
        [|done|done|].
      { rewrite map_map. simpl. by rewrite map_id. }
      eexists. by apply outcome_map_done.
    + destruct (Heach _ stk (indent +:+ gap) [("name", n); ("message", m); ("stack", s)])
        as [rs Hrs]; [exact Hvals|set_solver|done|].
      eexists. by apply outcome_map_done.
Qed.


(** *** The only exception is the one for a BigInt *)

Lemma outcome_map_raise_inv {A B} (g : A → B) r e :
  fst (outcome_map g r) = Raise e → fst r = Raise e.
Proof. destruct r as [[a|e'|] s]; simpl; congruence. Qed.

Lemma serializeEach_raise {K} f (Inv : gset loc → Prop) (items : list (K * value)) seen e0 e :
  (∀ s v, Inv s → Inv (snd (f s v))) →
  (∀ s v e', Inv s → fst (f s v) = Raise e' → e' = e0) →
  Inv seen →
  fst (serializeEach f seen items) = Raise e → e = e0.
Proof.
  intros Hinv Hraise. revert seen.
  induction items as [|[k v] rest IH]; intros seen Hs; simpl; [done|].
  pose proof (Hinv seen v Hs) as Hs1. pose proof (Hraise seen v) as Hr.
  destruct (f seen v) as [[r|e'|] s1]; simpl in *.
  - intros He%outcome_map_raise_inv. by apply (IH s1).
  - intros [= <-]. by apply Hr.
  - done.
Qed.

(** The serializer's own cycle check never fires under the replacer of
    [safeStringify]. *)
Lemma serialize_raise h gap fuel indent stk seen v e :
  (∀ l, l ∈ stk → l ∈ seen) →
  fst (serializeJSONProperty h gap fuel indent stk seen v) = Raise e →
  e = bigint.
Proof.
  revert indent stk seen v e.
  induction fuel as [|fuel IH]; intros indent stk seen v e Hstk; [done|].
  simpl.
  destruct (replacer h seen v) as [r seen1] eqn:Hr.
  apply replacer_cases in Hr.
  assert (∀ K stk' ind (items : list (K * value)),
            (∀ l, l ∈ stk' → l ∈ seen1) →
            fst (serializeEach (serializeJSONProperty h gap fuel ind stk') seen1 items)
            = Raise e → e = bigint) as Heach.
  { intros K stk' ind items Hstk'.
    apply (serializeEach_raise _ (λ s, ∀ l, l ∈ stk' → l ∈ s)); [| |done].
    - intros s v0 Hs l Hl. by apply serialize_mono, Hs.
    - intros s v0 e' Hs. by apply IH. }
  destruct Hr as [(-> & -> & Hdang)|[(l & -> & Hl & Hin & -> & ->)|
                  (l & o & -> & Hl & Hnin & -> & Ho)]].
  - destruct v as [| |[]| | | | | | | |l]; simpl; try done.
    + by intros [= <-].
    + by rewrite (Hdang l eq_refl).
  - done.
  - assert (l ∉ stk) as Hnstk by (intros Hc; by apply Hnin, Hstk).
    assert (∀ l', l' ∈ l :: stk → l' ∈ ({[l]} ∪ seen : gset loc)) as Hstk'.
    { intros l' [->|Hl']%elem_of_cons; [set_solver|]. apply elem_of_union_r, Hstk, Hl'. }
    destruct o as [props|elems|n m s props]; subst r; cbv beta iota zeta; rewrite ?Hl.
    + destruct (decide (l ∈ stk)); [done|].
      intros He%outcome_map_raise_inv. by eapply Heach.
    + destruct (decide (l ∈ stk)); [done|].
      intros He%outcome_map_raise_inv. by eapply Heach.
    + intros He%outcome_map_raise_inv. eapply (Heach _ stk); [|done].
      intros l' Hl'. apply elem_of_union_r, Hstk, Hl'.
Qed.

Lemma safeStringify_outcome h v indent :
  (∃ r, safeStringify h v indent = Done r) ∨ safeStringify h v indent = Raise bigint.
Proof.
  pose proof (safeStringify_terminates h v indent) as Hterm.
  destruct (safeStringify h v indent) as [r|e|] eqn:Hrun; [left; by exists r| |done].
  right. f_equal. unfold safeStringify in Hrun.
  eapply serialize_raise; [|exact Hrun]. intros l Hl. by apply elem_of_nil in Hl.
Qed.

(** *** An [Error] is written as the plain object of its three fields *)

Lemma serializeEach_agree {K} f f' (Inv : gset loc → Prop) (items : list (K * value)) seen :
  (∀ s v, Inv s → f' s v = f s v ∧ Inv (snd (f s v))) →
  Inv seen →
  serializeEach f' seen items = serializeEach f seen items.
Proof.
  intros Hf. revert seen.
  induction items as [|[k v] rest IH]; intros seen Hinv; [done|].
  cbn [serializeEach]. destruct (Hf seen v Hinv) as [-> Hinv'].
  destruct (f seen v) as [[r|e|] s1]; [|done..].
  cbn [snd] in Hinv'. by rewrite IH.
Qed.

Lemma serialize_error_as_plain h E n m s props gap fuel indent stk stk' seen v :
  h !! E = Some (OError n m s props) →
  (∀ l, l ∈ stk → l ∈ seen) →
  (∀ l, l ∈ stk' → l ∈ seen) →
  serializeJSONProperty (<[E := error_fields n m s]> h) gap fuel indent stk' seen v
  = serializeJSONProperty h gap fuel indent stk seen v.
Proof.
  intros HE. revert indent stk stk' seen v.
  induction fuel as [|fuel IH]; intros indent stk stk' seen v Hstk Hstk'; [done|].
  assert (∀ K st st' ind seen1 (items : list (K * value)),
            (∀ l, l ∈ st → l ∈ seen1) → (∀ l, l ∈ st' → l ∈ seen1) →
            serializeEach (serializeJSONProperty (<[E := error_fields n m s]> h) gap fuel ind st')
              seen1 items
            = serializeEach (serializeJSONProperty h gap fuel ind st) seen1 items) as Heach.
  { intros K st st' ind seen1 items Hst Hst'.
    apply (serializeEach_agree _ _ (λ x, (∀ l, l ∈ st → l ∈ x) ∧ (∀ l, l ∈ st' → l ∈ x)));
      [|done].
    intros x v0 [Hx Hx']. split; [by apply IH|].
    pose proof (serialize_mono h gap fuel ind st x v0) as Hm.
    split; intros l Hl; apply Hm; auto. }
  assert (∀ l st, (∀ l', l' ∈ st → l' ∈ seen) → l ∉ seen →
            ∀ l', l' ∈ l :: st → l' ∈ ({[l]} ∪ seen : gset loc)) as Hpush.
  { intros l st Hst _ l' [->|Hl']%elem_of_cons; [set_solver|].
    apply elem_of_union_r, Hst, Hl'. }
  assert (∀ (l : loc) (st : list loc), (∀ l', l' ∈ st → l' ∈ seen) →
            ∀ l', l' ∈ st → l' ∈ ({[l]} ∪ seen : gset loc)) as Hkeep.
  { intros l st Hst l' Hl'. apply elem_of_union_r, Hst, Hl'. }
  destruct v as [| |b| | | | | | | |l]; try reflexivity.
  cbn [serializeJSONProperty replacer].
  destruct (decide (l = E)) as [->|Hne].
  - rewrite lookup_insert_eq, HE.
    destruct (decide (E ∈ seen)) as [Hin|Hnin]; [reflexivity|].
    unfold error_fields. cbv beta iota zeta. rewrite lookup_insert_eq.
    destruct (decide (E ∈ stk')) as [Hc|_]; [by destruct (Hnin (Hstk' E Hc))|].
    f_equal. apply Heach; [by apply Hkeep|by apply Hpush].
  - rewrite lookup_insert_ne by done.
    destruct (h !! l) as [o|] eqn:Hl; [|cbv beta iota zeta; by rewrite lookup_insert_ne, Hl].
    destruct (decide (l ∈ seen)) as [Hin|Hnin]; [reflexivity|].
    destruct o as [ps|elems|n0 m0 s0 ps]; cbv beta iota zeta;
      rewrite ?lookup_insert_ne, ?Hl by done.
    + destruct (decide (l ∈ stk)) as [Hc|_]; [by destruct (Hnin (Hstk l Hc))|].
      destruct (decide (l ∈ stk')) as [Hc|_]; [by destruct (Hnin (Hstk' l Hc))|].
      f_equal. apply Heach; by apply Hpush.
    + destruct (decide (l ∈ stk)) as [Hc|_]; [by destruct (Hnin (Hstk l Hc))|].
      destruct (decide (l ∈ stk')) as [Hc|_]; [by destruct (Hnin (Hstk' l Hc))|].
      f_equal. apply Heach; by apply Hpush.
    + f_equal. apply Heach; by apply Hkeep.
Qed.

Lemma safeStringify_error_as_plain h E n m s props v indent :
  h !! E = Some (OError n m s props) →
  safeStringify (<[E := error_fields n m s]> h) v indent = safeStringify h v indent.
Proof.
  intros HE. unfold safeStringify.
  rewrite map_size_insert_Some by done.
  rewrite (serialize_error_as_plain h E n m s props _ _ _ [] []);
    [done|exact HE|by intros ? ?%elem_of_nil..].
Qed.

(** *** The placeholder and the expansion of errors *)

Lemma serialize_seen_ref h gap fuel indent stk seen l :
  is_Some (h !! l) → l ∈ seen →
  serializeJSONProperty h gap (S fuel) indent stk seen (VRef l)
  = (Done (Some (quote "[Circular]")), seen).
Proof.
  intros [o Hl] Hin. simpl. rewrite Hl. by destruct (decide (l ∈ seen)).
Qed.

Lemma serializeEach_circular {K} h gap fuel indent stk l (k : K) items seen rs :
  is_Some (h !! l) → l ∈ seen → (k, VRef l) ∈ items →
  fst (serializeEach (serializeJSONProperty h gap (S fuel) indent stk) seen items) = Done rs →
  (k, Some (quote "[Circular]")) ∈ rs.
Proof.
  intros Hl. revert seen rs.
  induction items as [|[k0 v0] rest IH]; intros seen rs Hseen Hin Hrun;
    [by apply elem_of_nil in Hin|].
  cbn [serializeEach] in Hrun.
  pose proof (serialize_mono h gap (S fuel) indent stk seen v0) as Hmono.
  apply elem_of_cons in Hin as [[= <- <-]|Hin].
  - rewrite serialize_seen_ref in Hrun by done.
    apply outcome_map_done_inv in Hrun as (rs0 & _ & ->). apply elem_of_cons. by left.
  - destruct (serializeJSONProperty h gap (S fuel) indent stk seen v0) as [[r|e|] s1];
      try done.
    apply outcome_map_done_inv in Hrun as (rs0 & Hrs0 & ->).
    apply elem_of_cons. right. apply (IH s1); [by apply Hmono|done|done].
Qed.

Lemma quote_circular : contains "[Circular]" (quote "[Circular]").
Proof. by exists (String dquote EmptyString), (String dquote EmptyString). Qed.

Lemma members_circular gap k (rs : list (string * option string)) :
  (k, Some (quote "[Circular]")) ∈ rs →
  ∃ part, part ∈ members gap rs ∧ contains "[Circular]" part.
Proof.
  induction rs as [|[k0 [s0|]] rest IH]; intros Hin; [by apply elem_of_nil in Hin|..].
  - apply elem_of_cons in Hin as [[= <- <-]|Hin].
    + eexists. split; [apply elem_of_cons; by left|].
      apply contains_prefix, contains_prefix, quote_circular.
    + destruct (IH Hin) as (part & Hp & Hc). exists part. split; [|done].
      apply elem_of_cons. by right.
  - apply elem_of_cons in Hin as [[=]|Hin]. by apply IH.
Qed.

Lemma elements_circular (rs : list (unit * option string)) :
  (tt, Some (quote "[Circular]")) ∈ rs →
  ∃ part, part ∈ elements rs ∧ contains "[Circular]" part.
Proof.
  intros Hin. exists (quote "[Circular]"). split; [|apply quote_circular].
  unfold elements. apply list_elem_of_fmap. by exists (tt, Some (quote "[Circular]")).
Qed.

Lemma wrap_contains gap opening closing stepback indent needle part parts :
  part ∈ parts → contains needle part →
  contains needle (wrap gap opening closing stepback indent parts).
Proof.
  intros Hin Hc. unfold wrap.
  destruct parts as [|p ps]; [by apply elem_of_nil in Hin|].
  destruct (bool_decide (gap = EmptyString)).
  - apply contains_prefix, contains_suffix. by eapply contains_join.
  - do 3 apply contains_prefix. apply contains_suffix. by eapply contains_join.
Qed.

Lemma safeStringify_object h l o indent :
  h !! l = Some o →
  ∃ fuel, size h = S fuel
    ∧ safeStringify h (VRef l) indent
      = fst (serializeJSONProperty h (gap_of indent) (S (S fuel)) EmptyString [] ∅ (VRef l)).
Proof.
  intros Hl. destruct (size h) as [|fuel] eqn:Hsz.
  - apply map_size_empty_inv in Hsz. subst h. by rewrite lookup_empty in Hl.
  - exists fuel. split; [done|]. unfold safeStringify. by rewrite Hsz.
Qed.

Lemma safeStringify_placeholder h l o indent s :
  h !! l = Some o → is_error o = false → self_referencing l o →
  safeStringify h (VRef l) indent = Done (Some s) →
  contains "[Circular]" s.
Proof.
  intros Hl Hne Hself Hrun.
  destruct (safeStringify_object h l o indent Hl) as (fuel & _ & Heq).
  rewrite Heq in Hrun. clear Heq. revert Hself Hrun.
  cbn [serializeJSONProperty replacer]. rewrite Hl.
  destruct (decide (l ∈ (∅ : gset loc))) as [Hin|_]; [by apply not_elem_of_empty in Hin|].
  assert (l ∈ ({[l]} ∪ ∅ : gset loc)) as Hseen
    by (apply elem_of_union; left; by apply elem_of_singleton).
  intros Hself Hrun. revert Hrun. 
  destruct o as [props|elems|n m st props]; [| |done]; cbv beta iota zeta; rewrite Hl;
    (destruct (decide (l ∈ [])) as [Hin|_]; [by apply elem_of_nil in Hin|]);
    intros (rs & Hrs & [= ->])%outcome_map_done_inv.
  - destruct Hself as [k Hk].
    eapply serializeEach_circular in Hrs; [|by eexists|done|done].
    apply members_circular with (gap := gap_of indent) in Hrs as (part & Hp & Hc).
    by eapply wrap_contains.
  - eapply (serializeEach_circular _ _ _ _ _ l tt) in Hrs; [|by eexists|done|].
    + apply elements_circular in Hrs as (part & Hp & Hc). by eapply wrap_contains.
    + apply list_elem_of_fmap. by exists (VRef l).
Qed.

Lemma safeStringify_object_done h l o indent :
  h !! l = Some o → bigint_free_under h (VRef l) →
  ∃ s, safeStringify h (VRef l) indent = Done (Some s).
Proof.
  intros Hl Hfree.
  destruct (safeStringify_object h l o indent Hl) as (fuel & Hsz & Heq).
  destruct (serialize_done h (gap_of indent) (S (S fuel)) EmptyString [] ∅ (VRef l))
    as [r Hr]; [done|by intros ? ?%elem_of_nil|rewrite unseen_empty; lia|].
  rewrite Heq, Hr. revert Hr.
  cbn [serializeJSONProperty replacer]. rewrite Hl.
  destruct (decide (l ∈ (∅ : gset loc))) as [Hin|_]; [by apply not_elem_of_empty in Hin|].
  destruct o; cbv beta iota zeta; rewrite ?Hl;
    try (destruct (decide (l ∈ [])) as [Hin|_]; [by apply elem_of_nil in Hin|]);
    intros (rs & Hrs & ->)%outcome_map_done_inv; by eexists.
Qed.

Lemma safeStringify_error h l n m st props :
  h !! l = Some (OError (VString n) (VString m) (VString st) props) →
  safeStringify h (VRef l) 2 = Done (Some (error_json n m st)).
Proof.
  intros Hl.
  destruct (safeStringify_object h l _ 2 Hl) as (fuel & Hsz & Heq).
  rewrite Heq. cbn [serializeJSONProperty replacer]. rewrite Hl.
  destruct (decide (l ∈ (∅ : gset loc))) as [Hin|_]; [by apply not_elem_of_empty in Hin|].
  cbv beta iota zeta.
  reflexivity.
Qed.

End SafeStringifyFacts.

Section SafeStringifyClaims.
Import JS Scenario.

Lemma prefixb_here (needle post : string) : prefixb needle (needle +:+ post) = true.
Proof.
  induction needle as [|a n IH]; [done|].
  rewrite append_cons. simpl. by rewrite bool_decide_eq_true_2, IH.
Qed.

Lemma containsb_prefix (needle hay : string) :
  prefixb needle hay = true → containsb needle hay = true.
Proof. intros H. destruct hay; simpl; by rewrite H. Qed.

Lemma containsb_complete (needle hay : string) : contains needle hay → containsb needle hay = true.
Proof.
  intros (pre & post & ->). induction pre as [|a pre IH].
  - change (EmptyString +:+ needle +:+ post) with (needle +:+ post).
    apply containsb_prefix, prefixb_here.
  - rewrite append_cons. simpl. rewrite IH. apply orb_true_r.
Qed.

(** C7, counterexample.  Serializing [{ id: 10n }] raises the TypeError of
    [JSON.stringify]; and an [Error] that refers to itself is written
    without any placeholder. *)
Lemma safeStringify_raises_on_bigint :
  safeStringify bigint_heap (VRef 1%positive) 2
    = Raise (TypeError "Do not know how to serialize a BigInt")
  ∧ (self_referencing 1%positive error_self
     ∧ ∃ s, safeStringify error_self_heap (VRef 1%positive) 2 = Done (Some s)
            ∧ ¬ contains "[Circular]" s).
Proof.
  split; [by vm_compute|]. split.
  - exists "self". apply elem_of_cons. by left.
  - eexists. split; [by vm_compute|].
    intros Hc%containsb_complete. by vm_compute in Hc.
Qed.

(** C7, as amended.  For an object in whose graph, cyclic or not, no
    object has a [toJSON] method: the serialization terminates (the fuel of the definition is never
    exhausted, and more fuel gives the same result); it returns or it
    throws the TypeError for a BigInt, and no other error; it returns a
    text when it meets no BigInt; when it completes on a plain object or
    an array that refers to itself, the text contains the placeholder
    [[Circular]]; an [Error] anywhere in the graph is written as the plain
    object of its name, message and stack would be; and an [Error] whose
    three fields are strings is written as the object with exactly these
    three members. *)
Theorem safeStringify_amended (h : heap) (l : loc) (o : object) (indent : nat) :
  h !! l = Some o →
  toJSON_free h (VRef l) →
  (safeStringify h (VRef l) indent ≠ OutOfFuel
   ∧ ∀ extra, fst (serializeJSONProperty h (gap_of indent) (S (size h) + extra)
                     EmptyString [] ∅ (VRef l))
              = safeStringify h (VRef l) indent)
  ∧ ((∃ r, safeStringify h (VRef l) indent = Done r)
     ∨ safeStringify h (VRef l) indent
       = Raise (TypeError "Do not know how to serialize a BigInt"))
  ∧ (bigint_free_under h (VRef l) → ∃ s, safeStringify h (VRef l) indent = Done (Some s))
  ∧ (∀ s, is_error o = false → self_referencing l o →
          safeStringify h (VRef l) indent = Done (Some s) → contains "[Circular]" s)
  ∧ (∀ E n m st props, h !! E = Some (OError n m st props) →
          safeStringify (<[E := error_fields n m st]> h) (VRef l) indent
          = safeStringify h (VRef l) indent)
  ∧ (∀ n m st props, o = OError (VString n) (VString m) (VString st) props →
          safeStringify h (VRef l) 2 = Done (Some (error_json n m st))).
Proof.
  intros Hl _. split.
  { split; [apply safeStringify_terminates|].
    intros extra. unfold safeStringify. rewrite serialize_any_fuel; [done|].
    rewrite unseen_empty. lia. }
  split; [apply safeStringify_outcome|].
  split; [by apply safeStringify_object_done with (o := o)|].
  split; [|split].
  - intros s Hne Hself Hrun. by eapply safeStringify_placeholder.
  - intros E n m st props HE. by eapply safeStringify_error_as_plain.
  - intros n m st props ->. by eapply safeStringify_error.
Qed.

Lemma safeStringify_amended_witness :
  safeStringify report_heap (VRef 1%positive) 2 ≠ OutOfFuel
  ∧ (∃ s, safeStringify report_heap (VRef 1%positive) 2 = Done (Some s)
          ∧ contains "[Circular]" s
          ∧ safeStringify
              (<[2%positive := error_fields (VString "Error") (VString "boom")
                                 (VString "Error: boom")]> report_heap)
              (VRef 1%positive) 2
            = Done (Some s)).
Proof.
  destruct (safeStringify_amended report_heap 1%positive
              (OPlain [("cause", VRef 2%positive); ("self", VRef 1%positive)]) 2 eq_refl)
    as ((Hterm & _) & _ & Hdone & Hplace & Hplain & _).
  { apply toJSON_free_stored; [reflexivity|].
    apply map_Forall_insert_2; [reflexivity|].
    apply map_Forall_insert_2; [reflexivity|apply map_Forall_empty]. }
  split; [exact Hterm|].
  destruct Hdone as [s Hs].
  { apply bigint_free_stored; [reflexivity|].
    apply map_Forall_insert_2; [reflexivity|].
    apply map_Forall_insert_2; [reflexivity|apply map_Forall_empty]. }
  exists s. split; [exact Hs|]. split.
  - apply Hplace; [reflexivity| |exact Hs].
    exists "self". apply elem_of_cons. right. apply elem_of_cons. by left.
  - rewrite <- Hs. apply (Hplain 2%positive _ _ _ []). reflexivity.
Defined.

End SafeStringifyClaims.

(** * Invariant reasoning for effectful code *)

Section Invariants.
Import Eff.
Context {S E : Type}.

Lemma inv_weaken {A} J (m : M S E A) (φ ψ : A → Prop) :
  inv J m φ → (∀ a, φ a → ψ a) → inv J m ψ.
Proof. intros H Himp s Hs. destruct (H s Hs). split; auto. Qed.

Lemma inv_ret {A} J (a : A) (φ : A → Prop) : φ a → inv J (mret a : M S E A) φ.
Proof. intros Ha s Hs. split; [done|]. by intros ? [= <-]. Qed.

Lemma inv_throw {A} J (e : E) (φ : A → Prop) : inv J (throw e : M S E A) φ.
Proof. intros s Hs. split; [done|]. by intros ? [=]. Qed.

Lemma inv_bind {A B} J (m : M S E A) (f : A → M S E B) φ ψ :
  inv J m φ → (∀ a, φ a → inv J (f a) ψ) → inv J (m ≫= f) ψ.
Proof.
  intros Hm Hf s Hs. unfold mbind, M_bind, bind.
  destruct (Hm s Hs) as [HJ Hφ]. destruct (m s) as [[a|e] s']; simpl in *.
  - apply (Hf a); auto.
  - split; [done|]. by intros ? [=].
Qed.

Lemma inv_try_catch {A} J (body : M S E A) (handler : E → M S E A) φ :
  inv J body φ → (∀ e, inv J (handler e) φ) → inv J (try_catch body handler) φ.
Proof.
  intros Hb Hh s Hs. unfold try_catch.
  destruct (Hb s Hs) as [HJ Hφ]. destruct (body s) as [[a|e] s']; simpl in *.
  - split; [done|]. intros ? [= <-]. by apply Hφ.
  - by apply Hh.
Qed.

Lemma inv_gets {A} J (f : S → A) : inv J (gets f : M S E A) (λ a, ∃ s, J s ∧ a = f s).
Proof. intros s Hs. split; [done|]. intros ? [= <-]. eauto. Qed.

Lemma inv_modify J (f : S → S) :
  (∀ s, J s → J (f s)) → inv J (modify f : M S E unit) (λ _, True).
Proof. intros Hf s Hs. split; [by apply Hf|done]. Qed.

Lemma inv_bind_gets {A B} J (f : S → A) (k : A → M S E B) ψ :
  (∀ s, J s → inv J (k (f s)) ψ) → inv J (gets f ≫= k) ψ.
Proof.
  intros Hk. eapply inv_bind; [apply inv_gets|].
  intros a (s & Hs & ->). by apply Hk.
Qed.

Lemma inv_bind_any {A B} J (m : M S E A) (f : A → M S E B) ψ :
  inv J m (λ _, True) → (∀ a, inv J (f a) ψ) → inv J (m ≫= f) ψ.
Proof. intros Hm Hf. eapply inv_bind; [exact Hm|]. intros a _. apply Hf. Qed.

Lemma inv_true {A} J (m : M S E A) φ : inv J m φ → inv J m (λ _, True).
Proof. intros H. eapply inv_weaken; [exact H|done]. Qed.

(** A [try]/[catch] whose handler returns always returns. *)
Lemma try_catch_returns (body : M S E ()) (handler : E → M S E ()) s :
  (∀ e s1, fst (handler e s1) = Normal tt) →
  fst (try_catch body handler s) = Normal tt.
Proof.
  intros Hh. unfold try_catch. destruct (body s) as [[[]|e] s']; [done|]. apply Hh.
Qed.

(** Equations for running a computation step by step. *)
Lemma run_bind {A B} (m : M S E A) (f : A → M S E B) s :
  (m ≫= f) s = match m s with
               | (Normal a, s') => f a s'
               | (Throw e, s') => (Throw e, s')
               end.
Proof. reflexivity. Qed.

Lemma run_try_catch {A} (body : M S E A) (handler : E → M S E A) s :
  try_catch body handler s = match body s with
                             | (Normal a, s') => (Normal a, s')
                             | (Throw e, s') => handler e s'
                             end.
Proof. reflexivity. Qed.

Lemma run_gets {A} (f : S → A) s : (gets f : M S E A) s = (Normal (f s), s).
Proof. reflexivity. Qed.

Lemma run_modify (f : S → S) s : (modify f : M S E ()) s = (Normal tt, f s).
Proof. reflexivity. Qed.

Lemma run_ret {A} (a : A) s : (mret a : M S E A) s = (Normal a, s).
Proof. reflexivity. Qed.

Lemma run_throw {A} (e : E) s : (throw e : M S E A) s = (Throw e, s).
Proof. reflexivity. Qed.

End Invariants.

Section InvariantsLift.
Import Eff.

Lemma inv_lift {S1 S2 E A} (J : S1 * S2 → Prop) (m : M S2 E A) φ :
  (∀ l, inv (λ w, J (l, w)) m φ) → inv J (lift m) φ.
Proof.
  intros H [l w] Hs. unfold lift. simpl.
  specialize (H l w Hs). by destruct (m w) as [r w'].
Qed.

End InvariantsLift.

(** * Properties of the logger *)

Import JS Eff Platform Logger.

(** *** Projections of an updated world *)

Create Rewrite HintDb world.

Lemma w_heap_set_heap x w : w_heap (set_heap x w) = x.
Proof. reflexivity. Qed.

Lemma w_fs_set_heap x w : w_fs (set_heap x w) = w_fs w.
Proof. reflexivity. Qed.

Lemma w_faults_set_heap x w : w_faults (set_heap x w) = w_faults w.
Proof. reflexivity. Qed.

Lemma w_getPath_set_heap x w : w_getPath (set_heap x w) = w_getPath w.
Proof. reflexivity. Qed.

Lemma w_now_set_heap x w : w_now (set_heap x w) = w_now w.
Proof. reflexivity. Qed.

Lemma w_trace_set_heap x w : w_trace (set_heap x w) = w_trace w.
Proof. reflexivity. Qed.

Lemma w_heap_set_fs x w : w_heap (set_fs x w) = w_heap w.
Proof. reflexivity. Qed.

Lemma w_fs_set_fs x w : w_fs (set_fs x w) = x.
Proof. reflexivity. Qed.

Lemma w_faults_set_fs x w : w_faults (set_fs x w) = w_faults w.
Proof. reflexivity. Qed.

Lemma w_getPath_set_fs x w : w_getPath (set_fs x w) = w_getPath w.
Proof. reflexivity. Qed.

Lemma w_now_set_fs x w : w_now (set_fs x w) = w_now w.
Proof. reflexivity. Qed.

Lemma w_trace_set_fs x w : w_trace (set_fs x w) = w_trace w.
Proof. reflexivity. Qed.

Lemma w_heap_set_faults x w : w_heap (set_faults x w) = w_heap w.
Proof. reflexivity. Qed.

Lemma w_fs_set_faults x w : w_fs (set_faults x w) = w_fs w.
Proof. reflexivity. Qed.

Lemma w_faults_set_faults x w : w_faults (set_faults x w) = x.
Proof. reflexivity. Qed.

Lemma w_getPath_set_faults x w : w_getPath (set_faults x w) = w_getPath w.
Proof. reflexivity. Qed.

Lemma w_now_set_faults x w : w_now (set_faults x w) = w_now w.
Proof. reflexivity. Qed.

Lemma w_trace_set_faults x w : w_trace (set_faults x w) = w_trace w.
Proof. reflexivity. Qed.

Lemma w_heap_set_now x w : w_heap (set_now x w) = w_heap w.
Proof. reflexivity. Qed.

Lemma w_fs_set_now x w : w_fs (set_now x w) = w_fs w.
Proof. reflexivity. Qed.

Lemma w_faults_set_now x w : w_faults (set_now x w) = w_faults w.
Proof. reflexivity. Qed.

Lemma w_getPath_set_now x w : w_getPath (set_now x w) = w_getPath w.
Proof. reflexivity. Qed.

Lemma w_now_set_now x w : w_now (set_now x w) = x.
Proof. reflexivity. Qed.

Lemma w_trace_set_now x w : w_trace (set_now x w) = w_trace w.
Proof. reflexivity. Qed.

Lemma w_heap_set_trace x w : w_heap (set_trace x w) = w_heap w.
Proof. reflexivity. Qed.

Lemma w_fs_set_trace x w : w_fs (set_trace x w) = w_fs w.
Proof. reflexivity. Qed.

Lemma w_faults_set_trace x w : w_faults (set_trace x w) = w_faults w.
Proof. reflexivity. Qed.

Lemma w_getPath_set_trace x w : w_getPath (set_trace x w) = w_getPath w.
Proof. reflexivity. Qed.

Lemma w_now_set_trace x w : w_now (set_trace x w) = w_now w.
Proof. reflexivity. Qed.

Lemma w_trace_set_trace x w : w_trace (set_trace x w) = x.
Proof. reflexivity. Qed.

#[global] Hint Rewrite w_heap_set_heap w_fs_set_heap w_faults_set_heap w_getPath_set_heap w_now_set_heap w_trace_set_heap w_heap_set_fs w_fs_set_fs w_faults_set_fs w_getPath_set_fs w_now_set_fs w_trace_set_fs w_heap_set_faults w_fs_set_faults w_faults_set_faults : world.
#[global] Hint Rewrite w_getPath_set_faults w_now_set_faults w_trace_set_faults w_heap_set_now w_fs_set_now w_faults_set_now w_getPath_set_now w_now_set_now w_trace_set_now w_heap_set_trace w_fs_set_trace w_faults_set_trace w_getPath_set_trace w_now_set_trace w_trace_set_trace : world.

Ltac inv_step :=
  lazymatch goal with
  | |- inv _ (gets _ ≫= _) _ => apply inv_bind_gets; intros ? ?
  | |- inv _ (_ ≫= _) _ => apply inv_bind_any; [|intros ?]
  | |- inv _ (mret _) _ => by apply inv_ret
  | |- inv _ (throw _) _ => apply inv_throw
  | |- inv _ (try_catch _ _) _ => apply inv_try_catch; [|intros ?]
  | |- inv _ (lift _) _ => apply inv_lift; intros ?
  | |- inv _ (match ?x with _ => _ end) _ => destruct x eqn:?
  end.

Lemma omap_snoc_appends tr ev :
  appends (tr ++ [ev])
  = (appends tr ++ match ev with AppendFileSync p c => [(p, c)] | _ => [] end)%list.
Proof. unfold appends. rewrite omap_app. by destruct ev. Qed.

Lemma appends_app tr1 tr2 : appends (tr1 ++ tr2) = (appends tr1 ++ appends tr2)%list.
Proof. apply omap_app. Qed.

Lemma rotation_checks_app tr1 tr2 :
  rotation_checks (tr1 ++ tr2) = (rotation_checks tr1 + rotation_checks tr2)%nat.
Proof. unfold rotation_checks. by rewrite omap_app, length_app. Qed.

Lemma silent_appends evs : forallb silent evs = true → appends evs = [].
Proof.
  induction evs as [|ev evs IH]; [done|]. simpl. intros [Hev Hevs]%andb_prop.
  unfold appends in *. simpl. destruct ev; try done; by apply IH.
Qed.

Lemma silent_checks evs : forallb silent evs = true → rotation_checks evs = 0%nat.
Proof.
  induction evs as [|ev evs IH]; [done|]. simpl. intros [Hev Hevs]%andb_prop.
  unfold rotation_checks in *. simpl. destruct ev; try done; by apply IH.
Qed.

(** *** The world only grows *)

Lemma world_grows_refl ok w : world_grows ok w w.
Proof. repeat split. exists []. by rewrite app_nil_r. Qed.

Lemma world_grows_emit ok w0 w ev :
  ok ev = true → world_grows ok w0 w → world_grows ok w0 (set_trace (w_trace w ++ [ev]) w).
Proof.
  intros Hev (Hh & Hg & evs & Htr & Hok). repeat split; [done..|].
  exists (evs ++ [ev])%list. simpl. rewrite Htr, <- app_assoc. split; [done|].
  rewrite forallb_app, Hok. simpl. by rewrite Hev.
Qed.

Lemma world_grows_faults ok w0 w fl : world_grows ok w0 w → world_grows ok w0 (set_faults fl w).
Proof. done. Qed.

Lemma world_grows_fs ok w0 w fs : world_grows ok w0 w → world_grows ok w0 (set_fs fs w).
Proof. done. Qed.

Lemma world_grows_now ok w0 w t : world_grows ok w0 w → world_grows ok w0 (set_now t w).
Proof. done. Qed.

Section WorldGrows.
Variable ok : event → bool.
Variable w0 : World.

Lemma inv_emit ev : ok ev = true → inv (world_grows ok w0) (emit ev) (λ _, True).
Proof. intros Hev. apply inv_modify. intros w. by apply world_grows_emit. Qed.

Lemma inv_fault : inv (world_grows ok w0) fault (λ _, True).
Proof.
  intros w Hw. unfold fault. destruct (w_faults w) as [|[e|] rest]; simpl; by split.
Qed.

Lemma inv_set_fs fs : inv (world_grows ok w0) (modify (set_fs fs) : M World exn ()) (λ _, True).
Proof. apply inv_modify. intros w. apply world_grows_fs. Qed.

Local Ltac fs_op Hev :=
  intros Hev; repeat first
    [ apply inv_emit; exact Hev | apply inv_fault | apply inv_set_fs | inv_step ].

Lemma inv_existsSync p : ok (ExistsSync p) = true → inv (world_grows ok w0) (existsSync p) (λ _, True).
Proof. unfold existsSync. fs_op Hev. Qed.

Lemma inv_mkdirSync p : ok (MkdirSync p) = true → inv (world_grows ok w0) (mkdirSync p) (λ _, True).
Proof. unfold mkdirSync. fs_op Hev. Qed.

Lemma inv_statSync p : ok (StatSync p) = true → inv (world_grows ok w0) (statSync p) (λ _, True).
Proof. unfold statSync. fs_op Hev. Qed.

Lemma inv_appendFileSync p c :
  ok (AppendFileSync p c) = true → inv (world_grows ok w0) (appendFileSync p c) (λ _, True).
Proof. unfold appendFileSync. fs_op Hev. Qed.

Lemma inv_renameSync a b :
  ok (RenameSync a b) = true → inv (world_grows ok w0) (renameSync a b) (λ _, True).
Proof. unfold renameSync. fs_op Hev. Qed.

Lemma inv_unlinkSync p : ok (UnlinkSync p) = true → inv (world_grows ok w0) (unlinkSync p) (λ _, True).
Proof. unfold unlinkSync. fs_op Hev. Qed.

Lemma inv_console ch args :
  ok (Console ch args) = true → inv (world_grows ok w0) (console ch args) (λ _, True).
Proof. unfold console. fs_op Hev. Qed.

Lemma inv_getPath name :
  ok (GetPath name) = true → inv (world_grows ok w0) (getPath name) (λ _, True).
Proof. unfold getPath. fs_op Hev. Qed.

End WorldGrows.

Lemma inv_lift_grows {A} ok s0 (m : M World exn A) φ :
  inv (world_grows ok (snd s0)) m φ → inv (grows ok s0) (lift m) φ.
Proof.
  intros H [l w] [Hl Hw]. unfold lift. simpl in *.
  specialize (H w Hw). destruct (m w) as [r w']. simpl in *.
  destruct H as [H1 H2]. split; [by split|done].
Qed.

Lemma grows_refl ok s : grows ok s s.
Proof. split; [done|apply world_grows_refl]. Qed.

Ltac grows_step :=
  first
    [ apply inv_lift_grows;
      first [ by apply inv_existsSync | by apply inv_statSync | by apply inv_renameSync
            | by apply inv_unlinkSync | by apply inv_mkdirSync | by apply inv_console
            | by apply inv_getPath | by apply inv_appendFileSync ]
    | inv_step ].

(** *** Rotation: effects on the trace *)

Lemma rotateBackups_grows dir backups n s0 :
  inv (grows silent s0) (rotateBackups dir backups n) (λ _, True).
Proof.
  induction n as [|n IH]; [by apply inv_ret|].
  cbn [rotateBackups]. repeat grows_step. exact IH.
Qed.

(** A rotation check never throws, leaves the instance and the heap
    alone, and its trace is the entry mark followed by calls that are
    neither appends nor checks. *)
Lemma rotateIfNeeded_spec (l : Logger) (w : World) :
  ∃ w', rotateIfNeeded (l, w) = (Normal tt, (l, w'))
        ∧ w_heap w' = w_heap w
        ∧ w_getPath w' = w_getPath w
        ∧ ∃ evs, w_trace w' = (w_trace w ++ EnterRotateIfNeeded :: evs)%list
                 ∧ forallb silent evs = true.
Proof.
  unfold rotateIfNeeded.
  set (w1 := set_trace (w_trace w ++ [EnterRotateIfNeeded]) w).
  match goal with |- context [_ ;; ?rest] => set (body := rest) end.
  assert (inv (grows silent (l, w1)) body (λ _, True)) as Hinv.
  { unfold body, this. repeat grows_step. apply rotateBackups_grows. }
  assert (fst (body (l, w1)) = Normal tt) as Hret.
  { unfold body, this. unfold mbind at 1 2, M_bind, bind, gets. cbn [fst snd].
    destruct (path_of (logFilePath l)); [|done].
    destruct (path_of (logsDir l)); [|done].
    apply try_catch_returns. intros e s1. done. }
  destruct (Hinv (l, w1) (grows_refl _ _)) as [[Hl (Hh & Hg & evs & Htr & Hok)] _].
  unfold mbind at 1, M_bind, bind, lift, emit, modify. cbn [fst snd]. fold w1.
  destruct (body (l, w1)) as [r [l' w']]. cbn [fst snd] in *. subst r l'.
  exists w'. split; [done|]. split; [done|]. split; [done|].
  exists evs. split; [|done]. rewrite Htr. unfold w1. cbn [w_trace set_trace].
  by rewrite <- app_assoc.
Qed.

(** *** Disk writes *)

Ltac run :=
  unfold this, update;
  repeat first
    [ rewrite run_bind | rewrite run_try_catch | rewrite run_gets | rewrite run_modify
    | rewrite run_ret | rewrite run_throw ];
  cbn [fst snd compose
       logWriteCount options logFilePath logsDir logBuffer moduleName fileLoggingInitialized
       set_logWriteCount set_logBuffer set_options set_logFilePath set_logsDir
       set_fileLoggingInitialized];
  autorewrite with world.

Lemma appendFileSync_spec (l : Logger) (w : World) (p c : string) :
  ∃ r w', lift (appendFileSync p c) (l, w) = (r, (l, w'))
          ∧ w_heap w' = w_heap w
          ∧ w_getPath w' = w_getPath w
          ∧ w_trace w' = (w_trace w ++ [AppendFileSync p c])%list.
Proof.
  unfold appendFileSync, emit, fault, lift, mbind, M_bind, bind, gets, modify, throw. simpl.
  destruct (w_faults w) as [|[e|] rest]; simpl;
    try (destruct (w_fs w !! p) as [[]|]; simpl);
    do 2 eexists; (split; [reflexivity|]); done.
Qed.

Lemma console_run (l : Logger) (w : World) ch args :
  lift (console ch args) (l, w)
  = (Normal tt, (l, set_trace (w_trace w ++ [Console ch args]) w)).
Proof. reflexivity. Qed.

(** One disk write: never throws, counts itself, runs the rotation check
    when the counter reaches the interval and then resets the counter,
    and calls [appendFileSync] exactly once. *)
Lemma writeToFile_spec (l : Logger) (w : World) (content logFile : string) :
  path_of (logFilePath l) = Some logFile →
  is_Some (path_of (logsDir l)) →
  let due := rotationCheckInterval (options l) <=? logWriteCount l + 1 in
  ∃ w', writeToFile content (l, w)
        = (Normal tt, (set_logWriteCount (if due then 0 else logWriteCount l + 1) l, w'))
        ∧ w_heap w' = w_heap w
        ∧ w_getPath w' = w_getPath w
        ∧ appends (w_trace w') = (appends (w_trace w) ++ [(logFile, content)])%list
        ∧ rotation_checks (w_trace w')
          = (rotation_checks (w_trace w) + if due then 1 else 0)%nat.
Proof.
  intros Hp [dir Hd] due. unfold writeToFile. run. rewrite Hp, Hd. run.
  fold due. destruct due; run.
  - destruct (rotateIfNeeded_spec (set_logWriteCount (logWriteCount l + 1) l) w)
      as (w1 & Hrot & Hh1 & Hg1 & evs & Htr1 & Hsil).
    rewrite Hrot. run.
    match goal with |- context [lift (appendFileSync ?p ?c) (?l', w1)] =>
      destruct (appendFileSync_spec l' w1 p c) as (r & w2 & Happ & Hh2 & Hg2 & Htr2) end.
    rewrite Happ.
    assert (appends (w_trace w2) = (appends (w_trace w) ++ [(logFile, content)])%list) as Ha.
    { rewrite Htr2, Htr1.
      change (EnterRotateIfNeeded :: evs) with ([EnterRotateIfNeeded] ++ evs)%list.
      rewrite !appends_app, (silent_appends evs Hsil). cbn. by rewrite !app_nil_r. }
    assert (rotation_checks (w_trace w2) = (rotation_checks (w_trace w) + 1)%nat) as Hc.
    { rewrite Htr2, Htr1, !rotation_checks_app.
      change (EnterRotateIfNeeded :: evs) with ([EnterRotateIfNeeded] ++ evs)%list.
      rewrite rotation_checks_app, (silent_checks evs Hsil). cbn. lia. }
    destruct r as [[]|e]; run.
    + exists w2. split; [done|]. split; [congruence|]. split; [congruence|]. by split.
    + rewrite console_run. eexists. split; [reflexivity|].
      cbn [w_heap w_getPath w_trace set_trace].
      split; [congruence|]. split; [congruence|]. split.
      * by rewrite appends_app, Ha, app_nil_r.
      * rewrite rotation_checks_app, Hc. cbn. lia.
  - match goal with |- context [lift (appendFileSync ?p ?c) (?l', w)] =>
      destruct (appendFileSync_spec l' w p c) as (r & w2 & Happ & Hh2 & Hg2 & Htr2) end.
    rewrite Happ.
    assert (appends (w_trace w2) = (appends (w_trace w) ++ [(logFile, content)])%list) as Ha.
    { by rewrite Htr2, !appends_app. }
    assert (rotation_checks (w_trace w2) = rotation_checks (w_trace w)) as Hc.
    { rewrite Htr2, !rotation_checks_app. cbn. lia. }
    destruct r as [[]|e]; run.
    + exists w2. split; [done|]. split; [congruence|]. split; [congruence|].
      split; [done|lia].
    + rewrite console_run. eexists. split; [reflexivity|].
      cbn [w_heap w_getPath w_trace set_trace].
      split; [congruence|]. split; [congruence|]. split.
      * by rewrite appends_app, Ha, app_nil_r.
      * rewrite rotation_checks_app, Hc. cbn. lia.
Qed.

(** *** Rotation sampling *)

Lemma write_all_counts (cs : list string) (l : Logger) (w : World) (logFile : string) :
  path_of (logFilePath l) = Some logFile →
  is_Some (path_of (logsDir l)) →
  let R := rotationCheckInterval (options l) in
  let c := logWriteCount l in
  let n := Z.of_nat (length cs) in
  1 ≤ R → 0 ≤ c < R →
  fst (write_all cs (l, w)) = set_logWriteCount ((c + n) `mod` R) l
  ∧ rotation_checks (w_trace (snd (write_all cs (l, w))))
    = (rotation_checks (w_trace w) + Z.to_nat ((c + n) `div` R))%nat.
Proof.
  revert l w. induction cs as [|content cs IH]; intros l w Hp Hd R c n HR Hc.
  - subst n. cbn [write_all length fst snd]. rewrite Z.add_0_r.
    rewrite Z.mod_small, Z.div_small by lia. split; [by destruct l|]. cbn. lia.
  - cbn [write_all].
    destruct (writeToFile_spec l w content logFile Hp Hd) as (w1 & Hrun & _ & _ & _ & Hchk).
    rewrite Hrun. cbn [snd]. fold R c in Hchk |- *.
    set (c1 := if R <=? c + 1 then 0 else c + 1) in *.
    specialize (IH (set_logWriteCount c1 l) w1 Hp Hd HR).
    cbn [logWriteCount set_logWriteCount] in IH.
    assert (0 ≤ c1 < R) as Hc1 by (unfold c1; destruct (Z.leb_spec R (c + 1)); lia).
    destruct (IH Hc1) as [IHl IHc]. clear IH.
    change (rotationCheckInterval (options (set_logWriteCount c1 l))) with R in IHl, IHc.
    assert (n = 1 + Z.of_nat (length cs)) as Hn by (subst n; cbn [length]; lia).
    rewrite IHl, IHc, Hchk. fold R.
    unfold c1. destruct (Z.leb_spec R (c + 1)) as [Hdue|Hnot].
    + assert (c + n = Z.of_nat (length cs) + 1 * R) as -> by lia.
      rewrite Z_div_plus_full, Z_mod_plus_full by lia.
      rewrite Z.add_0_l. split; [done|].
      assert (0 ≤ Z.of_nat (length cs) `div` R) by (apply Z.div_pos; lia).
      rewrite Z2Nat.inj_add by lia. change (Z.to_nat 1) with 1%nat. lia.
    + assert (c + 1 + Z.of_nat (length cs) = c + n) as -> by lia.
      split; [done|]. lia.
Qed.

(** *** Buffering *)

Lemma consoleLog_run (l : Logger) (w : World) lvl prefix message context :
  consoleLog lvl prefix message context (l, w)
  = (Normal tt,
     (l, set_trace (w_trace w ++ [Console (channel_of lvl)
                                    (console_args prefix message context)]) w)).
Proof. by destruct lvl. Qed.

Lemma flushBuffer_empty (l : Logger) (w : World) :
  logBuffer l = [] → flushBuffer (l, w) = (Normal tt, (l, w)).
Proof. intros Hb. unfold flushBuffer. run. by rewrite Hb. Qed.


(** The core routine on a logger whose file logging is set up, for an
    entry that passes the threshold and whose line is defined. *)
Lemma log_at_ready (l : Logger) (w : World) (logFile : string)
    (now : string) (lvl : LogLevel) (message : string) (context : value) (line : string) :
  file_logging_ready l logFile →
  passes l lvl →
  entry_line l (w_heap w) (now, lvl, message, context) = Some line →
  let console_call :=
    Console (channel_of lvl) (console_args (prefix_of l now lvl) message context) in
  let w1 := set_trace (w_trace w ++ [console_call]) (set_now now w) in
  let N := bufferSize (options l) in
  let buf := (logBuffer l ++ [line])%list in
  log_at now lvl message context (l, w)
  = if 0 <? N then
      if N <=? Z.of_nat (length buf) then flushBuffer (set_logBuffer buf l, w1)
      else (Normal tt, (set_logBuffer buf l, w1))
    else writeToFile line (l, w1).
Proof.
  intros (Hp & [dir Hd] & Hen & Hinit) Hpass Hline console_call w1 N buf.
  unfold log_at, log. run.
  replace (level_value lvl <? level_value (level (options l))) with false
    by (symmetry; apply Z.ltb_ge; exact Hpass).
  unfold formatTimestamp, lift at 1. run. cbn [w_now set_now].
  rewrite consoleLog_run. run. rewrite Hen.
  unfold ensureFileLoggingInitialized. run. rewrite Hen, Hinit. cbn [andb negb]. run.
  rewrite Hp. unfold fileLog. run. rewrite Hp, Hd.
  fold (prefix_of l now lvl).
  unfold entry_line in Hline. fold (prefix_of l now lvl) in Hline.
  unfold safeStringifyText. subst N buf w1 console_call.
  destruct (truthy context); run;
    [destruct (safeStringify (w_heap w) context 2) as [[s|]|e|]|];
    simplify_eq/=; run;
    (destruct (0 <? bufferSize (options l)); run; [|reflexivity]);
    match goal with |- context [?a <=? ?b] => destruct (a <=? b) end; reflexivity.
Qed.











(** *** The core routine only adds to the trace and leaves the heap alone *)

Lemma inv_lift_grows_in {A} ok w0 (m : M World exn A) φ :
  inv (world_grows ok w0) m φ → inv (world_grows_in ok w0) (lift m : M State exn A) φ.
Proof.
  intros H [l w] Hw. unfold lift, world_grows_in in *. cbn [fst snd] in *.
  specialize (H w Hw). by destruct (m w) as [r w'].
Qed.

Lemma inv_update_grows_in ok w0 f : inv (world_grows_in ok w0) (update f) (λ _, True).
Proof. apply inv_modify. by intros [l w]. Qed.

Ltac grows_in_step :=
  first
    [ apply inv_update_grows_in
    | apply inv_lift_grows_in;
      first [ by apply inv_existsSync | by apply inv_statSync | by apply inv_renameSync
            | by apply inv_unlinkSync | by apply inv_mkdirSync | by apply inv_console
            | by apply inv_getPath | by apply inv_appendFileSync | by apply inv_emit
            | by apply inv_gets ]
    | inv_step ].

Section TraceGrows.
Variable w0 : World.
Local Abbreviation J := (world_grows_in any_event w0).

Lemma rotateBackups_grows_in dir backups n : inv J (rotateBackups dir backups n) (λ _, True).
Proof.
  induction n as [|n IH]; [by apply inv_ret|].
  cbn [rotateBackups]. repeat grows_in_step. exact IH.
Qed.

Lemma rotateIfNeeded_grows_in : inv J rotateIfNeeded (λ _, True).
Proof.
  unfold rotateIfNeeded, this. repeat grows_in_step. apply rotateBackups_grows_in.
Qed.

Lemma writeToFile_grows_in content : inv J (writeToFile content) (λ _, True).
Proof.
  unfold writeToFile, this. repeat grows_in_step. apply rotateIfNeeded_grows_in.
Qed.

Lemma flushBuffer_grows_in : inv J flushBuffer (λ _, True).
Proof.
  unfold flushBuffer, this. repeat grows_in_step. apply writeToFile_grows_in.
Qed.

Lemma safeStringifyText_grows_in context : inv J (safeStringifyText context) (λ _, True).
Proof. unfold safeStringifyText. repeat grows_in_step. Qed.

Lemma fileLog_grows_in prefix message context : inv J (fileLog prefix message context) (λ _, True).
Proof.
  unfold fileLog, this. repeat grows_in_step;
    first [ apply safeStringifyText_grows_in | apply flushBuffer_grows_in
          | apply writeToFile_grows_in ].
Qed.

Lemma initFileLogging_grows_in : inv J initFileLogging (λ _, True).
Proof. unfold initFileLogging, this. repeat grows_in_step. Qed.

Lemma log_tail_grows_in prefix message context :
  inv J (enabled ← this (fileLogging ∘ options);
         if enabled : bool then
           ensureFileLoggingInitialized;;
           p ← this logFilePath;
           match path_of p with
           | Some _ => fileLog prefix message context
           | None => mret tt
           end
         else mret tt) (λ _, True).
Proof.
  unfold ensureFileLoggingInitialized, this. repeat grows_in_step;
    first [ apply initFileLogging_grows_in | apply fileLog_grows_in ].
Qed.

End TraceGrows.

(** *** A logger whose file logging is off *)

Section FileLoggingOff.
Variable fs0 : gmap string node.
Variable tr0 : list event.
Local Abbreviation J := (file_logging_off fs0 tr0).

Lemma off_emit (l : Logger) (w : World) (ev : event) :
  is_fs_call ev = false → J (l, w) → J (l, set_trace (w_trace w ++ [ev]) w).
Proof.
  intros Hev (H1 & H2 & H3 & evs & Htr & Hok). cbn [fst snd] in *.
  split; [done|]. split; [done|]. split; [done|].
  exists (evs ++ [ev])%list. cbn [snd]. autorewrite with world.
  rewrite Htr, <- app_assoc. split; [done|].
  rewrite forallb_app, Hok. cbn. by rewrite Hev.
Qed.

Lemma log_off lvl message context : inv J (log lvl message context) (λ _, True).
Proof.
  unfold log, this, compose. apply inv_bind_gets. intros s0 _.
  destruct (level_value lvl <? level_value (level (options s0.1))); [by apply inv_ret|].
  apply inv_bind_any.
  { intros [l w] Hs. by split. }
  intros timestamp. apply inv_bind_gets. intros s1 _.
  apply inv_bind_any.
  { intros [l w] Hs. rewrite consoleLog_run. split; [|done]. by apply off_emit. }
  intros _. apply inv_bind_gets. intros s2 (Hoff & _). rewrite Hoff. by apply inv_ret.
Qed.

Lemma alloc_off o : inv J (lift (alloc o)) (λ _, True).
Proof. intros [l w] Hs. by split. Qed.

Lemma method_off lvl message context : inv J (method lvl message context) (λ _, True).
Proof.
  destruct lvl; try apply log_off.
  unfold method, error. apply inv_bind_gets. intros s0 _.
  apply inv_bind_any; [|intros ?; apply log_off].
  destruct context; try by apply inv_ret.
  destruct (w_heap s0.2 !! l) as [[]|]; try by apply inv_ret.
  apply inv_bind_any; [apply alloc_off|]. intros inner.
  apply inv_bind_any; [apply alloc_off|]. intros outer. by apply inv_ret.
Qed.

Lemma flush_off : inv J flush (λ _, True).
Proof.
  unfold flush, flushBuffer, this. apply inv_bind_gets. intros s0 (_ & Hbuf & _).
  rewrite Hbuf. by apply inv_ret.
Qed.

Lemma run_call_off c : inv J (run_call c) (λ _, True).
Proof.
  destruct c as [now lvl message context|]; [|apply flush_off].
  cbn [run_call]. apply inv_bind_any; [|intros _; apply method_off].
  apply inv_modify. by intros [l w].
Qed.

Lemma run_calls_off cs s : J s → J (run_calls cs s).
Proof.
  revert s. induction cs as [|c cs IH]; intros s Hs; [done|].
  cbn [run_calls]. apply IH. by apply run_call_off.
Qed.

End FileLoggingOff.

Lemma file_logging_off_here (l : Logger) (w : World) :
  fileLogging (options l) = false → logBuffer l = [] →
  file_logging_off (w_fs w) (w_trace w) (l, w).
Proof. intros H1 H2. repeat split; [done..|]. exists []. by rewrite app_nil_r. Qed.

Lemma no_fs_call_appends evs :
  forallb (λ ev, negb (is_fs_call ev)) evs = true → appends evs = [].
Proof.
  induction evs as [|ev evs IH]; [done|]. cbn [forallb]. intros [Hev Hevs]%andb_prop.
  unfold appends in *. cbn [omap]. destruct ev; try done; by apply IH.
Qed.

Lemma getPath_throws (l : Logger) (w : World) (name : string) (e : exn) :
  w_getPath w name = inr e →
  lift (getPath name) (l, w) = (Throw e, (l, set_trace (w_trace w ++ [GetPath name]) w)).
Proof.
  intros H. unfold lift, getPath, emit. cbn [snd fst].
  rewrite run_bind, run_modify, run_bind, run_gets. autorewrite with world. by rewrite H.
Qed.

Lemma getPath_returns (l : Logger) (w : World) (name base : string) :
  w_getPath w name = inl base →
  lift (getPath name) (l, w) = (Normal base, (l, set_trace (w_trace w ++ [GetPath name]) w)).
Proof.
  intros H. unfold lift, getPath, emit. cbn [snd fst].
  rewrite run_bind, run_modify, run_bind, run_gets. autorewrite with world. by rewrite H.
Qed.

Lemma alloc_run (l : Logger) (w : World) (o : object) :
  lift (alloc o) (l, w)
  = (Normal (fresh (dom (w_heap w))),
     (l, set_heap (<[fresh (dom (w_heap w)) := o]> (w_heap w)) w)).
Proof. reflexivity. Qed.

Lemma passes_ERROR (l : Logger) : passes l ERROR.
Proof. unfold passes. by destruct (level (options l)). Qed.

(** An entry that passes the threshold is first written to the console
    channel of its severity; the rest of the call only adds to the trace
    and does not touch the heap. *)
Lemma log_console (l : Logger) (w : World) lvl message context :
  passes l lvl →
  ∃ r l' w', log lvl message context (l, w) = (r, (l', w'))
    ∧ w_heap w' = w_heap w
    ∧ ∃ evs, w_trace w'
             = (w_trace w
                ++ Console (channel_of lvl)
                     (console_args (prefix_of l (w_now w) lvl) message context) :: evs)%list.
Proof.
  intros Hpass. unfold log. run.
  replace (level_value lvl <? level_value (level (options l))) with false
    by (symmetry; apply Z.ltb_ge; exact Hpass).
  unfold formatTimestamp, lift at 1. run.
  rewrite consoleLog_run. fold (prefix_of l (w_now w) lvl).
  match goal with |- context [(l, set_trace ?tr w)] => set (w1 := set_trace tr w) end.
  pose proof (log_tail_grows_in w1 (prefix_of l (w_now w) lvl) message context (l, w1)
                (world_grows_refl _ _)) as [(Hh & _ & evs & Htr & _) _].
  unfold this, compose in Hh, Htr.
  match type of Hh with w_heap (snd (snd ?res)) = _ => destruct res as [r [l2 w2]] end.
  cbn [fst snd] in *. exists r, l2, w2. split; [done|]. split.
  - rewrite Hh. unfold w1. by autorewrite with world.
  - exists evs. rewrite Htr. unfold w1. autorewrite with world. by rewrite <- app_assoc.
Qed.


(** * Rotation and the file system *)

Lemma backup_inj (dir : string) (i j : Z) : backup dir i = backup dir j → i = j.
Proof.
  unfold backup, path_join. intros H.
  do 3 apply (inj (String.app _)) in H. by apply (inj pretty) in H.
Qed.

Lemma live_ne_backup (dir : string) (i : Z) : live dir ≠ backup dir i.
Proof.
  unfold live, backup, path_join. intros H.
  do 2 apply (inj (String.app _)) in H.
  rewrite !append_cons in H. discriminate H.
Qed.

Lemma dir_ne_backup (dir : string) (i : Z) : dir ≠ backup dir i.
Proof.
  unfold backup, path_join. intros H.
  rewrite <- (append_nil_r dir) in H at 1.
  apply (inj (String.app _)) in H. rewrite !append_cons in H. discriminate H.
Qed.


Lemma backup_1 (dir : string) : path_join dir "app.log.1" = backup dir 1.
Proof. reflexivity. Qed.

(** *** The file system calls when nothing fails *)

Lemma existsSync_run (l : Logger) (w : World) (p : string) :
  lift (existsSync p) (l, w)
  = (Normal (match w_fs w !! p with Some _ => true | None => false end),
     (l, set_trace (w_trace w ++ [ExistsSync p]) w)).
Proof. reflexivity. Qed.

Lemma statSync_file (l : Logger) (w : World) (p c : string) :
  w_faults w = [] → w_fs w !! p = Some (File c) →
  lift (statSync p) (l, w)
  = (Normal (Z.of_nat (String.length c)), (l, set_trace (w_trace w ++ [StatSync p]) w)).
Proof.
  intros Hf Hp. unfold lift, statSync, emit, fault, mbind, M_bind, bind, gets, modify, throw, mret, M_ret, ret.
  simpl. rewrite Hf. simpl. by rewrite Hp.
Qed.

Lemma unlinkSync_file (l : Logger) (w : World) (p c : string) :
  w_faults w = [] → w_fs w !! p = Some (File c) →
  lift (unlinkSync p) (l, w)
  = (Normal tt, (l, set_fs (delete p (w_fs w)) (set_trace (w_trace w ++ [UnlinkSync p]) w))).
Proof.
  intros Hf Hp. unfold lift, unlinkSync, emit, fault, mbind, M_bind, bind, gets, modify, throw, mret, M_ret, ret.
  simpl. rewrite Hf. simpl. by rewrite Hp.
Qed.

Lemma renameSync_file (l : Logger) (w : World) (a b c : string) :
  w_faults w = [] → w_fs w !! a = Some (File c) → w_fs w !! b ≠ Some Dir →
  lift (renameSync a b) (l, w)
  = (Normal tt,
     (l, set_fs (<[b := File c]> (delete a (w_fs w)))
           (set_trace (w_trace w ++ [RenameSync a b]) w))).
Proof.
  intros Hf Ha Hb. unfold lift, renameSync, emit, fault, mbind, M_bind, bind, gets, modify, throw, mret, M_ret, ret.
  simpl. rewrite Hf. simpl. rewrite Ha.
  by destruct (w_fs w !! b) as [[]|].
Qed.

(** *** The backup shift *)

Section Shift.
Variable l : Logger.
Variable dir : string.
Variable M : Z.

Lemma rotateBackups_shifts (n : nat) (w : World) :
  w_faults w = [] →
  Z.of_nat n ≤ M - 1 →
  (∀ i, 1 ≤ i ≤ Z.of_nat n → ∃ c, w_fs w !! backup dir i = Some (File c)) →
  (Z.of_nat n < M - 1 → w_fs w !! backup dir (Z.of_nat n + 1) = None) →
  ∃ w', rotateBackups dir M n (l, w) = (Normal tt, (l, w'))
    ∧ w_faults w' = []
    ∧ (∀ i, 1 ≤ i ≤ Z.of_nat n → i ≤ M - 2 →
            w_fs w' !! backup dir (i + 1) = w_fs w !! backup dir i)
    ∧ (1 ≤ Z.of_nat n → w_fs w' !! backup dir 1 = None)
    ∧ (∀ q, (∀ i, 1 ≤ Z.of_nat n → 1 ≤ i ≤ Z.of_nat n + 1 → i ≤ M - 1 → q ≠ backup dir i) →
            w_fs w' !! q = w_fs w !! q).
Proof.
  revert w. induction n as [|n IH]; intros w Hf Hn Hfiles Hfree.
  - exists w. split; [done|]. split; [done|]. split; [intros; lia|]. split; [lia|done].
  - cbn [rotateBackups]. fold (backup dir (Z.of_nat (S n))).
    fold (backup dir (Z.of_nat (S n) + 1)).
    set (k := Z.of_nat (S n)) in *.
    assert (k = Z.of_nat n + 1) as Hk by (unfold k; lia).
    destruct (Hfiles k) as [c Hc]; [lia|].
    rewrite run_bind, existsSync_run, Hc.
    rewrite run_bind.
    set (w1 := set_trace (w_trace w ++ [ExistsSync (backup dir k)]) w).
    match goal with |- context [let (_, _) := ?step in _] =>
      assert (∃ fs2 ev,
                step = (Normal tt, (l, set_fs fs2 (set_trace (w_trace w1 ++ [ev]) w1)))
                ∧ fs2 !! backup dir k = None
                ∧ (k ≤ M - 2 → fs2 !! backup dir (k + 1) = Some (File c))
                ∧ (∀ q, q ≠ backup dir k → (k ≤ M - 2 → q ≠ backup dir (k + 1)) →
                        fs2 !! q = w_fs w !! q)) as (fs2 & ev & Hstep & Hk2 & Hk3 & Hframe)
    end.
    { case_bool_decide as Hlast.
      - eexists _, _. split; [by apply (unlinkSync_file l w1 _ c)|].
        split; [by rewrite lookup_delete_eq|]. split; [lia|].
        intros q Hq _. by rewrite lookup_delete_ne.
      - assert (k < M - 1) as Hlt by lia.
        eexists _, _. split.
        + apply (renameSync_file l w1 _ _ c); [done|done|].
          unfold w1. autorewrite with world. by rewrite Hfree by lia.
        + split; [|split].
          * rewrite lookup_insert_ne by (intros ?%backup_inj; lia).
            by rewrite lookup_delete_eq.
          * intros _. by rewrite lookup_insert_eq.
          * intros q Hq Hq'. rewrite lookup_insert_ne by (apply not_eq_sym, Hq'; lia).
            by rewrite lookup_delete_ne. }
    rewrite Hstep.
    destruct (IH (set_fs fs2 (set_trace (w_trace w1 ++ [ev]) w1)))
      as (w' & Hrun & Hf' & Hshift & Hone & Hrest).
    + by autorewrite with world.
    + lia.
    + intros i Hi. autorewrite with world. rewrite Hframe.
      * apply Hfiles. lia.
      * intros ?%backup_inj. lia.
      * intros _ ?%backup_inj. lia.
    + intros _. autorewrite with world. by rewrite <- Hk.
    + exists w'. split; [exact Hrun|]. split; [done|].
      autorewrite with world in Hshift, Hone, Hrest.
      split; [|split].
      * intros i Hi Hi2. destruct (decide (i = k)) as [->|Hik].
        -- rewrite Hrest, Hk3, Hc; [done|lia|].
           intros j _ Hj _ ?%backup_inj. lia.
        -- rewrite Hshift by lia. apply Hframe.
           ++ intros ?%backup_inj. lia.
           ++ intros _ ?%backup_inj. lia.
      * intros _. destruct (decide (1 ≤ Z.of_nat n)) as [H1|H1].
        -- by apply Hone.
        -- assert (k = 1) as Hk1 by lia. rewrite Hrest.
           ++ by rewrite <- Hk1.
           ++ intros j Hj. lia.
      * intros q Hq. rewrite Hrest.
        -- apply Hframe.
           ++ apply Hq; lia.
           ++ intros Hk4. apply Hq; lia.
        -- intros j Hn1 Hj Hj'. apply Hq; lia.
Qed.

End Shift.

Lemma emit_run (l : Logger) (w : World) (ev : event) :
  lift (emit ev) (l, w) = (Normal tt, (l, set_trace (w_trace w ++ [ev]) w)).
Proof. reflexivity. Qed.

(** A rotation that meets no failure, on a live file at or above the
    threshold with every backup from 1 to [maxBackups - 1] in place. *)
Lemma rotateIfNeeded_rotates (l : Logger) (w : World) (dir content : string) (M : Z) :
  path_of (logsDir l) = Some dir →
  path_of (logFilePath l) = Some (live dir) →
  maxBackups (options l) = M →
  2 ≤ M →
  w_faults w = [] →
  w_fs w !! live dir = Some (File content) →
  maxFileSize (options l) ≤ Z.of_nat (String.length content) →
  (∀ i, 1 ≤ i ≤ M - 1 → ∃ c, w_fs w !! backup dir i = Some (File c)) →
  ∃ w', rotateIfNeeded (l, w) = (Normal tt, (l, w'))
    ∧ w_fs w' !! backup dir 1 = Some (File content)
    ∧ w_fs w' !! live dir = None
    ∧ (∀ i, 1 ≤ i ≤ M - 2 → w_fs w' !! backup dir (i + 1) = w_fs w !! backup dir i)
    ∧ (∀ q, q ≠ live dir → (∀ i, 1 ≤ i ≤ M - 1 → q ≠ backup dir i) →
            w_fs w' !! q = w_fs w !! q).
Proof.
  intros Hd Hp HM H2 Hf Hlive Hsize Hfiles.
  unfold rotateIfNeeded. rewrite run_bind, emit_run. run. rewrite Hp, Hd.
  rewrite run_try_catch, run_bind, existsSync_run. autorewrite with world.
  rewrite Hlive. cbn [negb]. rewrite run_bind.
  rewrite (statSync_file _ _ _ content) by (by autorewrite with world). run.
  replace (Z.of_nat (String.length content) <? maxFileSize (options l)) with false
    by (symmetry; by apply Z.ltb_ge).
  run. rewrite HM.
  match goal with |- context [rotateBackups dir M ?n (l, ?w1)] =>
    destruct (rotateBackups_shifts l dir M n w1)
      as (w2 & Hrun & Hf2 & Hshift & Hone & Hrest) end.
  { by autorewrite with world. }
  { lia. }
  { intros i Hi. autorewrite with world. apply Hfiles. lia. }
  { lia. }
  rewrite Hrun. autorewrite with world in Hshift, Hone, Hrest.
  rewrite backup_1.
  assert (w_fs w2 !! live dir = Some (File content)) as Hlive2.
  { rewrite Hrest; [done|]. intros i _ _ _. apply live_ne_backup. }
  rewrite (renameSync_file _ _ _ _ content); [|done|done|by rewrite Hone by lia].
  eexists. split; [reflexivity|]. autorewrite with world.
  split; [by rewrite lookup_insert_eq|]. split; [|split].
  - rewrite lookup_insert_ne by (apply not_eq_sym, live_ne_backup).
    by rewrite lookup_delete_eq.
  - intros i Hi. rewrite lookup_insert_ne by (intros ?%backup_inj; lia).
    rewrite lookup_delete_ne by apply live_ne_backup.
    apply Hshift; lia.
  - intros q Hq1 Hq2. rewrite lookup_insert_ne by (apply not_eq_sym, Hq2; lia).
    rewrite lookup_delete_ne by (by apply not_eq_sym).
    apply Hrest. intros i _ Hi Hi'. apply Hq2. lia.
Qed.

(** *** No call of the logger writes the backup of index [maxBackups] *)

Section Keeps.
Variable base : string.
Variable maxB : Z.
Variable j : Z.
Variable x : option node.
Hypothesis HmaxB : 2 ≤ maxB.
Hypothesis Hj : maxB ≤ j.

Local Abbreviation dir := (path_join base "logs").
Local Abbreviation target := (backup (path_join base "logs") j).
Local Abbreviation P := (world_keeps base target x).
Local Abbreviation J := (keeps base maxB target x).

Local Ltac world_op :=
  intros w [Hg Hx];
  unfold existsSync, statSync, mkdirSync, appendFileSync, renameSync, unlinkSync, console,
    getPath, formatTimestamp, alloc, emit, fault, mbind, M_bind, bind, gets, modify, throw,
    mret, M_ret, ret;
  simpl;
  repeat (autorewrite with world; simpl;
          match goal with
          | |- context [match w_faults w with _ => _ end] => destruct (w_faults w) as [|[?|] ?]
          | |- context [match w_fs w !! ?p with _ => _ end] =>
              destruct (w_fs w !! p) as [[]|] eqn:?
          end);
  simpl; unfold world_keeps; autorewrite with world;
  rewrite ?lookup_insert_ne, ?lookup_delete_ne by done; try done.

Lemma keeps_emit ev : inv P (emit ev) (λ _, True).
Proof. world_op. Qed.

Lemma keeps_existsSync p : inv P (existsSync p) (λ _, True).
Proof. world_op. Qed.

Lemma keeps_statSync p : inv P (statSync p) (λ _, True).
Proof. world_op. Qed.

Lemma keeps_console ch args : inv P (console ch args) (λ _, True).
Proof. world_op. Qed.

Lemma keeps_formatTimestamp : inv P formatTimestamp (λ _, True).
Proof. world_op. Qed.

Lemma keeps_alloc o : inv P (alloc o) (λ _, True).
Proof. world_op. Qed.

Lemma keeps_getPath : inv P (getPath "userData") (λ r, r = base).
Proof.
  intros w [Hg Hx]. unfold getPath, emit, mbind, M_bind, bind, gets, modify. simpl.
  rewrite Hg. simpl. split; [by split|]. by intros ? [= <-].
Qed.

Lemma keeps_mkdirSync p : p ≠ target → inv P (mkdirSync p) (λ _, True).
Proof. intros Hp. world_op. Qed.

Lemma keeps_appendFileSync p c : p ≠ target → inv P (appendFileSync p c) (λ _, True).
Proof. intros Hp. world_op. Qed.

Lemma keeps_unlinkSync p : p ≠ target → inv P (unlinkSync p) (λ _, True).
Proof. intros Hp. world_op. Qed.

Lemma keeps_renameSync a b : a ≠ target → b ≠ target → inv P (renameSync a b) (λ _, True).
Proof.
  intros Ha Hb. world_op;
    destruct (w_fs w !! b) as [[]|]; simpl; unfold world_keeps; autorewrite with world;
    rewrite ?lookup_insert_ne, ?lookup_delete_ne by done; done.
Qed.

Lemma keeps_lift {A} (m : M World exn A) φ : inv P m φ → inv J (lift m : M State exn A) φ.
Proof.
  intros H [l w] (H1 & H2 & H3 & Hw). unfold lift, keeps. cbn [fst snd] in *.
  specialize (H w Hw). destruct (m w) as [r w']. cbn [fst snd] in *.
  destruct H as [HP Hφ]. split; [|done]. split; [done|]. split; [done|]. by split.
Qed.

Lemma keeps_update f :
  (∀ l, maxBackups (options (f l)) = maxBackups (options l)) →
  (∀ l, logsDir (f l) = logsDir l ∨ logsDir (f l) = Some dir) →
  (∀ l, logFilePath (f l) = logFilePath l ∨ logFilePath (f l) = Some (live dir)) →
  inv J (update f) (λ _, True).
Proof.
  intros Hb Hd Hp. apply inv_modify. intros [l w] (H1 & H2 & H3 & Hw).
  unfold keeps. cbn [fst snd] in *.
  split; [by rewrite Hb|]. split; [|split; [|done]].
  - destruct (Hd l) as [->| ->]; auto.
  - destruct (Hp l) as [->| ->]; auto.
Qed.

Lemma backup_ne_target (i : Z) : i ≤ maxB - 1 → backup dir i ≠ target.
Proof. intros Hi ?%backup_inj. lia. Qed.

Lemma path_of_dir : path_of (Some dir) = Some dir.
Proof.
  unfold path_of. rewrite bool_decide_eq_false_2; [done|].
  unfold path_join. destruct base; discriminate.
Qed.

Lemma path_of_live : path_of (Some (live dir)) = Some (live dir).
Proof.
  unfold path_of. rewrite bool_decide_eq_false_2; [done|].
  unfold live, path_join. destruct base; discriminate.
Qed.

Local Ltac keeps_step :=
  first
    [ apply keeps_lift;
      first [ apply keeps_existsSync | apply keeps_statSync | apply keeps_console
            | apply keeps_formatTimestamp | apply keeps_alloc | apply keeps_emit
            | eapply inv_true, keeps_getPath ]
    | apply keeps_update; intros; cbn; by auto
    | inv_step ].

Lemma rotateBackups_keeps (n : nat) :
  Z.of_nat n ≤ maxB - 1 → inv J (rotateBackups dir maxB n) (λ _, True).
Proof.
  induction n as [|n IH]; intros Hn; [by apply inv_ret|].
  cbn [rotateBackups]. fold (backup dir (Z.of_nat (S n))).
  fold (backup dir (Z.of_nat (S n) + 1)).
  apply inv_bind_any; [keeps_step|]. intros ex.
  apply inv_bind_any; [|intros _; apply IH; lia].
  destruct ex; [|by apply inv_ret].
  case_bool_decide as Hlast.
  - apply keeps_lift, keeps_unlinkSync, backup_ne_target. lia.
  - apply keeps_lift, keeps_renameSync; apply backup_ne_target; lia.
Qed.

Lemma rotateIfNeeded_keeps : inv J rotateIfNeeded (λ _, True).
Proof.
  unfold rotateIfNeeded, this, compose.
  apply inv_bind_any; [keeps_step|]. intros _.
  apply inv_bind_gets. intros s1 (_ & _ & Hp & _).
  apply inv_bind_gets. intros s2 (_ & Hd & _ & _).
  destruct Hp as [-> | ->]; [by apply inv_ret|]. rewrite path_of_live.
  destruct Hd as [-> | ->]; [by apply inv_ret|]. rewrite path_of_dir.
  apply inv_try_catch; [|intros e; keeps_step].
  apply inv_bind_any; [keeps_step|]. intros ex.
  destruct (negb ex); [by apply inv_ret|].
  apply inv_bind_any; [keeps_step|]. intros size.
  apply inv_bind_gets. intros s3 _.
  destruct (size <? maxFileSize (options s3.1)); [by apply inv_ret|].
  apply inv_bind_gets. intros s4 (Hb & _). rewrite Hb.
  apply inv_bind_any; [apply rotateBackups_keeps; lia|]. intros _.
  rewrite backup_1. apply keeps_lift, keeps_renameSync.
  - apply live_ne_backup.
  - apply backup_ne_target. lia.
Qed.

Lemma writeToFile_keeps content : inv J (writeToFile content) (λ _, True).
Proof.
  unfold writeToFile, this, compose.
  apply inv_bind_gets. intros s1 (_ & _ & Hp & _).
  apply inv_bind_gets. intros s2 (_ & Hd & _ & _).
  destruct Hp as [-> | ->]; [by apply inv_ret|]. rewrite path_of_live.
  destruct Hd as [-> | ->]; [by apply inv_ret|]. rewrite path_of_dir.
  apply inv_try_catch; [|intros e; keeps_step].
  apply inv_bind_any; [keeps_step|]. intros _.
  apply inv_bind_gets. intros s3 _. apply inv_bind_gets. intros s4 _.
  apply inv_bind_any.
  - destruct (_ <=? _); [|by apply inv_ret].
    apply inv_bind_any; [apply rotateIfNeeded_keeps|]. intros _. keeps_step.
  - intros _. apply keeps_lift, keeps_appendFileSync, live_ne_backup.
Qed.

Lemma flushBuffer_keeps : inv J flushBuffer (λ _, True).
Proof.
  unfold flushBuffer, this. apply inv_bind_gets. intros s1 _.
  destruct (logBuffer s1.1); [by apply inv_ret|].
  apply inv_bind_any; [keeps_step|]. intros _. apply writeToFile_keeps.
Qed.

Lemma fileLog_keeps prefix message context : inv J (fileLog prefix message context) (λ _, True).
Proof.
  unfold fileLog, this, compose.
  apply inv_bind_gets. intros s1 _. apply inv_bind_gets. intros s2 _.
  destruct (path_of _); [|by apply inv_ret]. destruct (path_of _); [|by apply inv_ret].
  apply inv_bind_any.
  - destruct (truthy context); [|by apply inv_ret].
    unfold safeStringifyText. apply inv_bind_any; [|intros ?; by apply inv_ret].
    apply inv_bind_gets. intros s3 _. repeat inv_step.
  - intros contextStr. apply inv_bind_gets. intros s3 _.
    destruct (0 <? _); [|apply writeToFile_keeps].
    apply inv_bind_any; [keeps_step|]. intros _.
    apply inv_bind_gets. intros s4 _.
    destruct (_ <=? _); [apply flushBuffer_keeps|by apply inv_ret].
Qed.

Lemma dir_ne_target : dir ≠ target.
Proof. apply dir_ne_backup. Qed.

Lemma initFileLogging_keeps : inv J initFileLogging (λ _, True).
Proof.
  intros [l w] HJ. split; [|done].
  pose proof HJ as (H1 & H2 & H3 & Hg & Hx). cbn [fst snd] in *.
  unfold initFileLogging. run.
  destruct (fileLoggingInitialized l); [done|]. run.
  rewrite (getPath_returns _ _ _ base) by done. run.
  unfold default, from_option, id.
  rewrite existsSync_run. autorewrite with world.
  set (l1 := set_logsDir (Some dir) l).
  set (w1 := set_trace _ (set_trace _ w)).
  assert (J (l1, w1)) as HJ1.
  { unfold keeps, world_keeps. cbn [fst snd]. unfold w1. autorewrite with world.
    split; [done|]. split; [by right|]. by split. }
  destruct (w_fs w !! dir); cbn [negb]; run.
  - unfold keeps, world_keeps. cbn [fst snd]. unfold w1. autorewrite with world.
    split; [done|]. split; [by right|]. split; [by right|]. by split.
  - pose proof (keeps_lift _ _ (keeps_mkdirSync dir dir_ne_target) (l1, w1) HJ1) as [HJ2 _].
    destruct (lift (mkdirSync dir) (l1, w1)) as [[[]|e] [l2 w2]] eqn:Hmk.
    + assert (l2 = l1) as ->.
      { unfold lift in Hmk. cbn [fst snd] in Hmk. destruct (mkdirSync dir w1). by simplify_eq. }
      run. destruct HJ2 as (? & ? & ? & ?). unfold keeps. cbn [fst snd] in *.
      split; [done|]. split; [by right|]. split; [by right|]. done.
    + run. rewrite console_run. run. destruct HJ2 as (? & ? & ? & ? & ?).
      unfold keeps, world_keeps. cbn [fst snd] in *. autorewrite with world.
      split; [done|]. split; [done|]. split; [done|]. by split.
Qed.

Lemma log_keeps lvl message context : inv J (log lvl message context) (λ _, True).
Proof.
  unfold log, this, compose. apply inv_bind_gets. intros s1 _.
  destruct (_ <? _); [by apply inv_ret|].
  apply inv_bind_any; [keeps_step|]. intros timestamp.
  apply inv_bind_gets. intros s2 _.
  apply inv_bind_any.
  { unfold consoleLog. destruct lvl; keeps_step. }
  intros _. apply inv_bind_gets. intros s3 _.
  destruct (fileLogging _); [|by apply inv_ret].
  apply inv_bind_any.
  { unfold ensureFileLoggingInitialized, this, compose.
    apply inv_bind_gets. intros s4 _. apply inv_bind_gets. intros s5 _.
    destruct (_ && _); [apply initFileLogging_keeps|by apply inv_ret]. }
  intros _. apply inv_bind_gets. intros s4 _.
  destruct (path_of _); [apply fileLog_keeps|by apply inv_ret].
Qed.

Lemma method_keeps lvl message context : inv J (method lvl message context) (λ _, True).
Proof.
  destruct lvl; try apply log_keeps.
  unfold method, error. apply inv_bind_gets. intros s0 _.
  apply inv_bind_any; [|intros ?; apply log_keeps].
  destruct context; try by apply inv_ret.
  destruct (w_heap s0.2 !! l) as [[]|]; try by apply inv_ret.
  apply inv_bind_any; [keeps_step|]. intros inner.
  apply inv_bind_any; [keeps_step|]. intros outer. by apply inv_ret.
Qed.

Lemma run_call_keeps c : inv J (run_call c) (λ _, True).
Proof.
  destruct c as [now lvl message context|]; [|apply flushBuffer_keeps].
  cbn [run_call]. apply inv_bind_any; [|intros _; apply method_keeps].
  apply inv_modify. by intros [l w].
Qed.

Lemma run_calls_keeps cs s : J s → J (run_calls cs s).
Proof.
  revert s. induction cs as [|c cs IH]; intros s Hs; [done|].
  cbn [run_calls]. apply IH. by apply run_call_keeps.
Qed.

Lemma constructor_keeps : inv J constructor (λ _, True).
Proof.
  unfold constructor, this, compose.
  apply inv_bind_gets. intros s1 _. apply inv_bind_gets. intros s2 _.
  destruct (_ && _); [apply initFileLogging_keeps|by apply inv_ret].
Qed.

End Keeps.

(** * The claims about the logger *)

Import Scenario.

(** C4.  A logger whose rotation check interval is R >= 1, starting with
    its write counter at zero: fewer than R disk writes make no rotation
    check, exactly R writes make exactly one, k*R writes make exactly k;
    and whenever a write makes a check, the counter is zero after that
    write, in every world (so also when the check fails or rotates). *)
Theorem rotation_check_every_interval
    (l : Logger) (w : World) (logFile : string) (R : Z) :
  path_of (logFilePath l) = Some logFile →
  is_Some (path_of (logsDir l)) →
  rotationCheckInterval (options l) = R →
  1 ≤ R →
  logWriteCount l = 0 →
  let checks_after cs := rotation_checks (w_trace (snd (write_all cs (l, w)))) in
  (∀ cs, Z.of_nat (length cs) < R → checks_after cs = rotation_checks (w_trace w))
  ∧ (∀ cs, Z.of_nat (length cs) = R →
           checks_after cs = (rotation_checks (w_trace w) + 1)%nat)
  ∧ (∀ cs k, 1 ≤ k → Z.of_nat (length cs) = k * R →
             checks_after cs = (rotation_checks (w_trace w) + Z.to_nat k)%nat)
  ∧ (∀ l1 w1 content,
       path_of (logFilePath l1) = Some logFile →
       is_Some (path_of (logsDir l1)) →
       let s' := snd (writeToFile content (l1, w1)) in
       rotation_checks (w_trace (snd s')) ≠ rotation_checks (w_trace w1) →
       logWriteCount (fst s') = 0).
Proof.
  intros Hp Hd HR Hpos Hzero checks_after.
  assert (∀ cs, checks_after cs
                = (rotation_checks (w_trace w) + Z.to_nat (Z.of_nat (length cs) `div` R))%nat)
    as Hcount.
  { intros cs. unfold checks_after.
    destruct (write_all_counts cs l w logFile Hp Hd) as [_ Hc]; [lia|lia|].
    rewrite Hc, Hzero, HR, Z.add_0_l. done. }
  repeat split.
  - intros cs Hlt. rewrite Hcount, Z.div_small by lia. cbn. lia.
  - intros cs Heq. rewrite Hcount, Heq, Z_div_same_full by lia. done.
  - intros cs k Hk Heq. rewrite Hcount, Heq, Z_div_mult_full by lia. done.
  - intros l1 w1 content Hp1 Hd1 s' Hchecked. subst s'.
    destruct (writeToFile_spec l1 w1 content logFile Hp1 Hd1)
      as (w2 & Hrun & _ & _ & _ & Hchk).
    rewrite Hrun in Hchecked |- *. cbn [fst snd] in *.
    destruct (rotationCheckInterval (options l1) <=? logWriteCount l1 + 1); [done|].
    rewrite Hchk in Hchecked. lia.
Qed.

Lemma rotation_check_every_interval_witness :
  let l := ready_logger (file_options 3 0 5 1000) in
  let checks_after cs := rotation_checks (w_trace (snd (write_all cs (l, failing_world)))) in
  (∀ cs, Z.of_nat (length cs) < 3 →
         checks_after cs = rotation_checks (w_trace failing_world))
  ∧ (∀ cs, Z.of_nat (length cs) = 3 →
           checks_after cs = (rotation_checks (w_trace failing_world) + 1)%nat)
  ∧ (∀ cs k, 1 ≤ k → Z.of_nat (length cs) = k * 3 →
             checks_after cs = (rotation_checks (w_trace failing_world) + Z.to_nat k)%nat)
  ∧ (∀ l1 w1 content,
       path_of (logFilePath l1) = Some "/home/u/logs/app.log" →
       is_Some (path_of (logsDir l1)) →
       let s' := snd (writeToFile content (l1, w1)) in
       rotation_checks (w_trace (snd s')) ≠ rotation_checks (w_trace w1) →
       logWriteCount (fst s') = 0).
Proof.
  apply (rotation_check_every_interval (ready_logger (file_options 3 0 5 1000)) failing_world
           "/home/u/logs/app.log" 3).
  - reflexivity.
  - eexists. reflexivity.
  - reflexivity.
  - lia.
  - reflexivity.
Defined.





(** C5.  For severities S1 < S2 and a logger whose level is S2, the method
    of severity S1 returns without any effect: the world (console trace,
    file system, heap) and the instance (write counter, buffer) are
    exactly as before. *)
Theorem below_threshold_no_effect
    (S1 S2 : LogLevel) (l : Logger) (w : World) (message : string) (context : value) :
  level_value S1 < level_value S2 →
  level (options l) = S2 →
  method S1 message context (l, w) = (Normal tt, (l, w)).
Proof.
  intros Hlt Hlevel.
  assert (log S1 message context (l, w) = (Normal tt, (l, w))) as Hlog.
  { unfold log. run. rewrite Hlevel.
    by replace (level_value S1 <? level_value S2) with true by (symmetry; by apply Z.ltb_lt). }
  destruct S1; try exact Hlog.
  destruct S2; cbn in Hlt; lia.
Qed.

Lemma below_threshold_no_effect_witness :
  let l := fst (snd (new_Logger "auth" error_level_options ready_world)) in
  method WARN "disk almost full" VUndefined (l, ready_world) = (Normal tt, (l, ready_world)).
Proof.
  apply (below_threshold_no_effect WARN ERROR); [reflexivity|reflexivity].
Defined.

(** C6.  A logger made with [{ fileLogging: true, deferInit: true }]:
    construction returns without touching the world; an [info] call made
    while the path service throws [e] returns normally, writes the entry
    to the console, asks the path service once, reports
    [[Logger] Failed to initialize file logging:] with [e] on the error
    channel, makes no call to the file system, and leaves [fileLogging]
    off; from then on, in any world, no call appends to a file or touches
    the file system, and [fileLogging] stays off. *)
Theorem deferred_init_failure_is_absorbed
    (name : string) (w0 w : World) (e : exn) (message : string) (context : value) :
  w_getPath w "userData" = inr e →
  let l0 := fresh_logger name deferred_file_options in
  new_Logger name deferred_file_options w0 = (Normal tt, (l0, w0))
  ∧ ∃ l1 w1,
      info message context (l0, w) = (Normal tt, (l1, w1))
      ∧ w_trace w1
        = (w_trace w
           ++ [Console ConsoleLog (console_args (prefix_of l0 (w_now w) INFO) message context);
               GetPath "userData";
               Console ConsoleError
                 [AVal (VString "[Logger] Failed to initialize file logging:"); AExn e]])%list
      ∧ w_fs w1 = w_fs w
      ∧ appends (w_trace w1) = appends (w_trace w)
      ∧ fileLogging (options l1) = false
      ∧ isFileLoggingEnabled (l1, w1) = (Normal false, (l1, w1))
      ∧ ∀ cs w2,
          fileLogging (options (fst (run_calls cs (l1, w2)))) = false
          ∧ w_fs (snd (run_calls cs (l1, w2))) = w_fs w2
          ∧ appends (w_trace (snd (run_calls cs (l1, w2)))) = appends (w_trace w2).
Proof.
  intros Hthrow l0. split; [reflexivity|].
  unfold info, log. run.
  change (level (options l0)) with INFO.
  change (level_value INFO <? level_value INFO) with false. cbn iota.
  unfold formatTimestamp, lift at 1. run.
  rewrite consoleLog_run. run.
  change (fileLogging (options l0)) with true. cbn iota.
  unfold ensureFileLoggingInitialized. run.
  change (fileLogging (options l0)) with true.
  change (fileLoggingInitialized l0) with false. cbn [andb negb].
  unfold initFileLogging. run.
  change (fileLoggingInitialized l0) with false. cbn iota.
  run. rewrite (getPath_throws _ _ _ e) by (autorewrite with world; exact Hthrow). run.
  rewrite console_run. run.
  change (logFilePath l0) with (@None string). cbn [path_of]. run.
  fold (prefix_of l0 (w_now w) INFO).
  eexists _, _. split; [reflexivity|]. autorewrite with world.
  split; [by rewrite <- !app_assoc|]. split; [done|].
  split; [rewrite !appends_app; cbn; by rewrite !app_nil_r|].
  split; [done|]. split; [done|].
  intros cs w2.
  match goal with |- context [run_calls cs (?l1, w2)] =>
    pose proof (run_calls_off (w_fs w2) (w_trace w2) cs (l1, w2)
                  (file_logging_off_here l1 w2 eq_refl eq_refl))
      as (Hoff & _ & Hfs & evs & Htr & Hev) end.
  split; [exact Hoff|]. split; [exact Hfs|].
  by rewrite Htr, appends_app, (no_fs_call_appends evs Hev), app_nil_r.
Qed.

Lemma deferred_init_failure_is_absorbed_witness :
  let l0 := fresh_logger "net" deferred_file_options in
  new_Logger "net" deferred_file_options unready_world = (Normal tt, (l0, unready_world))
  ∧ ∃ l1 w1,
      info "ping" VUndefined (l0, unready_world) = (Normal tt, (l1, w1))
      ∧ w_trace w1
        = (w_trace unready_world
           ++ [Console ConsoleLog
                 (console_args (prefix_of l0 (w_now unready_world) INFO) "ping" VUndefined);
               GetPath "userData";
               Console ConsoleError
                 [AVal (VString "[Logger] Failed to initialize file logging:");
                  AExn not_ready]])%list
      ∧ w_fs w1 = w_fs unready_world
      ∧ appends (w_trace w1) = appends (w_trace unready_world)
      ∧ fileLogging (options l1) = false
      ∧ isFileLoggingEnabled (l1, w1) = (Normal false, (l1, w1))
      ∧ ∀ cs w2,
          fileLogging (options (fst (run_calls cs (l1, w2)))) = false
          ∧ w_fs (snd (run_calls cs (l1, w2))) = w_fs w2
          ∧ appends (w_trace (snd (run_calls cs (l1, w2)))) = appends (w_trace w2).
Proof.
  apply (deferred_init_failure_is_absorbed "net" unready_world unready_world not_ready
           "ping" VUndefined).
  reflexivity.
Defined.

Lemma log_now (l : Logger) (w : World) lvl message context :
  log lvl message context (l, w) = log_at (w_now w) lvl message context (l, w).
Proof. unfold log_at. rewrite run_bind, run_modify. cbn [fst snd]. by destruct w. Qed.

(** C8, counterexample.  [error('failed', new Error('boom'))]: the second
    argument of the console call is a new object whose only property is
    [error]; the object with [name], [message] and [stack] is the value of
    that property, not the context. *)
Lemma error_context_is_not_the_normalized_error :
  let l := fst (snd (new_Logger "net" no_options boom_world)) in
  let w' := snd (snd (error "failed" (VRef 1%positive) (l, boom_world))) in
  ∃ (ctx inner : loc),
    w_trace w'
    = [Console ConsoleError
         [AVal (VString "[2026-01-01T00:00:00.000Z] [ERROR] [net] failed"); AVal (VRef ctx)]]
    ∧ w_heap w' !! ctx = Some (OPlain [("error", VRef inner)])
    ∧ w_heap w' !! ctx
      ≠ Some (OPlain [("name", VString "Error"); ("message", VString "boom");
                      ("stack", VString "Error: boom")])
    ∧ w_heap w' !! inner
      = Some (OPlain [("name", VString "Error"); ("message", VString "boom");
                      ("stack", VString "Error: boom")]).
Proof.
  eexists _, _. split; [by vm_compute|]. split; [by vm_compute|].
  split; [by vm_compute|by vm_compute].
Qed.

(** C8, as amended.  [error(message, E)] with a native error [E] makes two
    new objects, [{ name, message, stack }] copied from [E] and
    [{ error: <that object> }], and is from there on the core routine at
    severity ERROR with the second object as context: that object is the
    second argument of the console call and, when file logging writes
    through, its serialization is what the appended line carries. *)
Theorem error_wraps_native_error
    (l : Logger) (w : World) (message : string) (E : loc) (n m s : value)
    (props : list (string * value)) :
  w_heap w !! E = Some (OError n m s props) →
  ∃ (inner outer : loc) (h' : heap),
    w_heap w !! inner = None ∧ w_heap w !! outer = None ∧ inner ≠ outer
    ∧ h' = <[outer := OPlain [("error", VRef inner)]]>
             (<[inner := OPlain [("name", n); ("message", m); ("stack", s)]]> (w_heap w))
    ∧ error message (VRef E) (l, w) = log ERROR message (VRef outer) (l, set_heap h' w)
    ∧ (∃ evs, w_trace (snd (snd (error message (VRef E) (l, w))))
              = (w_trace w
                 ++ Console ConsoleError
                      [AVal (VString (prefix_of l (w_now w) ERROR +:+ " " +:+ message));
                       AVal (VRef outer)] :: evs)%list)
    ∧ (∀ logFile line,
         file_logging_ready l logFile →
         bufferSize (options l) = 0 →
         entry_line l h' (w_now w, ERROR, message, VRef outer) = Some line →
         appends (w_trace (snd (snd (error message (VRef E) (l, w)))))
         = (appends (w_trace w) ++ [(logFile, line)])%list).
Proof.
  intros HE.
  set (inner := fresh (dom (w_heap w))).
  set (h1 := <[inner := OPlain [("name", n); ("message", m); ("stack", s)]]> (w_heap w)).
  set (outer := fresh (dom h1)).
  set (h' := <[outer := OPlain [("error", VRef inner)]]> h1).
  assert (w_heap w !! inner = None) as Hinner.
  { apply not_elem_of_dom. apply is_fresh. }
  assert (h1 !! outer = None) as Houter1.
  { apply not_elem_of_dom. apply is_fresh. }
  assert (inner ≠ outer) as Hne.
  { intros Heq. rewrite <- Heq in Houter1. unfold h1 in Houter1.
    by rewrite lookup_insert_eq in Houter1. }
  assert (w_heap w !! outer = None) as Houter.
  { unfold h1 in Houter1. by rewrite lookup_insert_ne in Houter1. }
  assert (error message (VRef E) (l, w) = log ERROR message (VRef outer) (l, set_heap h' w))
    as Herr.
  { unfold error. run. rewrite HE. run. rewrite alloc_run. run. rewrite alloc_run. run.
    reflexivity. }
  exists inner, outer, h'. repeat (split; [done|]).
  rewrite Herr. split.
  - destruct (log_console l (set_heap h' w) ERROR message (VRef outer) (passes_ERROR l))
      as (r & l' & w' & Hrun & _ & evs & Htr).
    rewrite Hrun. cbn [snd]. exists evs. rewrite Htr. by autorewrite with world.
  - intros logFile line Hready Hzero Hline.
    rewrite log_now.
    rewrite (log_at_ready l _ logFile _ ERROR message (VRef outer) line);
      [|done|apply passes_ERROR|by autorewrite with world].
    rewrite Hzero. cbn [Z.ltb Z.compare].
    destruct Hready as (Hp & Hd & _).
    match goal with |- context [writeToFile line (l, ?w1)] =>
      destruct (writeToFile_spec l w1 line logFile Hp Hd) as (w2 & Hrun & _ & _ & Ha & _) end.
    rewrite Hrun. cbn [snd]. rewrite Ha. autorewrite with world.
    rewrite appends_app. cbn. by rewrite app_nil_r.
Qed.

Lemma error_wraps_native_error_witness :
  let l := ready_logger (file_options 100 0 5 1000) in
  ∃ (inner outer : loc) (h' : heap),
    w_heap boom_world !! inner = None ∧ w_heap boom_world !! outer = None ∧ inner ≠ outer
    ∧ h' = <[outer := OPlain [("error", VRef inner)]]>
             (<[inner := OPlain [("name", VString "Error"); ("message", VString "boom");
                                 ("stack", VString "Error: boom")]]> (w_heap boom_world))
    ∧ error "failed" (VRef 1%positive) (l, boom_world)
      = log ERROR "failed" (VRef outer) (l, set_heap h' boom_world)
    ∧ (∃ evs, w_trace (snd (snd (error "failed" (VRef 1%positive) (l, boom_world))))
              = (w_trace boom_world
                 ++ Console ConsoleError
                      [AVal (VString (prefix_of l (w_now boom_world) ERROR +:+ " " +:+ "failed"));
                       AVal (VRef outer)] :: evs)%list)
    ∧ (∀ logFile line,
         file_logging_ready l logFile →
         bufferSize (options l) = 0 →
         entry_line l h' (w_now boom_world, ERROR, "failed", VRef outer) = Some line →
         appends (w_trace (snd (snd (error "failed" (VRef 1%positive) (l, boom_world)))))
         = (appends (w_trace boom_world) ++ [(logFile, line)])%list).
Proof.
  apply (error_wraps_native_error (ready_logger (file_options 100 0 5 1000)) boom_world
           "failed" 1%positive (VString "Error") (VString "boom") (VString "Error: boom") []).
  reflexivity.
Defined.

(** C1.  What [rotateIfNeeded] does on the premises of the claim
    (maxBackups >= 2, no failure of the file system, the live file at or
    above the threshold, backups 1 to maxBackups-1 in place): the old live
    content becomes backup 1, every backup i <= maxBackups-2 becomes
    backup i+1, indices 1 to maxBackups-1 exist; the backup that is
    dropped is the one of index maxBackups-1, and a file at index
    maxBackups is left exactly as it was: it is not deleted. *)
Theorem rotation_leaves_index_maxBackups
    (l : Logger) (w : World) (dir content : string) (maxB : Z) :
  path_of (logsDir l) = Some dir →
  path_of (logFilePath l) = Some (live dir) →
  maxBackups (options l) = maxB →
  2 ≤ maxB →
  w_faults w = [] →
  w_fs w !! live dir = Some (File content) →
  maxFileSize (options l) ≤ Z.of_nat (String.length content) →
  (∀ i, 1 ≤ i ≤ maxB - 1 → ∃ c, w_fs w !! backup dir i = Some (File c)) →
  ∃ w', rotateIfNeeded (l, w) = (Normal tt, (l, w'))
    ∧ w_fs w' !! backup dir 1 = Some (File content)
    ∧ w_fs w' !! live dir = None
    ∧ (∀ i, 1 ≤ i ≤ maxB - 2 → w_fs w' !! backup dir (i + 1) = w_fs w !! backup dir i)
    ∧ (∀ i, 1 ≤ i ≤ maxB - 1 → is_Some (w_fs w' !! backup dir i))
    ∧ w_fs w' !! backup dir maxB = w_fs w !! backup dir maxB.
Proof.
  intros Hd Hp HM H2 Hf Hlive Hsize Hfiles.
  destruct (rotateIfNeeded_rotates l w dir content maxB Hd Hp HM H2 Hf Hlive Hsize Hfiles)
    as (w' & Hrun & Hone & Hgone & Hshift & Hrest).
  exists w'. split; [done|]. split; [done|]. split; [done|]. split; [done|]. split.
  - intros i Hi. destruct (decide (i = 1)) as [->|Hi1]; [by rewrite Hone|].
    replace i with ((i - 1) + 1) by lia. rewrite Hshift by lia.
    destruct (Hfiles (i - 1)) as [c Hc]; [lia|]. by rewrite Hc.
  - apply Hrest.
    + apply not_eq_sym, live_ne_backup.
    + intros i Hi ?%backup_inj. lia.
Qed.

Lemma rotation_leaves_index_maxBackups_witness :
  ∃ w', rotateIfNeeded (two_backups_logger, full_world) = (Normal tt, (two_backups_logger, w'))
    ∧ w_fs w' !! "/home/u/logs/app.log.1" = Some (File "0123456789")
    ∧ w_fs w' !! "/home/u/logs/app.log" = None
    ∧ w_fs w' !! "/home/u/logs/app.log.2" = Some (File "oldest").
Proof.
  destruct (rotation_leaves_index_maxBackups two_backups_logger full_world
              "/home/u/logs" "0123456789" 2)
    as (w' & Hrun & Hone & Hgone & _ & _ & Hlast).
  - reflexivity.
  - reflexivity.
  - reflexivity.
  - lia.
  - reflexivity.
  - reflexivity.
  - vm_compute. discriminate.
  - intros i Hi. assert (i = 1) as -> by lia. exists "older". reflexivity.
  - exists w'. split; [exact Hrun|]. split; [exact Hone|]. split; [exact Hgone|].
    transitivity (w_fs full_world !! backup "/home/u/logs" 2); [exact Hlast|reflexivity].
Defined.

(** C2.  With maxBackups = M >= 2, no sequence of calls on a logger, from
    its construction on, creates, replaces or removes a file at a backup
    index j >= M: where [app.log.M] does not exist at construction it never
    exists, so the backups that rotation retains are at most the M-1 files
    [app.log.1] to [app.log.(M-1)]. *)
Theorem index_maxBackups_is_never_written
    (name : string) (o : LoggerOptions) (w0 : World) (base : string)
    (cs : list call) (j : Z) :
  2 ≤ maxBackups (merge_options DEFAULT_OPTIONS o) →
  maxBackups (merge_options DEFAULT_OPTIONS o) ≤ j →
  w_getPath w0 "userData" = inl base →
  w_fs (snd (run_calls cs (snd (new_Logger name o w0)))) !! backup (path_join base "logs") j
  = w_fs w0 !! backup (path_join base "logs") j.
Proof.
  intros H2 Hj Hg.
  set (maxB := maxBackups (merge_options DEFAULT_OPTIONS o)) in *.
  set (x := w_fs w0 !! backup (path_join base "logs") j).
  assert (keeps base maxB (backup (path_join base "logs") j) x (fresh_logger name o, w0))
    as Hinit.
  { unfold keeps, world_keeps. cbn [fst snd]. split; [done|]. split; [by left|].
    split; [by left|]. by split. }
  pose proof (constructor_keeps base maxB j x H2 Hj _ Hinit) as [Hnew _].
  pose proof (run_calls_keeps base maxB j x H2 Hj cs _ Hnew) as (_ & _ & _ & _ & Hx).
  exact Hx.
Qed.

Lemma index_maxBackups_is_never_written_witness :
  w_fs (snd (run_calls five_calls (snd (new_Logger "net" rotating_options ready_world))))
    !! "/home/u/logs/app.log.2" = None.
Proof.
  pose proof (index_maxBackups_is_never_written "net" rotating_options ready_world "/home/u"
                five_calls 2) as H.
  apply H.
  - vm_compute. discriminate.
  - vm_compute. discriminate.
  - reflexivity.
Defined.

(** The five entries of the scenario, each longer than the threshold,
    cause four rotations; one backup is retained although maxBackups is 2. *)
Example two_backups_configured_one_retained :
  let fs := w_fs (snd (run_calls five_calls
                         (snd (new_Logger "net" rotating_options ready_world)))) in
  dom fs = {["/home/u/logs"; "/home/u/logs/app.log"; "/home/u/logs/app.log.1"]}
  ∧ fs !! "/home/u/logs/app.log.1" = Some (File ("[t4] [INFO] [net] four" +:+ nl))
  ∧ fs !! "/home/u/logs/app.log" = Some (File ("[t5] [INFO] [net] five" +:+ nl)).
Proof. split; [|split]; by vm_compute. Qed.

(** * Properties of the process tracker *)

Section ProcessTrackerFacts.
Import Eff ProcessTracker TrackerScenario.

Lemma kills_app (tr1 tr2 : list event) : kills (tr1 ++ tr2) = (kills tr1 ++ kills tr2)%list.
Proof. apply omap_app. Qed.

Lemma map_get_delete_eq (p : Z) (t : tracked_map) : map_get p (map_delete p t) = None.
Proof.
  unfold map_get, map_delete.
  induction t as [|[k v] t IH]; simpl; [done|].
  destruct (bool_decide (k = p)) eqn:Hk; simpl; [done|].
  by rewrite Hk.
Qed.

(** One kill attempt never throws, sends exactly one signal and leaves
    the map alone, whatever the operating system answers. *)
Lemma attempt_kill_spec (p : Z) (i : ProcessInfo) (sig : KillSignal) (t : tracked_map) (w : World) :
  ∃ w', attempt_kill p i sig (t, w) = (Normal tt, (t, w'))
        ∧ w_kill w' = w_kill w
        ∧ kills (w_trace w') = (kills (w_trace w) ++ [(p, sig)])%list.
Proof.
  unfold attempt_kill, try_catch, process_kill, emit, mbind, M_bind, bind, modify, gets, throw,
    mret, M_ret, ret; simpl.
  destruct (w_kill w p sig) as [err|] eqn:Hk; simpl.
  - destruct (bool_decide (code err = Some "ESRCH")); simpl;
      eexists; (split; [reflexivity|]); simpl; split; try done;
      rewrite !kills_app; simpl; by rewrite app_nil_r.
  - eexists; split; [reflexivity|]; simpl; split; [done|].
    rewrite !kills_app; simpl; by rewrite app_nil_r.
Qed.

Lemma kill_entries_spec (entries : list (Z * ProcessInfo)) (sig : KillSignal)
    (t : tracked_map) (w : World) :
  ∃ w', kill_entries entries sig (t, w) = (Normal tt, (t, w'))
        ∧ w_kill w' = w_kill w
        ∧ kills (w_trace w') = (kills (w_trace w) ++ map (λ e, (fst e, sig)) entries)%list.
Proof.
  revert w. induction entries as [|[p i] rest IH]; intros w; simpl.
  - exists w. by rewrite app_nil_r.
  - destruct (attempt_kill_spec p i sig t w) as (w1 & H1 & Hk1 & Ht1).
    destruct (IH w1) as (w2 & H2 & Hk2 & Ht2).
    exists w2. unfold mbind, M_bind, bind. rewrite H1, H2. split; [done|].
    split; [congruence|]. rewrite Ht2, Ht1, <- app_assoc. done.
Qed.

(** Bulk kill: no exception escapes, every tracked pid is signalled once,
    in insertion order, and the map is empty afterwards. *)
Lemma killAllTrackedProcesses_spec (sig : KillSignal) (t : tracked_map) (w : World) :
  ∃ w', killAllTrackedProcesses sig (t, w) = (Normal tt, ([], w'))
        ∧ kills (w_trace w') = (kills (w_trace w) ++ map (λ e, (fst e, sig)) t)%list.
Proof.
  unfold killAllTrackedProcesses, mbind, M_bind, bind, this, gets. cbn [fst snd].
  destruct (map_size t =? 0) eqn:Hz.
  - apply Z.eqb_eq in Hz. unfold map_size in Hz.
    destruct t; [|simpl in Hz; lia].
    eexists. split; [reflexivity|]. simpl. rewrite kills_app. simpl. by rewrite !app_nil_r.
  - unfold emit at 1, modify. cbn [fst snd id].
    match goal with |- context [kill_entries t sig (t, ?w0)] =>
      destruct (kill_entries_spec t sig t w0) as (w1 & H1 & Hk1 & Ht1) end.
    rewrite H1. unfold update, emit, modify. cbn [fst snd].
    eexists. split; [reflexivity|]. cbn [w_trace] in *.
    rewrite kills_app, Ht1, kills_app. simpl. by rewrite !app_nil_r.
Qed.

(** C9.  A tracker holding exactly the pids A, B and C, where signalling B
    throws "no such process" (ESRCH): the bulk kill completes normally,
    signals were sent to A and to C (and to B), and the tracked count is 0
    afterwards. *)
Theorem killAll_continues_past_ESRCH
    (t : tracked_map) (w : World) (sig : KillSignal) (A B C : Z) (err : ErrnoException) :
  map fst t ≡ₚ [A; B; C] →
  w_kill w B sig = Some err →
  code err = Some "ESRCH" →
  ∃ w', killAllTrackedProcesses sig (t, w) = (Normal tt, ([], w'))
        ∧ getTrackedCount ([], w') = (Normal 0, ([], w'))
        ∧ ∃ sent, kills (w_trace w') = (kills (w_trace w) ++ sent)%list
                  ∧ sent ≡ₚ [(A, sig); (B, sig); (C, sig)].
Proof.
  intros Hperm _ _.
  destruct (killAllTrackedProcesses_spec sig t w) as (w' & Hrun & Htr).
  exists w'. split; [done|]. split; [done|].
  eexists. split; [exact Htr|].
  change [(A, sig); (B, sig); (C, sig)] with (map (λ p : Z, (p, sig)) [A; B; C]).
  rewrite <- Hperm. rewrite map_map. done.
Qed.

Lemma killAll_continues_past_ESRCH_witness :
  ∃ w', killAllTrackedProcesses SIGTERM (three_tracked, esrch_for_102) = (Normal tt, ([], w'))
        ∧ getTrackedCount ([], w') = (Normal 0, ([], w'))
        ∧ ∃ sent, kills (w_trace w') = (kills (w_trace esrch_for_102) ++ sent)%list
                  ∧ sent ≡ₚ [(101, SIGTERM); (102, SIGTERM); (103, SIGTERM)].
Proof.
  apply (killAll_continues_past_ESRCH three_tracked esrch_for_102 SIGTERM 101 102 103
           (mkErrno (Some "ESRCH") "kill ESRCH")); reflexivity.
Defined.

(** C10.  [killProcess] on a tracked pid returns [true] and untracks the
    pid whatever [process.kill] does (it may throw any error); on an
    untracked pid it returns [false], sends nothing and changes nothing. *)
Theorem killProcess_spec (t : tracked_map) (w : World) (p : Z) (sig : KillSignal) :
  (map_has p t = true →
     ∃ w', killProcess p sig (t, w) = (Normal true, (map_delete p t, w'))
           ∧ isTracked p (map_delete p t, w') = (Normal false, (map_delete p t, w'))
           ∧ kills (w_trace w') = (kills (w_trace w) ++ [(p, sig)])%list)
  ∧ (map_has p t = false → killProcess p sig (t, w) = (Normal false, (t, w))).
Proof.
  unfold map_has. split; intros Hhas.
  - destruct (map_get p t) as [i|] eqn:Hget; [|done].
    destruct (attempt_kill_spec p i sig t w) as (w' & Hrun & _ & Htr).
    exists w'. unfold killProcess, isTracked, this, gets, mbind, M_bind, bind. simpl.
    rewrite Hget. unfold mbind, M_bind, bind. rewrite Hrun. simpl.
    split; [done|]. split; [|done].
    unfold map_has. by rewrite map_get_delete_eq.
  - destruct (map_get p t) as [i|] eqn:Hget; [done|].
    unfold killProcess, this, gets, mbind, M_bind, bind. simpl. by rewrite Hget.
Qed.

Lemma killProcess_spec_witness :
  (∃ w', killProcess 102 SIGTERM (three_tracked, always_fails)
           = (Normal true, (map_delete 102 three_tracked, w'))
         ∧ isTracked 102 (map_delete 102 three_tracked, w')
           = (Normal false, (map_delete 102 three_tracked, w'))
         ∧ kills (w_trace w') = (kills (w_trace always_fails) ++ [(102, SIGTERM)])%list)
  ∧ killProcess 7 SIGTERM (three_tracked, always_fails) = (Normal false, (three_tracked, always_fails)).
Proof.
  split.
  - apply (killProcess_spec three_tracked always_fails 102 SIGTERM). reflexivity.
  - apply (killProcess_spec three_tracked always_fails 7 SIGTERM). reflexivity.
Defined.

End ProcessTrackerFacts.

(** * Further properties of the process tracker *)

Section TrackerRegistry.
Import Eff ProcessTracker TrackerScenario TrackerClient.

Lemma map_get_set_eq (p : Z) (v : ProcessInfo) (t : tracked_map) :
  map_get p (map_set p v t) = Some v.
Proof.
  unfold map_get. induction t as [|[k i] t IH]; simpl.
  - by rewrite bool_decide_eq_true_2.
  - destruct (bool_decide (k = p)) eqn:Hk; simpl.
    + by rewrite bool_decide_eq_true_2.
    + by rewrite Hk.
Qed.

Lemma map_get_set_ne (p q : Z) (v : ProcessInfo) (t : tracked_map) :
  q ≠ p → map_get q (map_set p v t) = map_get q t.
Proof.
  intros Hne. unfold map_get. induction t as [|[k i] t IH]; simpl.
  - by rewrite bool_decide_eq_false_2.
  - destruct (bool_decide (k = p)) eqn:Hk; simpl.
    + apply bool_decide_eq_true in Hk as ->.
      by rewrite !bool_decide_eq_false_2.
    + destruct (bool_decide (k = q)); [done|exact IH].
Qed.

Lemma map_get_delete_ne (p q : Z) (t : tracked_map) :
  q ≠ p → map_get q (map_delete p t) = map_get q t.
Proof.
  intros Hne. unfold map_get, map_delete. induction t as [|[k i] t IH]; simpl; [done|].
  destruct (bool_decide (k = p)) eqn:Hk; simpl.
  - apply bool_decide_eq_true in Hk as ->. by rewrite bool_decide_eq_false_2.
  - destruct (bool_decide (k = q)); [done|exact IH].
Qed.

Lemma map_has_keys (p : Z) (t : tracked_map) : map_has p t = true ↔ p ∈ map fst t.
Proof.
  unfold map_has, map_get. induction t as [|[k i] t IH]; simpl.
  - split; [done|]. by intros ?%elem_of_nil.
  - rewrite elem_of_cons. destruct (bool_decide (k = p)) eqn:Hk; simpl.
    + apply bool_decide_eq_true in Hk. split; [by left|done].
    + apply bool_decide_eq_false in Hk. rewrite IH. split; [by right|].
      intros [->|]; done.
Qed.

Lemma map_has_false_keys (p : Z) (t : tracked_map) : map_has p t = false ↔ p ∉ map fst t.
Proof.
  rewrite <- map_has_keys. destruct (map_has p t); split; done.
Qed.

Lemma keys_set (p : Z) (v : ProcessInfo) (t : tracked_map) :
  map fst (map_set p v t) = if map_has p t then map fst t else (map fst t ++ [p])%list.
Proof.
  unfold map_has, map_get. induction t as [|[k i] t IH]; simpl; [done|].
  destruct (bool_decide (k = p)) eqn:Hk; simpl.
  - apply bool_decide_eq_true in Hk as ->. done.
  - rewrite IH. by destruct (List.find _ t).
Qed.

Lemma keys_delete (p : Z) (t : tracked_map) :
  map fst (map_delete p t) = List.filter (λ k, negb (bool_decide (k = p))) (map fst t).
Proof.
  unfold map_delete. induction t as [|[k i] t IH]; simpl; [done|].
  destruct (bool_decide (k = p)); simpl; by rewrite IH.
Qed.

Lemma NoDup_filter_keys (f : Z → bool) (ks : list Z) : NoDup ks → NoDup (List.filter f ks).
Proof.
  induction 1 as [|k ks Hk Hnd IH]; simpl; [constructor|].
  destruct (f k); [|done]. constructor; [|done].
  intros Hin. apply Hk. apply list_elem_of_In in Hin. apply filter_In in Hin as [Hin _].
  by apply list_elem_of_In.
Qed.

Lemma Forall_map_delete (P : Z * ProcessInfo → Prop) (p : Z) (t : tracked_map) :
  Forall P t → Forall P (map_delete p t).
Proof.
  unfold map_delete. induction 1 as [|e t He Ht IH]; simpl; [constructor|].
  destruct (negb _); [by constructor|done].
Qed.

Lemma map_delete_absent (p : Z) (t : tracked_map) : map_has p t = false → map_delete p t = t.
Proof.
  rewrite map_has_false_keys. unfold map_delete.
  induction t as [|[k i] t IH]; simpl; [done|].
  rewrite not_elem_of_cons. intros [Hne Hnot].
  rewrite bool_decide_eq_false_2 by done. simpl. by rewrite IH.
Qed.

Lemma map_delete_set (p : Z) (v : ProcessInfo) (t : tracked_map) :
  map_has p t = false → map_delete p (map_set p v t) = t.
Proof.
  rewrite map_has_false_keys. unfold map_delete.
  induction t as [|[k i] t IH]; simpl.
  - intros _. by rewrite bool_decide_eq_true_2.
  - rewrite not_elem_of_cons. intros [Hne Hnot].
    rewrite (bool_decide_eq_false_2 (k = p)) by done. simpl.
    rewrite (bool_decide_eq_false_2 (k = p)) by done. simpl. by rewrite IH.
Qed.

Lemma length_delete (p : Z) (t : tracked_map) :
  NoDup (map fst t) → map_has p t = true →
  S (length (map_delete p t)) = length t.
Proof.
  unfold map_delete. induction t as [|[k i] t IH]; simpl.
  - intros _ Hhas. done.
  - intros Hnd%NoDup_cons Hhas. destruct Hnd as [Hk Hnd].
    destruct (bool_decide (k = p)) eqn:Hkp; simpl.
    + apply bool_decide_eq_true in Hkp as ->.
      fold (map_delete p t). rewrite map_delete_absent; [done|].
      by apply map_has_false_keys.
    + f_equal. apply IH; [done|].
      unfold map_has, map_get in *. simpl in Hhas. by rewrite Hkp in Hhas.
Qed.

Lemma trackProcess_run (t : tracked_map) (w : World) (p : Z) (nm : string) :
  ∃ w', trackProcess p nm (t, w)
        = (Normal tt, (map_set p (mkProcessInfo p nm (w_now w)) t, w'))
        ∧ kills (w_trace w') = kills (w_trace w).
Proof.
  unfold trackProcess, this, update, emit, mbind, M_bind, bind, gets, modify, mret, M_ret, ret.
  cbn [fst snd].
  destruct (map_has p t); cbn [fst snd w_now w_trace w_kill];
    eexists; (split; [reflexivity|]);
    cbn [w_trace]; rewrite ?kills_app; simpl; by rewrite ?app_nil_r.
Qed.

(** X1.  [trackProcess] always returns; afterwards the pid is tracked
    with the given name and the current time, every other pid is as it
    was, a new pid is listed last while a pid already tracked keeps its
    place (the count does not change), and no signal has been sent. *)
Theorem trackProcess_registers (t : tracked_map) (w : World) (p : Z) (nm : string) :
  ∃ t' w',
    trackProcess p nm (t, w) = (Normal tt, (t', w'))
    ∧ isTracked p (t', w') = (Normal true, (t', w'))
    ∧ getProcessInfo p (t', w') = (Normal (Some (mkProcessInfo p nm (w_now w))), (t', w'))
    ∧ (∀ q, q ≠ p → getProcessInfo q (t', w') = (Normal (map_get q t), (t', w')))
    ∧ getTrackedPids (t', w')
      = (Normal (if map_has p t then map fst t else (map fst t ++ [p])%list), (t', w'))
    ∧ getTrackedCount (t', w')
      = (Normal (if map_has p t then map_size t else map_size t + 1), (t', w'))
    ∧ kills (w_trace w') = kills (w_trace w).
Proof.
  unfold trackProcess, isTracked, getProcessInfo, getTrackedPids, getTrackedCount,
    this, update, emit, mbind, M_bind, bind, gets, modify, mret, M_ret, ret.
  cbn [fst snd].
  set (v := mkProcessInfo p nm (w_now w)).
  assert (map_size (map_set p v t) = if map_has p t then map_size t else map_size t + 1)
    as Hsize.
  { unfold map_size. rewrite <- (length_map fst (map_set p v t)), keys_set.
    destruct (map_has p t); rewrite ?length_app, length_map; simpl; lia. }
  subst v.
  destruct (map_has p t) eqn:Hhas; cbn [fst snd w_now w_trace w_kill];
    eexists _, _; (split; [reflexivity|]); cbn [fst snd];
    (split; [by unfold map_has; rewrite map_get_set_eq|]);
    (split; [by rewrite map_get_set_eq|]);
    (split; [by intros q Hq; rewrite map_get_set_ne|]);
    (split; [by rewrite keys_set, Hhas|]);
    (split; [by rewrite Hsize|]);
    cbn [w_trace]; rewrite ?kills_app; simpl; by rewrite ?app_nil_r.
Qed.

(** X2.  [untrackProcess] on a pid that is not tracked changes nothing
    and prints nothing; on a tracked pid it removes that pid only, sends
    no signal, and the count drops by one. *)
Theorem untrackProcess_spec (t : tracked_map) (w : World) (p : Z) :
  (map_has p t = false → untrackProcess p (t, w) = (Normal tt, (t, w)))
  ∧ (map_has p t = true →
       ∃ t' w',
         untrackProcess p (t, w) = (Normal tt, (t', w'))
         ∧ isTracked p (t', w') = (Normal false, (t', w'))
         ∧ (∀ q, q ≠ p → getProcessInfo q (t', w') = (Normal (map_get q t), (t', w')))
         ∧ kills (w_trace w') = kills (w_trace w)
         ∧ (NoDup (map fst t) →
              getTrackedCount (t', w') = (Normal (map_size t - 1), (t', w')))).
Proof.
  unfold untrackProcess, isTracked, getProcessInfo, getTrackedCount, map_has,
    this, update, emit, mbind, M_bind, bind, gets, modify, mret, M_ret, ret.
  cbn [fst snd]. split; intros Hhas.
  - by destruct (map_get p t).
  - destruct (map_get p t) as [i|] eqn:Hget; [|done]. cbn [fst snd].
    eexists _, _. split; [reflexivity|]. cbn [fst snd w_trace].
    split; [by rewrite map_get_delete_eq|].
    split; [by intros q Hq; rewrite map_get_delete_ne|].
    split; [rewrite kills_app; simpl; by rewrite app_nil_r|].
    intros Hnd. do 2 f_equal. unfold map_size.
    rewrite <- (length_delete p t Hnd); [lia|]. unfold map_has. by rewrite Hget.
Qed.

Lemma untrackProcess_spec_witness :
  untrackProcess 7 (three_tracked, calm) = (Normal tt, (three_tracked, calm))
  ∧ ∃ t' w',
      untrackProcess 102 (three_tracked, calm) = (Normal tt, (t', w'))
      ∧ isTracked 102 (t', w') = (Normal false, (t', w'))
      ∧ getTrackedCount (t', w') = (Normal 2, (t', w')).
Proof.
  destruct (untrackProcess_spec three_tracked calm 7) as [Hno _].
  destruct (untrackProcess_spec three_tracked calm 102) as [_ Hyes].
  split; [apply Hno; reflexivity|].
  destruct Hyes as (t' & w' & Hrun & Hgone & _ & _ & Hcount); [reflexivity|].
  exists t', w'. split; [exact Hrun|]. split; [exact Hgone|].
  apply Hcount. compute_done.
Defined.

(** X3.  Tracking a pid that was not tracked and untracking it again
    gives back the tracker as it was. *)
Theorem track_untrack_restores (t : tracked_map) (w : World) (p : Z) (nm : string) :
  map_has p t = false →
  fst (snd (untrackProcess p (snd (trackProcess p nm (t, w))))) = t.
Proof.
  intros Hhas.
  unfold trackProcess, untrackProcess, this, update, emit, mbind, M_bind, bind, gets, modify,
    mret, M_ret, ret.
  cbn [fst snd]. rewrite Hhas. cbn [fst snd].
  rewrite map_get_set_eq. cbn [fst snd].
  by apply map_delete_set.
Qed.

Lemma track_untrack_restores_witness :
  fst (snd (untrackProcess 7 (snd (trackProcess 7 "worker" (three_tracked, calm)))))
  = three_tracked.
Proof. apply (track_untrack_restores three_tracked calm 7 "worker"). reflexivity. Defined.

Lemma map_get_wf (q : Z) (t : tracked_map) :
  Forall (λ e, pid (snd e) = fst e) t → q ∈ map fst t →
  ∃ i, map_get q t = Some i ∧ pid i = q.
Proof.
  unfold map_get. intros Hpid Hq.
  induction t as [|[k i] t IH]; cbn [map fst List.find] in *; [by apply elem_of_nil in Hq|].
  apply Forall_cons in Hpid as [Hk Hpid]. cbn [fst snd] in Hk.
  destruct (bool_decide (k = q)) eqn:Hkq.
  - apply bool_decide_eq_true in Hkq as <-. exists i. done.
  - apply bool_decide_eq_false in Hkq. apply elem_of_cons in Hq as [->|Hq]; [done|].
    by apply IH.
Qed.

(** What one call of a client does to the map and which signals it
    sends. *)
Lemma run_op_spec (o : op) (t : tracked_map) (w : World) :
  ∃ w', snd (run_op o (t, w))
        = (match o with
           | Track p nm => map_set p (mkProcessInfo p nm (w_now w)) t
           | Untrack p | KillOne p _ => map_delete p t
           | KillAll _ | ForceKillAll => []
           end, w')
        ∧ kills (w_trace w')
          = (kills (w_trace w)
             ++ match o with
                | Track _ _ | Untrack _ => []
                | KillOne p sig => if map_has p t then [(p, sig)] else []
                | KillAll sig => map (λ e, (fst e, sig)) t
                | ForceKillAll => map (λ e, (fst e, SIGKILL)) t
                end)%list.
Proof.
  destruct o as [p nm|p|p sig|sig|]; cbn [run_op].
  - destruct (trackProcess_run t w p nm) as (w' & -> & Hk).
    exists w'. by rewrite Hk, app_nil_r.
  - destruct (map_has p t) eqn:Hhas.
    + unfold untrackProcess, this, update, emit, mbind, M_bind, bind, gets, modify.
      unfold map_has in Hhas. cbn [fst snd].
      destruct (map_get p t); [|done]. cbn [fst snd].
      eexists. split; [reflexivity|]. cbn [w_trace]. rewrite kills_app. done.
    + exists w. rewrite app_nil_r, (map_delete_absent p t Hhas).
      unfold untrackProcess, this, mbind, M_bind, bind, gets. unfold map_has in Hhas.
      cbn [fst snd]. by destruct (map_get p t).
  - unfold killProcess, this, update, mbind, M_bind, bind, gets, modify, mret, M_ret, ret.
    cbn [fst snd]. unfold map_has.
    destruct (map_get p t) as [i|] eqn:Hget; cbn [fst snd].
    + destruct (attempt_kill_spec p i sig t w) as (w' & -> & _ & Hk).
      cbn [fst snd]. by exists w'.
    + exists w. rewrite app_nil_r, map_delete_absent; [done|].
      unfold map_has. by rewrite Hget.
  - destruct (killAllTrackedProcesses_spec sig t w) as (w' & -> & Hk). by exists w'.
  - destruct (killAllTrackedProcesses_spec SIGKILL t w) as (w' & Hrun & Hk).
    unfold forceKillAll. rewrite Hrun. by exists w'.
Qed.

(** X4.  Whatever a client does with a new tracker, the tracked pids are
    pairwise distinct, the count is their number, and the information
    stored for a tracked pid carries that pid. *)
Theorem tracker_pids_stay_distinct (os : list op) (w : World) :
  let s := run_ops os ([], w) in
  ∃ pids,
    getTrackedPids s = (Normal pids, s)
    ∧ NoDup pids
    ∧ getTrackedCount s = (Normal (Z.of_nat (length pids)), s)
    ∧ ∀ q, q ∈ pids → ∃ i, getProcessInfo q s = (Normal (Some i), s) ∧ pid i = q.
Proof.
  cbn zeta.
  assert (∀ os t w0, tracker_wf t → tracker_wf (fst (run_ops os (t, w0)))) as Hinv.
  { clear. induction os as [|o os IH]; intros t w0 Hwf; [done|].
    cbn [run_ops]. destruct (run_op_spec o t w0) as (w' & -> & _).
    apply IH. destruct Hwf as [Hnd Hpid].
    destruct o as [p nm|p|p sig|sig|].
    - split.
      + rewrite keys_set. destruct (map_has p t) eqn:Hhas; [done|].
        apply NoDup_app. split; [done|]. split; [|apply NoDup_singleton].
        intros x Hx ->%list_elem_of_singleton. by apply map_has_false_keys in Hhas.
      + clear Hnd. induction t as [|[k i] t IHt]; cbn [map_set].
        * by repeat constructor.
        * apply Forall_cons in Hpid as [Hk Hpid].
          destruct (bool_decide (k = p)); constructor; auto.
    - split; [rewrite keys_delete; by apply NoDup_filter_keys|].
      by apply Forall_map_delete.
    - split; [rewrite keys_delete; by apply NoDup_filter_keys|].
      by apply Forall_map_delete.
    - split; [apply NoDup_nil_2|constructor].
    - split; [apply NoDup_nil_2|constructor]. }
  assert (∀ s : State, tracker_wf (fst s) →
            ∃ pids,
              getTrackedPids s = (Normal pids, s)
              ∧ NoDup pids
              ∧ getTrackedCount s = (Normal (Z.of_nat (length pids)), s)
              ∧ ∀ q, q ∈ pids → ∃ i, getProcessInfo q s = (Normal (Some i), s) ∧ pid i = q)
    as Hgen.
  { clear. intros [t w'] [Hnd Hpid]. cbn [fst] in *.
    exists (map fst t). split; [done|]. split; [done|].
    split; [unfold getTrackedCount, this, gets, map_size; cbn [fst]; by rewrite length_map|].
    intros q Hq. unfold getProcessInfo, this, gets. cbn [fst].
    destruct (map_get_wf q t) as (i & -> & Hi); [done|done|]. by exists i. }
  apply Hgen, Hinv. split; [apply NoDup_nil_2|constructor].
Qed.

(** X5.  Every signal that a call of a client sends goes to a pid that
    was tracked when the call was made, and that pid is no longer tracked
    when the call returns; tracking and untracking send no signal. *)
Theorem signals_go_to_tracked_pids_only (o : op) (t : tracked_map) (w : World) :
  ∃ sent,
    kills (w_trace (snd (snd (run_op o (t, w))))) = (kills (w_trace w) ++ sent)%list
    ∧ (∀ q sig, (q, sig) ∈ sent →
         map_has q t = true ∧ map_has q (fst (snd (run_op o (t, w)))) = false)
    ∧ match o with
      | Track _ _ | Untrack _ => sent = []
      | _ => True
      end.
Proof.
  destruct (run_op_spec o t w) as (w' & -> & Hk). cbn [fst snd].
  eexists. split; [exact Hk|].
  assert (∀ (sig : KillSignal) (q : Z) (sig' : KillSignal), (q, sig') ∈ map (λ e : Z * ProcessInfo, (fst e, sig)) t →
                        map_has q t = true) as Hall.
  { intros sig q sig' Hin. apply list_elem_of_fmap in Hin as ([k i] & [= -> ->] & Hin).
    apply map_has_keys. apply list_elem_of_fmap. by exists (k, i). }
  destruct o as [p nm|p|p sig|sig|]; (split; [|done]); intros q sig' Hin.
  - by apply elem_of_nil in Hin.
  - by apply elem_of_nil in Hin.
  - destruct (map_has p t) eqn:Hhas; [|by apply elem_of_nil in Hin].
    apply list_elem_of_singleton in Hin as [= -> ->]. split; [done|].
    unfold map_has. by rewrite map_get_delete_eq.
  - split; [by eapply Hall|done].
  - split; [by eapply Hall|done].
Qed.

(** X6.  [forceKillAll] never throws, whatever the operating system
    answers: it sends SIGKILL, and no other signal, once to every tracked
    pid in the order of tracking and leaves the tracker empty; on an empty
    tracker it sends nothing and only reports that there is nothing to
    kill. *)
Theorem forceKillAll_sends_SIGKILL (t : tracked_map) (w : World) :
  ∃ w',
    forceKillAll (t, w) = (Normal tt, ([], w'))
    ∧ kills (w_trace w') = (kills (w_trace w) ++ map (λ e, (fst e, SIGKILL)) t)%list
    ∧ (t = [] →
       w_trace w' = (w_trace w ++ [ConsoleLog "[ProcessTracker] No tracked processes to kill"])%list).
Proof.
  destruct (killAllTrackedProcesses_spec SIGKILL t w) as (w' & Hrun & Hk).
  exists w'. split; [exact Hrun|]. split; [exact Hk|].
  intros ->. unfold killAllTrackedProcesses, this, emit, mbind, M_bind, bind, gets, modify in Hrun.
  cbn in Hrun. by injection Hrun as <-.
Qed.

Lemma forceKillAll_sends_SIGKILL_witness :
  ∃ w',
    forceKillAll ([], calm) = (Normal tt, ([], w'))
    ∧ kills (w_trace w') = []
    ∧ w_trace w' = [ConsoleLog "[ProcessTracker] No tracked processes to kill"].
Proof.
  destruct (forceKillAll_sends_SIGKILL [] calm) as (w' & Hrun & Hk & Htr).
  exists w'. split; [exact Hrun|]. split; [exact Hk|]. by apply Htr.
Defined.

End TrackerRegistry.

Section TrackerSingletonFacts.
Import Eff ProcessTracker TrackerSingleton TrackerClient.

Lemma on_tracker_run {A} (r : positive) (m : M State ErrnoException A) (g : Singleton) (w : World)
    (t : tracked_map) (res : completion ErrnoException A) (t' : tracked_map) (w' : World) :
  trackers g !! r = Some t →
  m (t, w) = (res, (t', w')) →
  on r m (g, w) = (res, (mkSingleton (<[r := t']> (trackers g)) (processTrackerInstance g), w')).
Proof. intros Ht Hm. unfold on. cbn [fst snd]. by rewrite Ht, Hm. Qed.

(** X7.  [getProcessTracker] hands out one and the same tracker until it
    is disposed: a second call returns the reference of the first and
    changes nothing; the first call makes a new, empty tracker; neither
    touches the outside world. *)
Theorem getProcessTracker_is_singleton (s : SState) :
  ∃ r s',
    getProcessTracker s = (Normal r, s')
    ∧ getProcessTracker s' = (Normal r, s')
    ∧ snd s' = snd s
    ∧ (processTrackerInstance (fst s) = None →
       trackers (fst s) !! r = None ∧ trackers (fst s') !! r = Some []).
Proof.
  destruct s as [g w].
  unfold getProcessTracker, mbind, M_bind, bind, gets, modify, mret, M_ret, ret.
  cbn [fst snd].
  destruct (processTrackerInstance g) as [r|] eqn:Hi; cbn [fst snd].
  - exists r, (g, w). cbn [fst snd]. rewrite Hi. done.
  - eexists _, _. split; [reflexivity|]. cbn [fst snd processTrackerInstance trackers].
    split; [done|]. split; [done|]. intros _.
    split; [apply not_elem_of_dom, is_fresh|apply lookup_insert_eq].
Qed.

(** X8.  [disposeProcessTracker] on the global tracker sends SIGTERM
    once to every pid it tracks, in the order of tracking, empties it and
    forgets it: disposing again does nothing at all, and the next
    [getProcessTracker] makes a new, empty tracker that is not the old
    one. *)
Theorem disposeProcessTracker_spec (s : SState) (r : positive) (t : tracked_map) :
  processTrackerInstance (fst s) = Some r →
  trackers (fst s) !! r = Some t →
  ∃ s',
    disposeProcessTracker s = (Normal tt, s')
    ∧ kills (w_trace (snd s'))
      = (kills (w_trace (snd s)) ++ map (λ e, (fst e, SIGTERM)) t)%list
    ∧ trackers (fst s') !! r = Some []
    ∧ processTrackerInstance (fst s') = None
    ∧ disposeProcessTracker s' = (Normal tt, s')
    ∧ ∃ r' s'', getProcessTracker s' = (Normal r', s'')
                ∧ r' ≠ r
                ∧ trackers (fst s'') !! r' = Some [].
Proof.
  destruct s as [g w]. cbn [fst snd]. intros Hi Ht.
  destruct (killAllTrackedProcesses_spec SIGTERM t w) as (w' & Hrun & Hk).
  unfold disposeProcessTracker, getProcessTracker, mbind, M_bind, bind, gets, modify,
    mret, M_ret, ret.
  cbn [fst snd]. rewrite Hi. rewrite (on_tracker_run r _ g w t _ _ _ Ht Hrun).
  cbn [fst snd trackers processTrackerInstance w_trace w_kill w_now].
  eexists. split; [reflexivity|].
  cbn [fst snd trackers processTrackerInstance w_trace w_kill w_now].
  split; [rewrite kills_app, Hk; simpl; by rewrite app_nil_r|].
  split; [apply lookup_insert_eq|]. split; [done|]. split; [done|].
  eexists _, _. split; [reflexivity|]. cbn [fst snd trackers].
  split; [|apply lookup_insert_eq].
  intros Heq.
  match type of Heq with fresh ?X = _ => pose proof (is_fresh X) as Hfresh end.
  rewrite Heq in Hfresh. apply Hfresh. apply elem_of_dom. rewrite lookup_insert_eq. eauto.
Qed.

Lemma disposeProcessTracker_spec_witness :
  let s := (mkSingleton {[1%positive := one_tracked]} (Some 1%positive), calm) in
  ∃ s',
    disposeProcessTracker s = (Normal tt, s')
    ∧ kills (w_trace (snd s')) = [(7, SIGTERM)]
    ∧ processTrackerInstance (fst s') = None
    ∧ disposeProcessTracker s' = (Normal tt, s').
Proof.
  cbn zeta.
  destruct (disposeProcessTracker_spec
              (mkSingleton {[1%positive := one_tracked]} (Some 1%positive), calm)
              1%positive one_tracked)
    as (s' & Hrun & Hk & _ & Hnone & Hagain & _); [reflexivity|reflexivity|].
  exists s'. split; [exact Hrun|]. split; [exact Hk|]. split; [exact Hnone|exact Hagain].
Defined.

End TrackerSingletonFacts.

(** * Further properties of the logger *)

Import MoreScenarios.

(** *** Appends and stats that fail or succeed *)

Lemma appendFileSync_ok (l : Logger) (w : World) (p c : string) :
  w_faults w = [] → w_fs w !! p ≠ Some Dir →
  lift (appendFileSync p c) (l, w)
  = (Normal tt,
     (l, set_fs (<[p := File (file_content (w_fs w) p +:+ c)]> (w_fs w))
           (set_trace (w_trace w ++ [AppendFileSync p c]) w))).
Proof.
  intros Hf Hp.
  unfold lift, appendFileSync, file_content, emit, fault, mbind, M_bind, bind, gets, modify,
    throw, mret, M_ret, ret.
  simpl. rewrite Hf. simpl. by destruct (w_fs w !! p) as [[]|].
Qed.

Lemma appendFileSync_fails (l : Logger) (w : World) (p c : string) (e : exn)
    (rest : list (option exn)) :
  w_faults w = Some e :: rest →
  lift (appendFileSync p c) (l, w)
  = (Throw e, (l, set_faults rest (set_trace (w_trace w ++ [AppendFileSync p c]) w))).
Proof.
  intros Hf.
  unfold lift, appendFileSync, emit, fault, mbind, M_bind, bind, gets, modify, throw.
  simpl. by rewrite Hf.
Qed.

Lemma statSync_fails (l : Logger) (w : World) (p : string) (e : exn)
    (rest : list (option exn)) :
  w_faults w = Some e :: rest →
  lift (statSync p) (l, w)
  = (Throw e, (l, set_faults rest (set_trace (w_trace w ++ [StatSync p]) w))).
Proof.
  intros Hf.
  unfold lift, statSync, emit, fault, mbind, M_bind, bind, gets, modify, throw.
  simpl. by rewrite Hf.
Qed.

(** X9.  With file logging off, a message that passes the threshold
    makes exactly one console call, on the channel of its severity, with
    the text [[time] [LEVEL] [module] message] followed by the context
    when the context is truthy; nothing else happens. *)
Theorem console_only_logging
    (l : Logger) (w : World) (lvl : LogLevel) (message : string) (context : value) :
  fileLogging (options l) = false →
  passes l lvl →
  log lvl message context (l, w)
  = (Normal tt,
     (l, set_trace
           (w_trace w
            ++ [Console (channel_of lvl)
                  ([AVal (VString ("[" +:+ w_now w +:+ "] [" +:+ LOG_LEVEL_NAMES lvl +:+ "] ["
                                   +:+ moduleName l +:+ "] " +:+ message))]
                   ++ (if truthy context then [AVal context] else []))])%list w)).
Proof.
  intros Hoff Hpass. unfold log. run.
  replace (level_value lvl <? level_value (level (options l))) with false
    by (symmetry; apply Z.ltb_ge; exact Hpass).
  unfold formatTimestamp, lift at 1. run.
  rewrite consoleLog_run. run. rewrite Hoff. run.
  unfold console_args. by rewrite !append_assoc.
Qed.

Lemma console_only_logging_witness :
  let l := fst (snd (new_Logger "net" no_options ready_world)) in
  log WARN "slow" (VNumber 0) (l, ready_world)
  = (Normal tt,
     (l, set_trace [Console ConsoleWarn
                      [AVal (VString "[2026-01-01T00:00:00.000Z] [WARN] [net] slow")]]
           ready_world)).
Proof.
  cbn zeta.
  apply (console_only_logging (fst (snd (new_Logger "net" no_options ready_world)))
           ready_world WARN "slow" (VNumber 0)).
  - reflexivity.
  - vm_compute. discriminate.
Defined.

(** X10.  [setLevel] changes the threshold and nothing else: [getLevel]
    then answers the new level, file logging is enabled as before, every
    method of a lower severity has no effect at all, and every message of
    that severity or above is written to the console channel of its
    severity first. *)
Theorem setLevel_takes_effect (l : Logger) (w : World) (lvl : LogLevel) :
  ∃ l',
    setLevel lvl (l, w) = (Normal tt, (l', w))
    ∧ getLevel (l', w) = (Normal lvl, (l', w))
    ∧ isFileLoggingEnabled (l', w) = (Normal (fileLogging (options l)), (l', w))
    ∧ (∀ S1 message context w1,
         level_value S1 < level_value lvl →
         method S1 message context (l', w1) = (Normal tt, (l', w1)))
    ∧ (∀ S2 message context w1,
         level_value lvl ≤ level_value S2 →
         ∃ r l2 w2 evs,
           log S2 message context (l', w1) = (r, (l2, w2))
           ∧ w_trace w2
             = (w_trace w1
                ++ Console (channel_of S2)
                     (console_args (prefix_of l (w_now w1) S2) message context) :: evs)%list).
Proof.
  exists (set_options (set_level lvl (options l)) l).
  split; [reflexivity|]. split; [reflexivity|]. split; [reflexivity|]. split.
  - intros S1 message context w1 Hlt.
    assert (log S1 message context (set_options (set_level lvl (options l)) l, w1)
            = (Normal tt, (set_options (set_level lvl (options l)) l, w1))) as Hlog.
    { unfold log. run. cbn [level set_level].
      by replace (level_value S1 <? level_value lvl) with true
        by (symmetry; by apply Z.ltb_lt). }
    destruct S1; try exact Hlog.
    destruct lvl; cbn in Hlt; lia.
  - intros S2 message context w1 Hge.
    destruct (log_console (set_options (set_level lvl (options l)) l) w1 S2 message context)
      as (r & l2 & w2 & Hrun & _ & evs & Htr); [exact Hge|].
    by exists r, l2, w2, evs.
Qed.

(** *** Failures of the file system *)

(** X11.  When [appendFileSync] throws, the write is reported on the
    error channel and dropped: no exception reaches the caller and the
    file system is as before.  A [flush] whose append fails has emptied
    the buffer all the same, so the buffered lines are lost. *)
Theorem write_failure_is_absorbed
    (l : Logger) (w : World) (logFile : string) (e : exn) (rest : list (option exn)) :
  path_of (logFilePath l) = Some logFile →
  is_Some (path_of (logsDir l)) →
  logWriteCount l + 1 < rotationCheckInterval (options l) →
  w_faults w = Some e :: rest →
  (∀ content,
     ∃ l' w',
       writeToFile content (l, w) = (Normal tt, (l', w'))
       ∧ w_fs w' = w_fs w
       ∧ w_trace w'
         = (w_trace w ++ [AppendFileSync logFile content;
                          report "[Logger] Failed to write to log file:" e])%list)
  ∧ (logBuffer l ≠ [] →
     ∃ l' w',
       flush (l, w) = (Normal tt, (l', w'))
       ∧ logBuffer l' = []
       ∧ w_fs w' = w_fs w
       ∧ w_trace w'
         = (w_trace w ++ [AppendFileSync logFile (join EmptyString (logBuffer l));
                          report "[Logger] Failed to write to log file:" e])%list).
Proof.
  intros Hp [dir Hd] Hcount Hf.
  assert (∀ l0 content,
            path_of (logFilePath l0) = Some logFile →
            path_of (logsDir l0) = Some dir →
            logWriteCount l0 + 1 < rotationCheckInterval (options l0) →
            writeToFile content (l0, w)
            = (Normal tt,
               (set_logWriteCount (logWriteCount l0 + 1) l0,
                set_trace ((w_trace w ++ [AppendFileSync logFile content])
                           ++ [report "[Logger] Failed to write to log file:" e])
                  (set_faults rest (set_trace (w_trace w ++ [AppendFileSync logFile content]) w)))))
    as Hwrite.
  { intros l0 content Hp0 Hd0 Hc0. unfold writeToFile. run. rewrite Hp0, Hd0. run.
    replace (rotationCheckInterval (options l0) <=? logWriteCount l0 + 1) with false
      by (symmetry; apply Z.leb_gt; lia).
    run. rewrite (appendFileSync_fails _ _ _ _ e rest) by exact Hf. run.
    rewrite console_run. by autorewrite with world. }
  split.
  - intros content. rewrite Hwrite by done. eexists _, _. split; [reflexivity|].
    autorewrite with world. split; [done|]. by rewrite <- app_assoc.
  - intros Hbuf. unfold flush, flushBuffer. run.
    destruct (logBuffer l) as [|line buf] eqn:Hb; [done|]. run.
    rewrite Hwrite by done. eexists _, _. split; [reflexivity|].
    cbn [logBuffer set_logWriteCount set_logBuffer]. autorewrite with world.
    split; [done|]. split; [done|]. by rewrite <- app_assoc.
Qed.

Lemma write_failure_is_absorbed_witness :
  let l := set_logBuffer [first_line] buffering_logger in
  let w := set_faults [Some (SysError "ENOSPC" "write" "/home/u/logs/app.log")] ready_world in
  ∃ l' w',
    flush (l, w) = (Normal tt, (l', w'))
    ∧ logBuffer l' = []
    ∧ w_fs w' = w_fs w.
Proof.
  cbn zeta.
  destruct (write_failure_is_absorbed (set_logBuffer [first_line] buffering_logger)
              (set_faults [Some (SysError "ENOSPC" "write" "/home/u/logs/app.log")] ready_world)
              "/home/u/logs/app.log" (SysError "ENOSPC" "write" "/home/u/logs/app.log") [])
    as [_ Hflush]; [reflexivity|eexists; reflexivity|reflexivity|reflexivity|].
  destruct Hflush as (l' & w' & Hrun & Hb & Hfs & _); [discriminate|].
  exists l', w'. split; [exact Hrun|]. split; [exact Hb|exact Hfs].
Defined.

(** X12.  A rotation check that fails does not cost the entry: when
    [statSync] throws, the failure is reported on the error channel and
    the write goes on; the content is appended to the live file and the
    write counter starts again from zero. *)
Theorem failed_rotation_check_still_writes
    (l : Logger) (w : World) (logFile old content : string) (e : exn) :
  path_of (logFilePath l) = Some logFile →
  is_Some (path_of (logsDir l)) →
  rotationCheckInterval (options l) ≤ logWriteCount l + 1 →
  w_faults w = [Some e] →
  w_fs w !! logFile = Some (File old) →
  ∃ l' w',
    writeToFile content (l, w) = (Normal tt, (l', w'))
    ∧ logWriteCount l' = 0
    ∧ w_fs w' = <[logFile := File (old +:+ content)]> (w_fs w)
    ∧ w_trace w'
      = (w_trace w ++ [EnterRotateIfNeeded; ExistsSync logFile; StatSync logFile;
                       report "[Logger] Log rotation failed:" e;
                       AppendFileSync logFile content])%list.
Proof.
  intros Hp [dir Hd] Hdue Hf Hold. unfold writeToFile. run. rewrite Hp, Hd. run.
  replace (rotationCheckInterval (options l) <=? logWriteCount l + 1) with true
    by (symmetry; apply Z.leb_le; lia).
  run. unfold rotateIfNeeded. rewrite run_bind, emit_run. run. rewrite Hp, Hd.
  rewrite run_try_catch, run_bind, existsSync_run. autorewrite with world.
  rewrite Hold. cbn [negb]. rewrite run_bind.
  rewrite (statSync_fails _ _ _ e []) by (by autorewrite with world).
  rewrite console_run. run.
  rewrite appendFileSync_ok; autorewrite with world; [|done|by rewrite Hold].
  eexists _, _. split; [reflexivity|]. cbn [logWriteCount set_logWriteCount].
  autorewrite with world. split; [done|].
  unfold file_content. rewrite Hold. split; [done|].
  by rewrite <- !app_assoc.
Qed.

Lemma failed_rotation_check_still_writes_witness :
  let l := ready_logger (file_options 1 0 5 1000) in
  let w := set_fs (<["/home/u/logs/app.log" := File "old "]> (w_fs failing_world)) failing_world in
  ∃ l' w',
    writeToFile "new" (l, w) = (Normal tt, (l', w'))
    ∧ logWriteCount l' = 0
    ∧ w_fs w' !! "/home/u/logs/app.log" = Some (File "old new").
Proof.
  cbn zeta.
  destruct (failed_rotation_check_still_writes (ready_logger (file_options 1 0 5 1000))
              (set_fs (<["/home/u/logs/app.log" := File "old "]> (w_fs failing_world))
                 failing_world)
              "/home/u/logs/app.log" "old " "new"
              (SysError "EACCES" "stat" "/home/u/logs/app.log"))
    as (l' & w' & Hrun & Hc & Hfs & _);
    [reflexivity|eexists; reflexivity|vm_compute; discriminate|reflexivity|reflexivity|].
  exists l', w'. split; [exact Hrun|]. split; [exact Hc|].
  rewrite Hfs. reflexivity.
Defined.

(** *** Rotation: the cases where little or nothing happens *)

(** X13.  A rotation check never throws and never changes the logger.
    When the live file does not exist, or is smaller than [maxFileSize],
    it leaves the file system as it is: it only asks whether the file
    exists and, if so, for its size. *)
Theorem rotation_check_below_threshold (l : Logger) (w : World) (logFile dir : string) :
  path_of (logFilePath l) = Some logFile →
  path_of (logsDir l) = Some dir →
  (∃ w', rotateIfNeeded (l, w) = (Normal tt, (l, w')) ∧ w_heap w' = w_heap w)
  ∧ (w_fs w !! logFile = None →
     rotateIfNeeded (l, w)
     = (Normal tt,
        (l, set_trace (w_trace w ++ [EnterRotateIfNeeded; ExistsSync logFile])%list w)))
  ∧ (∀ c, w_fs w !! logFile = Some (File c) →
          w_faults w = [] →
          Z.of_nat (String.length c) < maxFileSize (options l) →
          rotateIfNeeded (l, w)
          = (Normal tt,
             (l, set_trace (w_trace w ++ [EnterRotateIfNeeded; ExistsSync logFile;
                                          StatSync logFile])%list w))).
Proof.
  intros Hp Hd. split; [|split].
  - destruct (rotateIfNeeded_spec l w) as (w' & Hrun & Hh & _). by exists w'.
  - intros Hnone. unfold rotateIfNeeded. rewrite run_bind, emit_run. run. rewrite Hp, Hd.
    rewrite run_try_catch, run_bind, existsSync_run. autorewrite with world.
    rewrite Hnone. cbn [negb]. run. by rewrite <- app_assoc.
  - intros c Hc Hf Hsmall. unfold rotateIfNeeded. rewrite run_bind, emit_run. run.
    rewrite Hp, Hd.
    rewrite run_try_catch, run_bind, existsSync_run. autorewrite with world.
    rewrite Hc. cbn [negb]. rewrite run_bind.
    rewrite (statSync_file _ _ _ c) by (by autorewrite with world). run.
    replace (Z.of_nat (String.length c) <? maxFileSize (options l)) with true
      by (symmetry; by apply Z.ltb_lt).
    run. by rewrite <- !app_assoc.
Qed.

Lemma rotation_check_below_threshold_witness :
  let l := ready_logger (file_options 1 0 5 1000) in
  rotateIfNeeded (l, ready_world)
  = (Normal tt,
     (l, set_trace [EnterRotateIfNeeded; ExistsSync "/home/u/logs/app.log"] ready_world)).
Proof.
  cbn zeta.
  destruct (rotation_check_below_threshold (ready_logger (file_options 1 0 5 1000)) ready_world
              "/home/u/logs/app.log" "/home/u/logs")
    as (_ & Hnone & _); [reflexivity|reflexivity|].
  apply Hnone. reflexivity.
Defined.

(** X14.  With [maxBackups] at most 1 (zero and negative values
    included) a rotation only renames the live file to [app.log.1],
    replacing the backup that was there; no other file is touched, so one
    backup is retained. *)
Theorem rotation_with_one_backup (l : Logger) (w : World) (dir content : string) :
  path_of (logsDir l) = Some dir →
  path_of (logFilePath l) = Some (live dir) →
  maxBackups (options l) ≤ 1 →
  w_faults w = [] →
  w_fs w !! live dir = Some (File content) →
  maxFileSize (options l) ≤ Z.of_nat (String.length content) →
  w_fs w !! backup dir 1 ≠ Some Dir →
  rotateIfNeeded (l, w)
  = (Normal tt,
     (l, set_fs (<[backup dir 1 := File content]> (delete (live dir) (w_fs w)))
           (set_trace (w_trace w ++ [EnterRotateIfNeeded; ExistsSync (live dir);
                                     StatSync (live dir);
                                     RenameSync (live dir) (backup dir 1)])%list w))).
Proof.
  intros Hd Hp HM Hf Hlive Hsize Hb.
  unfold rotateIfNeeded. rewrite run_bind, emit_run. run. rewrite Hp, Hd.
  rewrite run_try_catch, run_bind, existsSync_run. autorewrite with world.
  rewrite Hlive. cbn [negb]. rewrite run_bind.
  rewrite (statSync_file _ _ _ content) by (by autorewrite with world). run.
  replace (Z.of_nat (String.length content) <? maxFileSize (options l)) with false
    by (symmetry; by apply Z.ltb_ge).
  run.
  replace (Z.to_nat (maxBackups (options l) - 1)) with 0%nat by lia.
  cbn [rotateBackups]. run. rewrite backup_1.
  rewrite (renameSync_file _ _ _ _ content); autorewrite with world; [|done|done|done].
  by rewrite <- !app_assoc.
Qed.

Lemma rotation_with_one_backup_witness :
  let l := ready_logger (file_options 1 0 1 10) in
  w_fs (snd (snd (rotateIfNeeded (l, full_world))))
  = <["/home/u/logs/app.log.1" := File "0123456789"]>
      (delete "/home/u/logs/app.log" (w_fs full_world)).
Proof.
  cbn zeta.
  rewrite (rotation_with_one_backup (ready_logger (file_options 1 0 1 10)) full_world
             "/home/u/logs" "0123456789");
    [reflexivity|reflexivity|reflexivity|vm_compute; discriminate|reflexivity|reflexivity
    |vm_compute; discriminate|vm_compute; discriminate].
Defined.

(** * Invariants of a logger over its calls *)

Lemma getPath_calls_app (tr1 tr2 : list event) :
  getPath_calls (tr1 ++ tr2) = (getPath_calls tr1 + getPath_calls tr2)%nat.
Proof. unfold getPath_calls. by rewrite omap_app, length_app. Qed.

Lemma getPath_calls_quiet (evs : list event) :
  forallb no_getPath evs = true → getPath_calls evs = 0%nat.
Proof.
  induction evs as [|ev evs IH]; [done|]. cbn [forallb].
  intros [Hev Hevs]%andb_true_iff. change (ev :: evs) with ([ev] ++ evs)%list.
  rewrite getPath_calls_app, IH by done. by destruct ev.
Qed.

Lemma quiet_of_grows {A} (m : M World exn A) :
  (∀ w0, inv (world_grows no_getPath w0) m (λ _, True)) → quiet m.
Proof.
  intros H w. destruct (H w w (world_grows_refl _ _)) as [(_ & _ & evs & -> & Hok) _].
  rewrite getPath_calls_app, (getPath_calls_quiet evs Hok). lia.
Qed.

Lemma quiet_existsSync p : quiet (existsSync p).
Proof. apply quiet_of_grows. intros w0. by apply inv_existsSync. Qed.
Lemma quiet_statSync p : quiet (statSync p).
Proof. apply quiet_of_grows. intros w0. by apply inv_statSync. Qed.
Lemma quiet_mkdirSync p : quiet (mkdirSync p).
Proof. apply quiet_of_grows. intros w0. by apply inv_mkdirSync. Qed.
Lemma quiet_appendFileSync p c : quiet (appendFileSync p c).
Proof. apply quiet_of_grows. intros w0. by apply inv_appendFileSync. Qed.
Lemma quiet_renameSync a b : quiet (renameSync a b).
Proof. apply quiet_of_grows. intros w0. by apply inv_renameSync. Qed.
Lemma quiet_unlinkSync p : quiet (unlinkSync p).
Proof. apply quiet_of_grows. intros w0. by apply inv_unlinkSync. Qed.
Lemma quiet_console ch args : quiet (console ch args).
Proof. apply quiet_of_grows. intros w0. by apply inv_console. Qed.
Lemma quiet_emit ev : no_getPath ev = true → quiet (emit ev).
Proof. intros Hev. apply quiet_of_grows. intros w0. by apply inv_emit. Qed.
Lemma quiet_formatTimestamp : quiet formatTimestamp.
Proof. by intros w. Qed.
Lemma quiet_alloc o : quiet (alloc o).
Proof. by intros w. Qed.

(** A property [J] of the logger and the world that the elementary steps
    of the logger keep is kept by every call. *)
Section Stable.
Variable J : State → Prop.
Hypothesis J_lift : ∀ A (m : M World exn A), quiet m → inv J (lift m : M State exn A) (λ _, True).
Hypothesis J_count :
  ∀ f : Logger → Z, inv J (update (λ l, set_logWriteCount (f l) l)) (λ _, True).
Hypothesis J_clear : inv J (update (set_logBuffer [])) (λ _, True).
Hypothesis J_push :
  (∀ s, J s → bufferSize (options (fst s)) = 0)
  ∨ (∀ x, inv J (update (λ l, set_logBuffer (logBuffer l ++ [x])%list l)) (λ _, True)).
Hypothesis J_ensure : inv J ensureFileLoggingInitialized (λ _, True).
Hypothesis J_now :
  ∀ now, inv J (modify (λ s, (fst s, set_now now (snd s))) : M State exn ()) (λ _, True).

Local Ltac stable_step :=
  first
    [ apply J_lift;
      first [ apply quiet_existsSync | apply quiet_statSync | apply quiet_appendFileSync
            | apply quiet_renameSync | apply quiet_unlinkSync | apply quiet_console
            | apply quiet_formatTimestamp | apply quiet_alloc | by apply quiet_emit ]
    | apply (J_count (λ l, logWriteCount l + 1))
    | apply (J_count (λ _, 0))
    | apply J_clear
    | inv_step ].

Lemma rotateBackups_stable dir backups n : inv J (rotateBackups dir backups n) (λ _, True).
Proof.
  induction n as [|n IH]; [by apply inv_ret|].
  cbn [rotateBackups]. repeat stable_step. exact IH.
Qed.

Lemma rotateIfNeeded_stable : inv J rotateIfNeeded (λ _, True).
Proof. unfold rotateIfNeeded, this. repeat stable_step. apply rotateBackups_stable. Qed.

Lemma writeToFile_stable content : inv J (writeToFile content) (λ _, True).
Proof. unfold writeToFile, this. repeat stable_step. apply rotateIfNeeded_stable. Qed.

Lemma flushBuffer_stable : inv J flushBuffer (λ _, True).
Proof. unfold flushBuffer, this. repeat stable_step. apply writeToFile_stable. Qed.

Lemma safeStringifyText_stable context : inv J (safeStringifyText context) (λ _, True).
Proof.
  unfold safeStringifyText. apply inv_bind_gets. intros s _.
  destruct (safeStringify _ _ _) as [[?|]|?|]; first [by apply inv_ret|apply inv_throw].
Qed.

Lemma fileLog_stable prefix message context : inv J (fileLog prefix message context) (λ _, True).
Proof.
  unfold fileLog, this.
  apply inv_bind_gets. intros s1 _. apply inv_bind_gets. intros s2 _.
  destruct (path_of _); [|by apply inv_ret]. destruct (path_of _); [|by apply inv_ret].
  apply inv_bind_any.
  { destruct (truthy context); [|by apply inv_ret].
    apply inv_bind_any; [apply safeStringifyText_stable|]. intros ?. by apply inv_ret. }
  intros contextStr. apply inv_bind_gets. intros s3 Hs3. unfold compose.
  destruct (0 <? bufferSize (options (fst s3))) eqn:Hpos; [|apply writeToFile_stable].
  destruct J_push as [Hzero|Hpush].
  { rewrite (Hzero s3 Hs3) in Hpos. done. }
  apply inv_bind_any; [apply Hpush|]. intros _.
  apply inv_bind_gets. intros s4 _.
  destruct (_ <=? _); [apply flushBuffer_stable|by apply inv_ret].
Qed.

Lemma consoleLog_stable lvl prefix message context :
  inv J (consoleLog lvl prefix message context) (λ _, True).
Proof. unfold consoleLog. destruct lvl; stable_step. Qed.

Lemma log_stable lvl message context : inv J (log lvl message context) (λ _, True).
Proof.
  unfold log, this. apply inv_bind_gets. intros s0 _.
  destruct (_ <? _); [by apply inv_ret|].
  apply inv_bind_any; [stable_step|]. intros timestamp.
  apply inv_bind_gets. intros s1 _.
  apply inv_bind_any; [apply consoleLog_stable|]. intros _.
  apply inv_bind_gets. intros s2 _.
  destruct (compose _ _ _); [|by apply inv_ret].
  apply inv_bind_any; [apply J_ensure|]. intros _.
  apply inv_bind_gets. intros s3 _.
  destruct (path_of _); [apply fileLog_stable|by apply inv_ret].
Qed.

Lemma method_stable lvl message context : inv J (method lvl message context) (λ _, True).
Proof.
  destruct lvl; try apply log_stable.
  unfold method, error. apply inv_bind_gets. intros s0 _.
  apply inv_bind_any; [|intros ?; apply log_stable].
  destruct context; try by apply inv_ret.
  destruct (w_heap s0.2 !! l) as [[]|]; try by apply inv_ret.
  repeat stable_step.
Qed.

Lemma run_call_stable c : inv J (run_call c) (λ _, True).
Proof.
  destruct c as [now lvl message context|]; [|apply flushBuffer_stable].
  cbn [run_call]. apply inv_bind_any; [apply J_now|]. intros _. apply method_stable.
Qed.

Lemma run_calls_stable cs s : J s → J (run_calls cs s).
Proof.
  revert s. induction cs as [|c cs IH]; intros s Hs; [done|].
  cbn [run_calls]. apply IH. by apply run_call_stable.
Qed.

End Stable.

(** * Setting up file logging *)

Lemma mkdirSync_outcome (l : Logger) (w : World) (p : string) :
  ∃ r w', lift (mkdirSync p) (l, w) = (r, (l, w'))
          ∧ w_heap w' = w_heap w
          ∧ w_trace w' = (w_trace w ++ [MkdirSync p])%list.
Proof.
  unfold mkdirSync, emit, fault, lift, mbind, M_bind, bind, gets, modify, throw,
    mret, M_ret, ret.
  simpl.
  destruct (w_faults w) as [|[e|] rest]; simpl;
    try (destruct (w_fs w !! p) as [[]|]; simpl);
    do 2 eexists; (split; [reflexivity|]); done.
Qed.

(** What [initFileLogging] does on a logger that is not initialized, in
    any world: it returns, has asked the path service exactly once, and
    has either set file logging up or switched it off. *)
Lemma initFileLogging_outcome (l : Logger) (w : World) :
  fileLoggingInitialized l = false →
  ∃ l' w' evs,
    initFileLogging (l, w) = (Normal tt, (l', w'))
    ∧ w_trace w' = (w_trace w ++ GetPath "userData" :: evs)%list
    ∧ forallb no_getPath evs = true
    ∧ w_heap w' = w_heap w
    ∧ moduleName l' = moduleName l
    ∧ logBuffer l' = logBuffer l
    ∧ logWriteCount l' = logWriteCount l
    ∧ ((fileLoggingInitialized l' = true ∧ options l' = options l)
       ∨ (fileLoggingInitialized l' = false
          ∧ options l' = set_fileLogging false (options l))).
Proof.
  intros Hinit. unfold initFileLogging. run. rewrite Hinit. run.
  destruct (w_getPath w "userData") as [base|e] eqn:Hg.
  - rewrite (getPath_returns _ _ _ base) by done. run.
    unfold default, from_option, id. rewrite existsSync_run. autorewrite with world.
    destruct (w_fs w !! path_join base "logs") eqn:Hdir; cbn [negb]; run.
    + eexists _, _, [_]. split; [reflexivity|]. autorewrite with world.
      split; [by rewrite <- app_assoc|]. repeat (split; [done|]). by left.
    + match goal with |- context [lift (mkdirSync ?p) (?l1, ?w1)] =>
        destruct (mkdirSync_outcome l1 w1 p) as (r & w2 & Hmk & Hh & Htr) end.
      rewrite Hmk. autorewrite with world in Hh, Htr. destruct r as [[]|e]; run.
      * eexists _, _, [_; _]. split; [reflexivity|]. rewrite Htr, Hh.
        split; [by rewrite <- !app_assoc|]. repeat (split; [done|]). by left.
      * rewrite console_run. run.
        eexists _, _, [_; _; _]. split; [reflexivity|]. autorewrite with world.
        rewrite Htr, Hh. split; [by rewrite <- !app_assoc|].
        repeat (split; [done|]). by right.
  - rewrite (getPath_throws _ _ _ e) by done. run. rewrite console_run. run.
    eexists _, _, [_]. split; [reflexivity|]. autorewrite with world.
    split; [by rewrite <- app_assoc|]. repeat (split; [done|]). by right.
Qed.

Section AskedOnce.
Variable n : nat.
Local Abbreviation K := (asked_at_most_once n).

Lemma asked_lift {A} (m : M World exn A) : quiet m → inv K (lift m : M State exn A) (λ _, True).
Proof.
  intros Hq [l w] HK. unfold lift. cbn [fst snd]. specialize (Hq w).
  destruct (m w) as [r w']. cbn [fst snd] in *. split; [|done].
  unfold asked_at_most_once in *. cbn [fst snd] in *. by rewrite Hq.
Qed.

Lemma asked_update (f : Logger → Logger) :
  (∀ l, fileLoggingInitialized (f l) = fileLoggingInitialized l) →
  (∀ l, fileLogging (options (f l)) = fileLogging (options l)) →
  inv K (update f) (λ _, True).
Proof.
  intros H1 H2. apply inv_modify. intros [l w] HK.
  unfold asked_at_most_once in *. cbn [fst snd] in *. by rewrite H1, H2.
Qed.

(** An initialization guarded by [fileLogging]. *)
Lemma asked_guarded_init (b : bool) (l : Logger) (w : World) :
  K (l, w) →
  K (snd ((if fileLogging (options l) && b then initFileLogging else mret tt) (l, w))).
Proof.
  intros HK. destruct (fileLogging (options l)) eqn:He, b; cbn [andb]; try done.
  destruct (fileLoggingInitialized l) eqn:Hi.
  { unfold initFileLogging. run. by rewrite Hi. }
  destruct (initFileLogging_outcome l w Hi)
    as (l' & w' & evs & Hrun & Htr & Hq & _ & _ & _ & _ & Hflags).
  rewrite Hrun. cbn [fst snd].
  destruct HK as [Hn|[_ [Ht|Hf]]]; cbn [fst snd] in *; [|congruence..].
  right. cbn [fst snd]. split.
  - rewrite Htr. change (GetPath "userData" :: evs) with ([GetPath "userData"] ++ evs)%list.
    rewrite !getPath_calls_app, (getPath_calls_quiet evs Hq), Hn. cbn. lia.
  - destruct Hflags as [[Ht _]|[_ Ho]]; [by left|right]. by rewrite Ho.
Qed.

Lemma asked_ensure : inv K ensureFileLoggingInitialized (λ _, True).
Proof.
  intros [l w] HK. split; [|done]. unfold ensureFileLoggingInitialized. run.
  apply (asked_guarded_init (negb (fileLoggingInitialized l)) l w HK).
Qed.

Lemma asked_constructor : inv K constructor (λ _, True).
Proof.
  intros [l w] HK. split; [|done]. unfold constructor. run.
  apply (asked_guarded_init (negb (deferInit (options l))) l w HK).
Qed.

Lemma asked_run_calls cs s : K s → K (run_calls cs s).
Proof.
  apply run_calls_stable.
  - intros A m Hq. by apply asked_lift.
  - intros f. by apply asked_update.
  - by apply asked_update.
  - right. intros x. by apply asked_update.
  - apply asked_ensure.
  - intros now. apply inv_modify. by intros [l w].
Qed.

End AskedOnce.

(** X15.  Over its whole life, from its construction on and whatever
    is logged or flushed, a logger calls [app.getPath] at most once: a
    failed initialization is not tried again, and a successful one is not
    repeated. *)
Theorem getPath_called_at_most_once
    (name : string) (o : LoggerOptions) (w0 : World) (cs : list call) :
  (getPath_calls (w_trace (snd (run_calls cs (snd (new_Logger name o w0)))))
   ≤ getPath_calls (w_trace w0) + 1)%nat.
Proof.
  assert (asked_at_most_once (getPath_calls (w_trace w0)) (fresh_logger name o, w0)) as H0.
  { by left. }
  apply asked_constructor in H0 as [H1 _].
  apply (asked_run_calls _ cs) in H1.
  fold (new_Logger name o w0) in H1.
  destruct H1 as [->|[-> _]]; lia.
Qed.

(** X16.  Constructing a logger never throws, whatever the platform
    does.  When file logging is off or deferred the world is not touched
    and the instance is the fresh one; otherwise the constructor has asked
    the path service once and ends with file logging either set up or
    switched off. *)
Theorem new_Logger_never_throws (name : string) (o : LoggerOptions) (w : World) :
  ∃ l w',
    new_Logger name o w = (Normal tt, (l, w'))
    ∧ getModuleName (l, w') = (Normal name, (l, w'))
    ∧ logBuffer l = []
    ∧ w_heap w' = w_heap w
    ∧ (fileLogging (merge_options DEFAULT_OPTIONS o) = false
       ∨ deferInit (merge_options DEFAULT_OPTIONS o) = true →
       l = fresh_logger name o ∧ w' = w)
    ∧ (fileLogging (merge_options DEFAULT_OPTIONS o) = true →
       deferInit (merge_options DEFAULT_OPTIONS o) = false →
       getPath_calls (w_trace w') = S (getPath_calls (w_trace w))
       ∧ (fileLoggingInitialized l = true ∨ isFileLoggingEnabled (l, w') = (Normal false, (l, w')))).
Proof.
  unfold new_Logger, constructor. run.
  change (options (fresh_logger name o)) with (merge_options DEFAULT_OPTIONS o).
  destruct (fileLogging (merge_options DEFAULT_OPTIONS o)) eqn:He,
           (deferInit (merge_options DEFAULT_OPTIONS o)) eqn:Hd; cbn [andb negb]; run;
    try (eexists _, _; (split; [reflexivity|]); (split; [reflexivity|]);
         (split; [reflexivity|]); (split; [reflexivity|]); (split; [done|]);
         intros; congruence).
  destruct (initFileLogging_outcome (fresh_logger name o) w eq_refl)
    as (l' & w' & evs & Hrun & Htr & Hq & Hh & Hname & Hbuf & _ & Hflags).
  rewrite Hrun. exists l', w'. split; [done|].
  split; [unfold getModuleName; run; by rewrite Hname|].
  split; [by rewrite Hbuf|]. split; [done|].
  split; [intros [?|?]; congruence|]. intros _ _. split.
  - rewrite Htr. change (GetPath "userData" :: evs) with ([GetPath "userData"] ++ evs)%list.
    rewrite !getPath_calls_app, (getPath_calls_quiet evs Hq). cbn. lia.
  - destruct Hflags as [[Ht _]|[_ Ho]]; [by left|right].
    unfold isFileLoggingEnabled. run. by rewrite Ho.
Qed.

(** X17.  With file logging on and not deferred, a path service that
    answers the normalized path of an existing directory, and a file
    system that does not fail, the constructor sets file logging up: both
    paths are known ([<userData>/logs] and [<userData>/logs/app.log]),
    the directory exists afterwards, and it is created only when it was
    not there. *)
Theorem new_Logger_sets_up_file_logging
    (name : string) (o : LoggerOptions) (w : World) (base : string) :
  fileLogging (merge_options DEFAULT_OPTIONS o) = true →
  deferInit (merge_options DEFAULT_OPTIONS o) = false →
  w_getPath w "userData" = inl base →
  normalized base = true →
  w_fs w !! base = Some Dir →
  w_faults w = [] →
  (∀ c, w_fs w !! path_join base "logs" ≠ Some (File c)) →
  let dir := path_join base "logs" in
  ∃ l w',
    new_Logger name o w = (Normal tt, (l, w'))
    ∧ file_logging_ready l (path_join dir "app.log")
    ∧ logsDir l = Some dir
    ∧ w_fs w' = <[dir := Dir]> (w_fs w)
    ∧ w_trace w'
      = (w_trace w ++ [GetPath "userData"; ExistsSync dir]
         ++ match w_fs w !! dir with Some _ => [] | None => [MkdirSync dir] end)%list.
Proof.
  intros He Hd Hg _ _ Hf Hnofile dir.
  unfold new_Logger, constructor. run.
  change (options (fresh_logger name o)) with (merge_options DEFAULT_OPTIONS o).
  rewrite He, Hd. cbn [andb negb].
  unfold initFileLogging. run. cbn [fileLoggingInitialized fresh_logger]. run.
  rewrite (getPath_returns _ _ _ base) by done. run.
  unfold default, from_option, id. rewrite existsSync_run. autorewrite with world.
  fold dir.
  assert (file_logging_ready
            (set_fileLoggingInitialized true
               (set_logFilePath (Some (path_join dir "app.log"))
                  (set_logsDir (Some dir) (fresh_logger name o))))
            (path_join dir "app.log")) as Hready.
  { split; [apply (path_of_live base)|]. split; [|by split].
    exists dir. apply (path_of_dir base). }
  destruct (w_fs w !! dir) as [[c|]|] eqn:Hdir; cbn [negb]; run.
  - by destruct (Hnofile c).
  - eexists _, _. split; [reflexivity|]. split; [exact Hready|]. split; [done|].
    autorewrite with world. split; [by rewrite insert_id|].
    by rewrite <- !app_assoc.
  - unfold mkdirSync, emit, fault, lift at 1, mbind at 1 2 3, M_bind, bind, gets, modify.
    cbn [fst snd]. autorewrite with world. rewrite Hf. cbn [fst snd].
    autorewrite with world. rewrite Hdir. run.
    eexists _, _. split; [reflexivity|]. split; [exact Hready|]. split; [done|].
    autorewrite with world. split; [done|]. by rewrite <- !app_assoc.
Qed.

Lemma new_Logger_sets_up_file_logging_witness :
  ∃ l w',
    new_Logger "net" rotating_options home_world = (Normal tt, (l, w'))
    ∧ file_logging_ready l "/home/u/logs/app.log"
    ∧ w_fs w' = <["/home/u/logs" := Dir]> (<["/home/u" := Dir]> ∅)
    ∧ w_trace w' = [GetPath "userData"; ExistsSync "/home/u/logs"; MkdirSync "/home/u/logs"].
Proof.
  destruct (new_Logger_sets_up_file_logging "net" rotating_options home_world "/home/u")
    as (l & w' & Hrun & Hready & _ & Hfs & Htr);
    [reflexivity|reflexivity|reflexivity|reflexivity|reflexivity|reflexivity|done|].
  exists l, w'. split; [exact Hrun|]. split; [exact Hready|]. split; [exact Hfs|exact Htr].
Defined.

(** * What ends up in the live file *)







(** * Further properties of the safe serialization *)

Section SafeStringifyMore.
Import JS.
Local Open Scope nat_scope.

(** X19.  On a value in whose graph no object has a [toJSON] method,
    [safeStringify] always ends, and in one of two ways: it
    returns (a text, or [undefined] for a value that JSON leaves out), or
    it throws the TypeError that [JSON.stringify] raises for a BigInt.  It
    never throws the "circular structure" TypeError, on any object
    graph. *)
Theorem safeStringify_raises_only_on_bigint (h : heap) (v : value) (indent : nat) :
  toJSON_free h v →
  (∃ r, safeStringify h v indent = Done r)
  ∨ safeStringify h v indent = Raise (TypeError "Do not know how to serialize a BigInt").
Proof.
  intros _.
  pose proof (safeStringify_terminates h v indent) as Hterm.
  destruct (safeStringify h v indent) as [r|e|] eqn:Hrun; [left; by exists r| |done].
  right. f_equal. unfold safeStringify in Hrun.
  eapply serialize_raise; [|exact Hrun]. intros l Hl. by apply elem_of_nil in Hl.
Qed.

Lemma safeStringify_raises_only_on_bigint_witness :
  (∃ r, safeStringify cyclic_heap (VRef 1%positive) 2 = Done r)
  ∨ safeStringify cyclic_heap (VRef 1%positive) 2
    = Raise (TypeError "Do not know how to serialize a BigInt").
Proof.
  apply (safeStringify_raises_only_on_bigint cyclic_heap (VRef 1%positive) 2).
  apply toJSON_free_stored; [reflexivity|].
  apply map_Forall_insert_2; [reflexivity|apply map_Forall_empty].
Defined.

(** Once the serializer has been handed a reference to an object, the
    replacer has seen that object. *)
Lemma serialize_adds h gap fuel indent stk seen m :
  is_Some (h !! m) →
  m ∈ snd (serializeJSONProperty h gap (S fuel) indent stk seen (VRef m)).
Proof.
  intros Hm. remember (VRef m) as v eqn:Hv. simpl.
  destruct (replacer h seen v) as [r seen1] eqn:Hr.
  apply replacer_cases in Hr.
  assert (∀ K stk' ind (items : list (K * value)),
            seen1 ⊆ snd (serializeEach (serializeJSONProperty h gap fuel ind stk') seen1 items))
    as Heach.
  { intros. apply serializeEach_mono. intros. apply serialize_mono. }
  destruct Hr as [(-> & -> & Hdang)|[(l & -> & Hl & Hin & -> & ->)|
                  (l & o & -> & Hl & Hnin & -> & Ho)]].
  - subst v. rewrite (Hdang m eq_refl) in Hm. by destruct Hm.
  - by injection Hv as ->.
  - injection Hv as ->.
    assert (m ∈ ({[m]} ∪ seen : gset loc)) as Hin by set_solver.
    destruct o as [props|elems|n0 m0 s0 props]; subst r; cbv beta iota zeta; rewrite ?Hl.
    + destruct (decide (m ∈ stk)); [done|]. rewrite outcome_map_snd. by apply Heach.
    + destruct (decide (m ∈ stk)); [done|]. rewrite outcome_map_snd. by apply Heach.
    + rewrite outcome_map_snd. by apply Heach.
Qed.

Lemma serializeEach_twice {K} h gap fuel indent stk m (items : list (K * value)) seen rs :
  is_Some (h !! m) →
  twice m items →
  fst (serializeEach (serializeJSONProperty h gap (S fuel) indent stk) seen items) = Done rs →
  ∃ k, (k, Some (quote "[Circular]")) ∈ rs.
Proof.
  intros Hm (pre & k1 & mid & k2 & post & ->). revert seen rs.
  induction pre as [|[k0 v0] pre IH]; intros seen rs Hrun.
  - cbn [app serializeEach] in Hrun.
    pose proof (serialize_adds h gap fuel indent stk seen m Hm) as Hin.
    destruct (serializeJSONProperty h gap (S fuel) indent stk seen (VRef m)) as [[r|e|] s1];
      try done.
    apply outcome_map_done_inv in Hrun as (rs0 & Hrs0 & ->). cbn [snd] in Hin.
    exists k2. apply elem_of_cons. right.
    eapply serializeEach_circular; [exact Hm|exact Hin| |exact Hrs0].
    apply elem_of_app. right. apply elem_of_cons. by left.
  - cbn [app serializeEach] in Hrun.
    destruct (serializeJSONProperty h gap (S fuel) indent stk seen v0) as [[r|e|] s1];
      try done.
    apply outcome_map_done_inv in Hrun as (rs0 & Hrs0 & ->).
    destruct (IH s1 rs0 Hrs0) as [k Hk]. exists k. apply elem_of_cons. by right.
Qed.

(** X20.  The replacer never forgets an object it has seen: when a plain
    object or an array in whose graph no object has a [toJSON] method
    refers to the same object in two places, the text contains the placeholder [[Circular]] (written for the second
    reference) whether or not the graph has a cycle. *)
Theorem repeated_reference_is_marked_circular
    (h : heap) (l m : loc) (o : object) (indent : nat) (s : string) :
  h !! l = Some o →
  toJSON_free h (VRef l) →
  is_Some (h !! m) →
  refers_twice m o →
  safeStringify h (VRef l) indent = Done (Some s) →
  contains "[Circular]" s.
Proof.
  intros Hl _ Hm Htwice Hrun.
  destruct (safeStringify_object h l o indent Hl) as (fuel & _ & Heq).
  rewrite Heq in Hrun. clear Heq. revert Htwice Hrun.
  cbn [serializeJSONProperty replacer]. rewrite Hl.
  destruct (decide (l ∈ (∅ : gset loc))) as [Hin|_]; [by apply not_elem_of_empty in Hin|].
  intros Htwice Hrun. revert Hrun.
  destruct o as [props|elems|n0 m0 st props]; [| |done]; cbv beta iota zeta; rewrite Hl;
    (destruct (decide (l ∈ [])) as [Hin|_]; [by apply elem_of_nil in Hin|]);
    intros (rs & Hrs & [= ->])%outcome_map_done_inv;
    eapply serializeEach_twice in Hrs as [k Hk]; try done.
  - apply members_circular with (gap := gap_of indent) in Hk as (part & Hp & Hc).
    by eapply wrap_contains.
  - destruct k. apply elements_circular in Hk as (part & Hp & Hc). by eapply wrap_contains.
Qed.

Lemma repeated_reference_is_marked_circular_witness :
  ∃ s, safeStringify shared_heap (VRef 1%positive) 2 = Done (Some s)
       ∧ contains "[Circular]" s.
Proof.
  eexists. split; [vm_compute; reflexivity|].
  apply (repeated_reference_is_marked_circular shared_heap 1%positive 2%positive
           (OPlain [("a", VRef 2%positive); ("b", VRef 2%positive)]) 2).
  - reflexivity.
  - apply toJSON_free_stored; [reflexivity|].
    apply map_Forall_insert_2; [reflexivity|].
    apply map_Forall_insert_2; [reflexivity|apply map_Forall_empty].
  - eexists. reflexivity.
  - exists [], "a", [], "b", []. reflexivity.
  - vm_compute. reflexivity.
Defined.

End SafeStringifyMore.

(** * The loggers kept by the module *)

Section RegistryFacts.
Import LoggerRegistry.

Lemma cache_get_set_eq (k : string) (l : Logger) (c : list (string * Logger)) :
  cache_get k (cache_set k l c) = Some l.
Proof.
  unfold cache_get. induction c as [|[k' l'] c IH]; simpl.
  - by rewrite bool_decide_eq_true_2.
  - destruct (bool_decide (k' = k)) eqn:Hk; simpl.
    + by rewrite bool_decide_eq_true_2.
    + by rewrite Hk.
Qed.

Lemma cache_get_set_ne (k k' : string) (l : Logger) (c : list (string * Logger)) :
  k' ≠ k → cache_get k' (cache_set k l c) = cache_get k' c.
Proof.
  intros Hne. unfold cache_get. induction c as [|[k0 l0] c IH]; simpl.
  - by rewrite bool_decide_eq_false_2.
  - destruct (bool_decide (k0 = k)) eqn:Hk; simpl.
    + apply bool_decide_eq_true in Hk as ->. by rewrite !bool_decide_eq_false_2.
    + destruct (bool_decide (k0 = k')); [done|exact IH].
Qed.

Lemma cache_set_keys (k : string) (l : Logger) (c : list (string * Logger)) :
  map fst (cache_set k l c)
  = match cache_get k c with Some _ => map fst c | None => (map fst c ++ [k])%list end.
Proof.
  unfold cache_get. induction c as [|[k' l'] c IH]; simpl; [done|].
  destruct (bool_decide (k' = k)) eqn:Hk; simpl.
  - apply bool_decide_eq_true in Hk as ->. done.
  - rewrite IH. by destruct (List.find _ c).
Qed.

Lemma cache_set_id (k : string) (l : Logger) (c : list (string * Logger)) :
  cache_get k c = Some l → cache_set k l c = c.
Proof.
  unfold cache_get. induction c as [|[k' l'] c IH]; simpl; [done|].
  destruct (bool_decide (k' = k)) eqn:Hk; simpl.
  - apply bool_decide_eq_true in Hk as ->. by intros [= ->].
  - intros H. by rewrite IH.
Qed.

Lemma cache_get_keys (k : string) (c : list (string * Logger)) :
  k ∈ map fst c → is_Some (cache_get k c).
Proof.
  unfold cache_get. induction c as [|[k' l'] c IH]; simpl; [by intros ?%elem_of_nil|].
  intros Hin. destruct (bool_decide (k' = k)) eqn:Hk; simpl; [by eexists|].
  apply bool_decide_eq_false in Hk. apply elem_of_cons in Hin as [->|Hin]; [done|].
  by apply IH.
Qed.

Lemma on_logger_run {A} (r : ref) (m : M Logger.State exn A) (g : Registry) (w : World) (l : Logger) :
  deref r g = Some l →
  on r m (g, w) = (fst (m (l, w)), (assign r (fst (snd (m (l, w)))) g, snd (snd (m (l, w))))).
Proof.
  intros Hl. unfold on. cbn [fst snd]. rewrite Hl. by destruct (m (l, w)) as [res [l' w']].
Qed.

Lemma assign_id (r : ref) (g : Registry) (l : Logger) : deref r g = Some l → assign r l g = g.
Proof.
  destruct g as [p d c], r as [|k]; cbn.
  - by intros ->.
  - intros H. unfold set_moduleLoggerCache. cbn. by rewrite cache_set_id.
Qed.

(** Loggers made with [deferInit: true] are made without touching the
    world. *)
Lemma construct_cached (name : string) (s : RState) :
  construct name (mkLoggerOptions None (Some true) None None (Some true) None None) s
  = (Normal (fresh_logger name
               (mkLoggerOptions None (Some true) None None (Some true) None None)), s).
Proof. by destruct s. Qed.

Lemma construct_default (packaged : bool) (s : RState) :
  construct "app"
    (mkLoggerOptions (Some (if packaged then INFO else DEBUG)) (Some packaged)
       None None (Some true) None None) s
  = (Normal (fresh_logger "app"
               (mkLoggerOptions (Some (if packaged then INFO else DEBUG)) (Some packaged)
                  None None (Some true) None None)), s).
Proof. destruct s. by destruct packaged. Qed.

Lemma getCachedLogger_run (k : string) (g : Registry) (w : World) :
  getCachedLogger k (g, w)
  = (Normal (CachedLogger k),
     (match cache_get k (moduleLoggerCache g) with
      | Some _ => g
      | None =>
          set_moduleLoggerCache
            (cache_set k
               (fresh_logger k (mkLoggerOptions None (Some true) None None (Some true) None None))
               (moduleLoggerCache g)) g
      end, w)).
Proof.
  unfold getCachedLogger. rewrite run_bind, run_gets. cbn [fst snd].
  destruct (cache_get k (moduleLoggerCache g)); [done|].
  by rewrite run_bind, construct_cached.
Qed.

Lemma getDefaultLogger_run (g : Registry) (w : World) :
  getDefaultLogger (g, w)
  = (Normal DefaultLogger,
     (match defaultLogger g with
      | Some _ => g
      | None =>
          set_defaultLogger
            (Some (fresh_logger "app"
                     (mkLoggerOptions (Some (if isPackaged g then INFO else DEBUG))
                        (Some (isPackaged g)) None None (Some true) None None))) g
      end, w)).
Proof.
  unfold getDefaultLogger. rewrite run_bind, run_gets. cbn [fst snd].
  destruct (defaultLogger g); [done|].
  rewrite run_bind, run_gets. cbn [fst snd]. by rewrite run_bind, construct_default.
Qed.

(** *** Unbuffered loggers stay unbuffered *)

Section Unbuffered.
Variable k : string.
Variable lv : LogLevel.
Local Abbreviation U := (λ s : Logger.State, unbuffered k lv (fst s)).

Lemma unbuffered_lift {A} (m : M World exn A) : inv U (lift m : M Logger.State exn A) (λ _, True).
Proof. intros [l w] HU. unfold lift. cbn [fst snd]. by destruct (m w). Qed.

Lemma unbuffered_update (f : Logger → Logger) :
  (∀ l, unbuffered k lv l → unbuffered k lv (f l)) → inv U (update f) (λ _, True).
Proof. intros Hf. apply inv_modify. intros [l w]. apply Hf. Qed.

Lemma unbuffered_ensure : inv U ensureFileLoggingInitialized (λ _, True).
Proof.
  unfold ensureFileLoggingInitialized, initFileLogging, this.
  repeat first [ apply unbuffered_lift | apply unbuffered_update; by intros ? | inv_step ].
Qed.

Lemma unbuffered_run_call c : inv U (run_call c) (λ _, True).
Proof.
  apply run_call_stable.
  - intros A m _. apply unbuffered_lift.
  - intros f. apply unbuffered_update. by intros ? (? & ? & ? & ?).
  - apply unbuffered_update. by intros ? (? & ? & ? & ?).
  - left. by intros s (? & ? & ? & ?).
  - apply unbuffered_ensure.
  - intros now. apply inv_modify. by intros [l w].
Qed.

Lemma unbuffered_method lvl message context : inv U (method lvl message context) (λ _, True).
Proof.
  apply method_stable.
  - intros A m _. apply unbuffered_lift.
  - intros f. apply unbuffered_update. by intros ? (? & ? & ? & ?).
  - apply unbuffered_update. by intros ? (? & ? & ? & ?).
  - left. by intros s (? & ? & ? & ?).
  - apply unbuffered_ensure.
Qed.

End Unbuffered.

Lemma unbuffered_fresh (name : string) (o : LoggerOptions) :
  opt_bufferSize o = None →
  unbuffered name (level (merge_options DEFAULT_OPTIONS o)) (fresh_logger name o).
Proof. intros Ho. repeat split. cbn. by rewrite Ho. Qed.

(** A call through a reference on an unbuffered logger leaves the other
    loggers alone and the logger unbuffered. *)
Lemma registry_ok_on {A} (r : ref) (m : M Logger.State exn A) (g : Registry) (w : World) :
  registry_ok g →
  is_Some (deref r g) →
  (∀ k lv, inv (λ s, unbuffered k lv (fst s)) m (λ _, True)) →
  registry_ok (fst (snd (on r m (g, w)))).
Proof.
  intros [Hd Hc] [l Hl] Hm. rewrite (on_logger_run r m g w l Hl). cbn [fst snd].
  destruct r as [|k]; cbn [deref assign] in *.
  - destruct (Hd l Hl) as [lv Hlv].
    destruct (Hm "app" lv (l, w) Hlv) as [Hafter _].
    split; cbn [defaultLogger moduleLoggerCache set_defaultLogger]; [|exact Hc].
    intros l' [= <-]. by exists lv.
  - pose proof (Hc k l Hl) as Hk.
    destruct (Hm k INFO (l, w) Hk) as [Hafter _].
    split; cbn [defaultLogger moduleLoggerCache set_moduleLoggerCache]; [exact Hd|].
    intros k' l'. destruct (decide (k' = k)) as [->|Hne].
    + rewrite cache_get_set_eq. by intros [= <-].
    + rewrite cache_get_set_ne by done. apply Hc.
Qed.

Lemma registry_ok_getCachedLogger (k : string) (g : Registry) (w : World) :
  registry_ok g →
  registry_ok (fst (snd (getCachedLogger k (g, w))))
  ∧ is_Some (deref (CachedLogger k) (fst (snd (getCachedLogger k (g, w))))).
Proof.
  intros [Hd Hc]. rewrite getCachedLogger_run. cbn [fst snd deref].
  destruct (cache_get k (moduleLoggerCache g)) as [l|] eqn:Hk.
  - split; [by split|]. rewrite Hk. by eexists.
  - cbn [moduleLoggerCache set_moduleLoggerCache]. rewrite cache_get_set_eq.
    split; [|by eexists]. split; [exact Hd|]. cbn [moduleLoggerCache set_moduleLoggerCache].
    intros k' l'. destruct (decide (k' = k)) as [->|Hne].
    + rewrite cache_get_set_eq. intros [= <-]. by apply (unbuffered_fresh k).
    + rewrite cache_get_set_ne by done. apply Hc.
Qed.

Lemma registry_ok_getDefaultLogger (g : Registry) (w : World) :
  registry_ok g →
  registry_ok (fst (snd (getDefaultLogger (g, w))))
  ∧ is_Some (deref DefaultLogger (fst (snd (getDefaultLogger (g, w))))).
Proof.
  intros Hok. pose proof Hok as [Hd Hc]. rewrite getDefaultLogger_run. cbn [fst snd deref].
  destruct (defaultLogger g) as [l|] eqn:Hl.
  - split; [exact Hok|]. rewrite Hl. by eexists.
  - cbn [defaultLogger set_defaultLogger]. split; [|by eexists].
    split; [|exact Hc]. cbn [defaultLogger set_defaultLogger]. intros l [= <-].
    eexists. by apply (unbuffered_fresh "app").
Qed.

(** On a registry whose loggers are unbuffered, [flushAllLoggers] finds
    every buffer empty. *)
Lemma flush_each_noop (g : Registry) (w : World) (names : list string) :
  registry_ok g →
  (∀ k, k ∈ names → k ∈ map fst (moduleLoggerCache g)) →
  flush_each names (g, w) = (Normal tt, (g, w)).
Proof.
  intros [Hd Hc]. induction names as [|k names IH]; intros Hin; [done|].
  cbn [flush_each]. rewrite run_bind.
  destruct (cache_get_keys k (moduleLoggerCache g)) as [l Hl].
  { apply Hin. apply elem_of_cons. by left. }
  rewrite (on_logger_run (CachedLogger k) flush g w l Hl).
  destruct (Hc k l Hl) as (_ & _ & _ & Hbuf).
  unfold flush. rewrite (flushBuffer_empty l w Hbuf). cbn [fst snd].
  rewrite (assign_id (CachedLogger k) g l Hl).
  apply IH. intros k' Hk'. apply Hin. apply elem_of_cons. by right.
Qed.

Lemma flushAllLoggers_noop (g : Registry) (w : World) :
  registry_ok g → flushAllLoggers (g, w) = (Normal tt, (g, w)).
Proof.
  intros Hok. unfold flushAllLoggers. rewrite run_bind, run_gets. cbn [fst snd].
  rewrite run_bind.
  assert ((match defaultLogger g with
           | Some _ => on DefaultLogger flush
           | None => mret tt
           end) (g, w) = (Normal tt, (g, w))) as ->.
  { destruct (defaultLogger g) as [l|] eqn:Hl; [|done].
    rewrite (on_logger_run DefaultLogger flush g w l Hl).
    destruct Hok as [Hd _]. destruct (Hd l Hl) as (lv & _ & _ & _ & Hbuf).
    unfold flush. rewrite (flushBuffer_empty l w Hbuf). cbn [fst snd].
    by rewrite (assign_id DefaultLogger g l Hl). }
  rewrite run_bind, run_gets. cbn [fst snd]. by apply flush_each_noop.
Qed.

(** The method that [logEvent] picks for an entry. *)
Lemma logEvent_run (entry : LogEntry) (s : RState) :
  ∃ lvl,
    logEvent entry s
    = (getCachedLogger (module_or_renderer entry)
       ≫= λ logger, on logger (method lvl (entry_message entry) (entry_context entry))) s
    ∧ (entry_level entry = "debug" → lvl = DEBUG)
    ∧ (entry_level entry = "warn" → lvl = WARN)
    ∧ (entry_level entry ≠ "debug" → entry_level entry ≠ "warn" →
       entry_level entry ≠ "error" → lvl = INFO).
Proof.
  unfold logEvent.
  destruct (bool_decide (entry_level entry = "debug")) eqn:H1.
  { apply bool_decide_eq_true in H1. exists DEBUG. rewrite H1. by repeat split. }
  apply bool_decide_eq_false in H1.
  destruct (bool_decide (entry_level entry = "info")) eqn:H2.
  { apply bool_decide_eq_true in H2. exists INFO. rewrite H2. by repeat split. }
  destruct (bool_decide (entry_level entry = "warn")) eqn:H3.
  { apply bool_decide_eq_true in H3. exists WARN. rewrite H3. by repeat split. }
  apply bool_decide_eq_false in H3.
  destruct (bool_decide (entry_level entry = "error")) eqn:H4.
  { apply bool_decide_eq_true in H4. exists ERROR. by repeat split. }
  exists INFO. by repeat split.
Qed.

Lemma registry_ok_logEvent (entry : LogEntry) (g : Registry) (w : World) :
  registry_ok g → registry_ok (fst (snd (logEvent entry (g, w)))).
Proof.
  intros Hok. destruct (logEvent_run entry (g, w)) as (lvl & -> & _).
  rewrite run_bind.
  destruct (registry_ok_getCachedLogger (module_or_renderer entry) g w Hok) as [Hok1 Hin].
  rewrite getCachedLogger_run in *. cbn [fst snd] in *.
  apply registry_ok_on; [done|done|]. intros k lv. apply unbuffered_method.
Qed.

Lemma registry_ok_run_request (r : request) (g : Registry) (w : World) :
  registry_ok g → registry_ok (fst (snd (run_request r (g, w)))).
Proof.
  intros Hok. destruct r as [now entry|c|lvl|]; cbn [run_request].
  - rewrite run_bind, run_modify. cbn [fst snd]. by apply registry_ok_logEvent.
  - rewrite run_bind.
    destruct (registry_ok_getDefaultLogger g w Hok) as [Hok1 Hin].
    rewrite getDefaultLogger_run in *. cbn [fst snd] in *.
    apply registry_ok_on; [done|done|]. intros k lv. apply unbuffered_run_call.
  - rewrite run_bind.
    destruct (registry_ok_getDefaultLogger g w Hok) as [Hok1 Hin].
    rewrite getDefaultLogger_run in *. cbn [fst snd] in *.
    destruct Hin as [l Hl]. rewrite (on_logger_run _ _ _ _ l Hl). cbn [fst snd assign].
    destruct Hok1 as [Hd Hc]. split; [|exact Hc].
    cbn [defaultLogger set_defaultLogger]. intros l' [= <-].
    destruct (Hd l Hl) as (lv & Hn & _ & Hs & Hb). exists lvl. by repeat split.
  - by rewrite flushAllLoggers_noop.
Qed.

Lemma registry_ok_run_requests (rs : list request) (s : RState) :
  registry_ok (fst s) → registry_ok (fst (run_requests rs s)).
Proof.
  revert s. induction rs as [|r rs IH]; intros [g w] Hok; [done|].
  cbn [run_requests]. destruct (run_request r (g, w)) as [res [g1 w1]] eqn:Hrun.
  apply IH. cbn [fst snd].
  pose proof (registry_ok_run_request r g w Hok) as H. by rewrite Hrun in H.
Qed.

Lemma registry_ok_at_load (packaged : bool) : registry_ok (at_load packaged).
Proof. by split. Qed.

(** X21.  [getDefaultLogger] makes the default logger on the first call
    and hands out the same one from then on, without touching the world
    or the cached loggers.  It is named [app], logs from DEBUG up with
    file logging off in development, and from INFO up with (deferred)
    file logging when the application is packaged; in development no call
    on it ever reaches the file system. *)
Theorem getDefaultLogger_creates_once (g : Registry) (w : World) :
  ∃ g',
    getDefaultLogger (g, w) = (Normal DefaultLogger, (g', w))
    ∧ getDefaultLogger (g', w) = (Normal DefaultLogger, (g', w))
    ∧ moduleLoggerCache g' = moduleLoggerCache g
    ∧ (is_Some (defaultLogger g) → g' = g)
    ∧ (defaultLogger g = None →
       ∃ l, defaultLogger g' = Some l
            ∧ moduleName l = "app"
            ∧ level (options l) = (if isPackaged g then INFO else DEBUG)
            ∧ fileLogging (options l) = isPackaged g
            ∧ fileLoggingInitialized l = false
            ∧ (isPackaged g = false →
               ∀ cs w1, w_fs (snd (run_calls cs (l, w1))) = w_fs w1
                        ∧ appends (w_trace (snd (run_calls cs (l, w1))))
                          = appends (w_trace w1))).
Proof.
  rewrite getDefaultLogger_run. eexists. split; [reflexivity|].
  destruct (defaultLogger g) as [l|] eqn:Hl.
  - rewrite getDefaultLogger_run, Hl. by repeat split.
  - rewrite getDefaultLogger_run. cbn [defaultLogger set_defaultLogger moduleLoggerCache].
    split; [done|]. split; [done|]. split; [by intros [? ?]|]. intros _.
    eexists. split; [reflexivity|]. split; [done|].
    split; [by destruct (isPackaged g)|]. split; [by destruct (isPackaged g)|].
    split; [done|]. intros Hdev cs w1. rewrite Hdev.
    match goal with |- context [run_calls cs (?l1, w1)] =>
      pose proof (run_calls_off (w_fs w1) (w_trace w1) cs (l1, w1)
                    (file_logging_off_here l1 w1 eq_refl eq_refl))
        as (_ & _ & Hfs & evs & Htr & Hev) end.
    split; [exact Hfs|].
    by rewrite Htr, appends_app, (no_fs_call_appends evs Hev), app_nil_r.
Qed.

(** X22.  [logEvent] keeps one logger per module name: the entry is
    logged through the logger filed under its module name ([renderer]
    when the entry names no module, or an empty one), which is made and
    appended to the cache only if it is not there yet; the other cached
    loggers and the default logger are not touched. *)
Theorem logEvent_keeps_one_logger_per_module (entry : LogEntry) (g : Registry) (w : World) :
  let k := module_or_renderer entry in
  let s' := snd (logEvent entry (g, w)) in
  map fst (moduleLoggerCache (fst s'))
  = match cache_get k (moduleLoggerCache g) with
    | Some _ => map fst (moduleLoggerCache g)
    | None => (map fst (moduleLoggerCache g) ++ [k])%list
    end
  ∧ is_Some (cache_get k (moduleLoggerCache (fst s')))
  ∧ (∀ k', k' ≠ k →
           cache_get k' (moduleLoggerCache (fst s')) = cache_get k' (moduleLoggerCache g))
  ∧ defaultLogger (fst s') = defaultLogger g
  ∧ (entry_module entry = None ∨ entry_module entry = Some EmptyString → k = "renderer").
Proof.
  cbn zeta. destruct (logEvent_run entry (g, w)) as (lvl & -> & _).
  rewrite run_bind, getCachedLogger_run.
  set (k := module_or_renderer entry).
  set (g1 := match cache_get k (moduleLoggerCache g) with Some _ => g | None => _ end).
  assert (map fst (moduleLoggerCache g1)
          = match cache_get k (moduleLoggerCache g) with
            | Some _ => map fst (moduleLoggerCache g)
            | None => (map fst (moduleLoggerCache g) ++ [k])%list
            end) as Hkeys.
  { unfold g1. destruct (cache_get k (moduleLoggerCache g)) eqn:Hk; [done|].
    cbn [moduleLoggerCache set_moduleLoggerCache]. by rewrite cache_set_keys, Hk. }
  assert (∃ l, cache_get k (moduleLoggerCache g1) = Some l) as [l Hl].
  { unfold g1. destruct (cache_get k (moduleLoggerCache g)) eqn:Hk; [by eexists|].
    cbn [moduleLoggerCache set_moduleLoggerCache]. rewrite cache_get_set_eq. by eexists. }
  assert (∀ k', k' ≠ k → cache_get k' (moduleLoggerCache g1) = cache_get k' (moduleLoggerCache g))
    as Hother.
  { intros k' Hne. unfold g1. destruct (cache_get k (moduleLoggerCache g)); [done|].
    cbn [moduleLoggerCache set_moduleLoggerCache]. by rewrite cache_get_set_ne. }
  assert (defaultLogger g1 = defaultLogger g) as Hdef.
  { unfold g1. by destruct (cache_get k (moduleLoggerCache g)). }
  rewrite (on_logger_run (CachedLogger k) _ g1 w l Hl).
  cbn [fst snd assign moduleLoggerCache set_moduleLoggerCache defaultLogger].
  split; [by rewrite cache_set_keys, Hl|].
  split; [rewrite cache_get_set_eq; by eexists|].
  split; [by intros k' Hne; rewrite cache_get_set_ne, Hother|].
  split; [done|].
  unfold k, module_or_renderer. by intros [->| ->].
Qed.

(** X23.  Debug events never come out: the cached loggers are made with
    the default threshold INFO and nothing changes it, so in every state
    that the functions of the module can reach, [logEvent] on an entry of
    level [debug] leaves the world (console, file system) exactly as it
    was. *)
Theorem logEvent_drops_debug
    (packaged : bool) (rs : list request) (w : World) (entry : LogEntry) :
  entry_level entry = "debug" →
  let s := run_requests rs (at_load packaged, w) in
  ∃ g', logEvent entry s = (Normal tt, (g', snd s)).
Proof.
  intros Hdebug. cbn zeta.
  pose proof (registry_ok_run_requests rs (at_load packaged, w) (registry_ok_at_load packaged))
    as Hok.
  destruct (run_requests rs (at_load packaged, w)) as [g w1]. cbn [fst snd] in *.
  destruct (logEvent_run entry (g, w1)) as (lvl & -> & Hlvl & _). rewrite (Hlvl Hdebug).
  rewrite run_bind.
  destruct (registry_ok_getCachedLogger (module_or_renderer entry) g w1 Hok) as [Hok1 [l Hl]].
  rewrite getCachedLogger_run in *. cbn [fst snd] in *.
  rewrite (on_logger_run _ _ _ _ l Hl).
  destruct Hok1 as [_ Hc]. destruct (Hc _ l Hl) as (_ & Hlevel & _).
  assert (method DEBUG (entry_message entry) (entry_context entry) (l, w1)
          = (Normal tt, (l, w1))) as ->.
  { cbn [method]. unfold debug, log. run. by rewrite Hlevel. }
  cbn [fst snd]. by eexists.
Qed.

Lemma logEvent_drops_debug_witness :
  ∃ g', logEvent debug_entry
          (run_requests [ReqLogEvent "t1" anonymous_entry] (at_load true, ready_world))
        = (Normal tt,
           (g', snd (run_requests [ReqLogEvent "t1" anonymous_entry]
                       (at_load true, ready_world)))).
Proof.
  apply (logEvent_drops_debug true [ReqLogEvent "t1" anonymous_entry] ready_world debug_entry).
  reflexivity.
Defined.

(** X24.  The loggers kept by the module never buffer (they are made
    with the default [bufferSize] 0), so [flushAllLoggers] finds every
    buffer empty: in every state that the functions of the module can
    reach it returns without writing anything and without any other
    effect. *)
Theorem flushAllLoggers_never_writes (packaged : bool) (rs : list request) (w : World) :
  let s := run_requests rs (at_load packaged, w) in
  flushAllLoggers s = (Normal tt, s).
Proof.
  cbn zeta.
  pose proof (registry_ok_run_requests rs (at_load packaged, w) (registry_ok_at_load packaged))
    as Hok.
  destruct (run_requests rs (at_load packaged, w)) as [g w1]. by apply flushAllLoggers_noop.
Qed.

(** X28.  How [logEvent] routes what is not a debug or an error event,
    in every state that the functions of the module can reach: an entry
    of level [warn] is written to [console.warn] as WARN, and an entry of
    any other level, [info] or a level that is not known, to
    [console.log] as INFO, with the text [[time] [LEVEL] [module] message]
    under the module name of the entry ([renderer] by default). *)
Theorem logEvent_routes_levels
    (packaged : bool) (rs : list request) (w : World) (entry : LogEntry) :
  entry_level entry ≠ "debug" →
  entry_level entry ≠ "error" →
  let s := run_requests rs (at_load packaged, w) in
  let lvl := if bool_decide (entry_level entry = "warn") then WARN else INFO in
  ∃ res g' w' evs,
    logEvent entry s = (res, (g', w'))
    ∧ w_trace w'
      = (w_trace (snd s)
         ++ Console (channel_of lvl)
              ([AVal (VString ("[" +:+ w_now (snd s) +:+ "] [" +:+ LOG_LEVEL_NAMES lvl
                               +:+ "] [" +:+ module_or_renderer entry +:+ "] "
                               +:+ entry_message entry))]
               ++ (if truthy (entry_context entry) then [AVal (entry_context entry)] else []))
            :: evs)%list.
Proof.
  intros Hdebug Herror. cbn zeta.
  pose proof (registry_ok_run_requests rs (at_load packaged, w) (registry_ok_at_load packaged))
    as Hok.
  destruct (run_requests rs (at_load packaged, w)) as [g w1]. cbn [fst snd] in *.
  destruct (logEvent_run entry (g, w1)) as (lvl & -> & _ & Hwarn & Hother).
  assert (lvl = if bool_decide (entry_level entry = "warn") then WARN else INFO) as ->.
  { destruct (bool_decide (entry_level entry = "warn")) eqn:H.
    - apply bool_decide_eq_true in H. by apply Hwarn.
    - apply bool_decide_eq_false in H. by apply Hother. }
  set (lvl := if bool_decide (entry_level entry = "warn") then WARN else INFO).
  rewrite run_bind.
  destruct (registry_ok_getCachedLogger (module_or_renderer entry) g w1 Hok) as [Hok1 [l Hl]].
  rewrite getCachedLogger_run in *. cbn [fst snd] in *.
  rewrite (on_logger_run _ _ _ _ l Hl).
  destruct Hok1 as [_ Hc]. destruct (Hc _ l Hl) as (Hname & Hlevel & _).
  assert (method lvl (entry_message entry) (entry_context entry)
          = log lvl (entry_message entry) (entry_context entry)) as ->.
  { unfold lvl. by destruct (bool_decide _). }
  destruct (log_console l w1 lvl (entry_message entry) (entry_context entry))
    as (res & l' & w' & Hrun & _ & evs & Htr).
  { unfold passes. rewrite Hlevel. unfold lvl. by destruct (bool_decide _). }
  rewrite Hrun. cbn [fst snd]. eexists _, _, _, evs. split; [reflexivity|].
  rewrite Htr. unfold console_args, prefix_of. rewrite Hname. by rewrite !append_assoc.
Qed.

Lemma logEvent_routes_levels_witness :
  ∃ res g' w' evs,
    logEvent anonymous_entry (run_requests [] (at_load true, ready_world)) = (res, (g', w'))
    ∧ w_trace w'
      = Console ConsoleWarn
          [AVal (VString "[2026-01-01T00:00:00.000Z] [WARN] [renderer] slow frame")]
        :: evs.
Proof.
  apply (logEvent_routes_levels true [] ready_world anonymous_entry); discriminate.
Defined.

End RegistryFacts.

(** * A write that rotates *)

(** The backup shift on a directory where no backup path is a
    directory: it meets no failure, frees index 1 and touches backup
    paths only. *)
Lemma rotateBackups_clears (l : Logger) (dir : string) (M : Z) (n : nat) (w : World) :
  w_faults w = [] →
  (∀ i, w_fs w !! backup dir i ≠ Some Dir) →
  ∃ w', rotateBackups dir M n (l, w) = (Normal tt, (l, w'))
        ∧ w_faults w' = []
        ∧ (1 ≤ Z.of_nat n → w_fs w' !! backup dir 1 = None)
        ∧ (∀ q, (∀ i, q ≠ backup dir i) → w_fs w' !! q = w_fs w !! q)
        ∧ (∀ i, w_fs w' !! backup dir i ≠ Some Dir).
Proof.
  revert w. induction n as [|n IH]; intros w Hf Hnd.
  { exists w. split; [done|]. split; [done|]. split; [lia|]. by split. }
  cbn [rotateBackups]. fold (backup dir (Z.of_nat (S n))).
  fold (backup dir (Z.of_nat (S n) + 1)).
  rewrite run_bind, existsSync_run.
  set (i := Z.of_nat (S n)) in *.
  set (w0 := set_trace (w_trace w ++ [ExistsSync (backup dir i)]) w).
  assert (∀ w1,
            w_faults w1 = [] →
            (∀ j, w_fs w1 !! backup dir j ≠ Some Dir) →
            w_fs w1 !! backup dir i = None →
            (∀ q, (∀ j, q ≠ backup dir j) → w_fs w1 !! q = w_fs w !! q) →
            ∃ w', rotateBackups dir M n (l, w1) = (Normal tt, (l, w'))
                  ∧ w_faults w' = []
                  ∧ (1 ≤ i → w_fs w' !! backup dir 1 = None)
                  ∧ (∀ q, (∀ j, q ≠ backup dir j) → w_fs w' !! q = w_fs w !! q)
                  ∧ (∀ j, w_fs w' !! backup dir j ≠ Some Dir)) as Hrest.
  { intros w1 Hf1 Hnd1 Hfree Hframe1.
    destruct (IH w1 Hf1 Hnd1) as (w' & Hrun & Hf' & Hone & Hframe & Hnd').
    exists w'. split; [done|]. split; [done|]. split; [|split; [|done]].
    - intros _. destruct n as [|n'].
      + cbn [rotateBackups] in Hrun. rewrite run_ret in Hrun. by simplify_eq.
      + apply Hone. lia.
    - intros q Hq. rewrite Hframe by done. by apply Hframe1. }
  destruct (w_fs w !! backup dir i) as [[c|]|] eqn:Hb.
  - rewrite run_bind.
    destruct (bool_decide (i = M - 1)).
    + rewrite (unlinkSync_file _ _ _ c); [|done|done].
      apply Hrest; autorewrite with world; [done| |by rewrite lookup_delete_eq|].
      * intros j. destruct (decide (backup dir j = backup dir i)) as [->|Hne].
        -- by rewrite lookup_delete_eq.
        -- rewrite lookup_delete_ne by done. apply Hnd.
      * intros q Hq. by rewrite lookup_delete_ne.
    + rewrite (renameSync_file _ _ _ _ c); [|done|done|apply Hnd].
      apply Hrest; autorewrite with world; [done| | |].
      * intros j. destruct (decide (backup dir j = backup dir (i + 1))) as [->|Hne1].
        -- by rewrite lookup_insert_eq.
        -- rewrite lookup_insert_ne by done.
           destruct (decide (backup dir j = backup dir i)) as [->|Hne].
           ++ by rewrite lookup_delete_eq.
           ++ rewrite lookup_delete_ne by done. apply Hnd.
      * rewrite lookup_insert_ne by (intros ?%backup_inj; lia). by rewrite lookup_delete_eq.
      * intros q Hq. rewrite lookup_insert_ne by done. by rewrite lookup_delete_ne.
  - by destruct (Hnd i).
  - rewrite run_bind, run_ret. by apply Hrest.
Qed.

(** A rotation that meets no failure moves the live content to index 1,
    whatever backups there are. *)
Lemma rotateIfNeeded_moves_live (l : Logger) (w : World) (dir old : string) :
  path_of (logsDir l) = Some dir →
  path_of (logFilePath l) = Some (live dir) →
  w_faults w = [] →
  w_fs w !! live dir = Some (File old) →
  maxFileSize (options l) ≤ Z.of_nat (String.length old) →
  (∀ i, w_fs w !! backup dir i ≠ Some Dir) →
  ∃ w', rotateIfNeeded (l, w) = (Normal tt, (l, w'))
        ∧ w_faults w' = []
        ∧ w_fs w' !! live dir = None
        ∧ w_fs w' !! backup dir 1 = Some (File old)
        ∧ (∀ q, q ≠ live dir → (∀ i, q ≠ backup dir i) → w_fs w' !! q = w_fs w !! q).
Proof.
  intros Hd Hp Hf Hlive Hsize Hnd.
  unfold rotateIfNeeded. rewrite run_bind, emit_run. run. rewrite Hp, Hd.
  rewrite run_try_catch, run_bind, existsSync_run. autorewrite with world.
  rewrite Hlive. cbn [negb]. rewrite run_bind.
  rewrite (statSync_file _ _ _ old) by (by autorewrite with world). run.
  replace (Z.of_nat (String.length old) <? maxFileSize (options l)) with false
    by (symmetry; by apply Z.ltb_ge).
  run.
  match goal with |- context [rotateBackups dir ?M ?n (l, ?w1)] =>
    destruct (rotateBackups_clears l dir M n w1)
      as (w2 & Hrun & Hf2 & _ & Hframe & Hnd2) end.
  { by autorewrite with world. }
  { intros i. autorewrite with world. apply Hnd. }
  rewrite Hrun. autorewrite with world in Hframe. rewrite backup_1.
  assert (w_fs w2 !! live dir = Some (File old)) as Hlive2.
  { rewrite Hframe; [done|]. intros i. apply live_ne_backup. }
  rewrite (renameSync_file _ _ _ _ old); [|done|done|apply Hnd2].
  eexists. split; [reflexivity|]. autorewrite with world.
  split; [done|]. split; [|split].
  - rewrite lookup_insert_ne by (apply not_eq_sym, live_ne_backup).
    by rewrite lookup_delete_eq.
  - by rewrite lookup_insert_eq.
  - intros q Hq1 Hq2. rewrite lookup_insert_ne by (apply not_eq_sym, Hq2).
    rewrite lookup_delete_ne by (by apply not_eq_sym). by apply Hframe.
Qed.

(** X25.  No line is lost at a rotation.  When a write finds the live
    file at or above [maxFileSize] at a rotation check and the file system
    does not fail, then, for every [maxBackups], the old content of the
    live file is the backup [app.log.1] afterwards and the live file holds
    exactly the content just written; the write counter is back at
    zero. *)
Theorem write_that_rotates_starts_new_file
    (l : Logger) (w : World) (dir old content : string) :
  path_of (logsDir l) = Some dir →
  path_of (logFilePath l) = Some (live dir) →
  rotationCheckInterval (options l) ≤ logWriteCount l + 1 →
  w_faults w = [] →
  w_fs w !! live dir = Some (File old) →
  maxFileSize (options l) ≤ Z.of_nat (String.length old) →
  (∀ i, w_fs w !! backup dir i ≠ Some Dir) →
  ∃ l' w',
    writeToFile content (l, w) = (Normal tt, (l', w'))
    ∧ logWriteCount l' = 0
    ∧ w_fs w' !! live dir = Some (File content)
    ∧ w_fs w' !! backup dir 1 = Some (File old)
    ∧ (∀ q, q ≠ live dir → (∀ i, q ≠ backup dir i) → w_fs w' !! q = w_fs w !! q).
Proof.
  intros Hd Hp Hdue Hf Hlive Hsize Hnd. unfold writeToFile. run. rewrite Hp, Hd. run.
  replace (rotationCheckInterval (options l) <=? logWriteCount l + 1) with true
    by (symmetry; apply Z.leb_le; lia).
  run.
  match goal with |- context [rotateIfNeeded (?l1, w)] =>
    destruct (rotateIfNeeded_moves_live l1 w dir old)
      as (w1 & Hrun & Hf1 & Hgone & Hone & Hframe); try done end.
  rewrite Hrun. run.
  rewrite appendFileSync_ok; [|done|by rewrite Hgone].
  eexists _, _. split; [reflexivity|]. cbn [logWriteCount set_logWriteCount].
  autorewrite with world. split; [done|]. unfold file_content. rewrite Hgone.
  split; [by rewrite lookup_insert_eq|]. split.
  - rewrite lookup_insert_ne by apply live_ne_backup. done.
  - intros q Hq1 Hq2. rewrite lookup_insert_ne by (by apply not_eq_sym). by apply Hframe.
Qed.

Lemma write_that_rotates_starts_new_file_witness :
  ∃ l' w',
    writeToFile "fresh" (two_backups_logger, full_world) = (Normal tt, (l', w'))
    ∧ w_fs w' !! "/home/u/logs/app.log" = Some (File "fresh")
    ∧ w_fs w' !! "/home/u/logs/app.log.1" = Some (File "0123456789").
Proof.
  destruct (write_that_rotates_starts_new_file two_backups_logger full_world
              "/home/u/logs" "0123456789" "fresh")
    as (l' & w' & Hrun & _ & Hlive & Hone & _).
  - reflexivity.
  - reflexivity.
  - vm_compute. discriminate.
  - reflexivity.
  - reflexivity.
  - vm_compute. discriminate.
  - intros i Hi. unfold full_world in Hi. autorewrite with world in Hi.
    apply lookup_insert_Some in Hi as [[_ [=]]|[_ Hi]].
    apply lookup_insert_Some in Hi as [[_ [=]]|[_ Hi]].
    apply lookup_insert_Some in Hi as [[_ [=]]|[_ Hi]].
    apply lookup_insert_Some in Hi as [[Hdir _]|[_ Hi]].
    + by apply (dir_ne_backup "/home/u/logs" i).
    + by rewrite lookup_empty in Hi.
  - exists l', w'. split; [exact Hrun|]. split; [exact Hlive|exact Hone].
Defined.

(** * Errors are never filtered *)

(** X26.  [error] can not be silenced: ERROR is the highest severity,
    so whatever the threshold of the logger, the call writes to
    [console.error] first, with the formatted text; the context is the
    argument itself unless that is a native error. *)
Theorem error_is_never_filtered (l : Logger) (w : World) (message : string) (err : value) :
  ∃ res l' w' context evs,
    error message err (l, w) = (res, (l', w'))
    ∧ w_trace w'
      = (w_trace w
         ++ Console ConsoleError
              ([AVal (VString (prefix_of l (w_now w) ERROR +:+ " " +:+ message))]
               ++ (if truthy context then [AVal context] else [])) :: evs)%list
    ∧ (context = err
       ∨ ∃ E n m s props, err = VRef E ∧ w_heap w !! E = Some (OError n m s props)).
Proof.
  assert (∀ w0 context,
            w_trace w0 = w_trace w → w_now w0 = w_now w →
            ∃ res l' w' evs,
              log ERROR message context (l, w0) = (res, (l', w'))
              ∧ w_trace w'
                = (w_trace w
                   ++ Console ConsoleError
                        ([AVal (VString (prefix_of l (w_now w) ERROR +:+ " " +:+ message))]
                         ++ (if truthy context then [AVal context] else [])) :: evs)%list)
    as Hlog.
  { intros w0 context Htr Hnow.
    destruct (log_console l w0 ERROR message context (passes_ERROR l))
      as (res & l' & w' & Hrun & _ & evs & Hev).
    exists res, l', w', evs. split; [done|]. by rewrite Hev, Htr, Hnow. }
  unfold error. run.
  destruct err as [| | | | | | | | | |E];
    try (run;
         match goal with |- context [log ERROR message ?ctx (l, w)] =>
           destruct (Hlog w ctx eq_refl eq_refl) as (res & l' & w' & evs & Hrun & Htr);
           exists res, l', w', ctx, evs end;
         split; [exact Hrun|]; split; [exact Htr|by left]).
  destruct (w_heap w !! E) as [[props|elems|n m s props]|] eqn:HE;
    try (run;
         match goal with |- context [log ERROR message ?ctx (l, w)] =>
           destruct (Hlog w ctx eq_refl eq_refl) as (res & l' & w' & evs & Hrun & Htr);
           exists res, l', w', ctx, evs end;
         split; [exact Hrun|]; split; [exact Htr|by left]).
  rewrite run_bind, alloc_run. rewrite run_bind, alloc_run. run.
  match goal with |- context [log ERROR message ?ctx (l, ?w0)] =>
    destruct (Hlog w0 ctx) as (res & l' & w' & evs & Hrun & Htr);
      [by autorewrite with world..|];
    exists res, l', w', ctx, evs end.
  split; [exact Hrun|]. split; [exact Htr|].
  right. by exists E, n, m, s, props.
Qed.

(** * The first message of a deferred logger *)



